(** * MDU: extraction dispatch, stream selection, download engine and
    audio conversion of the media downloader, embedded in Rocq.

    The TypeScript sources are embedded shallowly.  Pure helpers become
    functions; the network, the file system, the clock and the external
    transcoder are oracles passed in as arguments, and every effect the
    code performs (callback invocations, HTTP requests, sleeps, file
    creation and removal, job-table updates) is threaded explicitly.

    Conventions.
    - A JavaScript string is a [string]; the models are exact on ASCII
      text (one character per code unit).
    - A JavaScript number that holds a byte count, a percentage or a
      delay is a [Z]; [NaN] and [undefined] are made explicit where the
      code can produce them.  Where the code divides, multiplies and
      rounds, the arithmetic is that of double precision ([Double]).
    - A thrown [Error] is its [message].
    - A promise that is never settled is made explicit where the code
      can leave one: a call that awaits it never returns.
    - The callbacks handed to the code ([onProgress],
      [onAudioConversion]) are taken to be supplied and to return;
      their calls are logged with their argument. *)

From Stdlib Require Import ZArith QArith Qround Qpower Lia Lqa.
From Stdlib Require Import Ascii String HexString Floats.SpecFloat.
From stdpp Require Import gmap strings list pretty.

Open Scope string_scope.

(** ** JavaScript string primitives used by the sources *)

Module Js.

Definition ascii_eqb (a b : ascii) : bool := Ascii.eqb a b.

(** [s.length] *)
Definition length (s : string) : nat := String.length s.

(** ASCII part of [String.prototype.toLowerCase]. *)
Definition lower_ascii (c : ascii) : ascii :=
  let n := nat_of_ascii c in
  if (65 <=? n)%nat && (n <=? 90)%nat then ascii_of_nat (n + 32) else c.

Fixpoint toLowerCase (s : string) : string :=
  match s with
  | EmptyString => EmptyString
  | String c r => String (lower_ascii c) (toLowerCase r)
  end.

(** [s.startsWith(p)] *)
Fixpoint startsWith (p s : string) : bool :=
  match p, s with
  | EmptyString, _ => true
  | String a p', String b s' => ascii_eqb a b && startsWith p' s'
  | String _ _, EmptyString => false
  end.

(** [s.slice(n)] for [0 <= n] *)
Fixpoint drop (n : nat) (s : string) : string :=
  match n, s with
  | O, _ => s
  | S n', String _ r => drop n' r
  | S _, EmptyString => EmptyString
  end.

(** [s.endsWith(p)] *)
Definition endsWith (p s : string) : bool :=
  (length p <=? length s)%nat
  && String.eqb (drop (length s - length p) s) p.

(** [s.split(sep).pop()] for a one-character separator: the text after
    the last separator, the whole string when there is none.  [split]
    never returns an empty array, so [pop] is always defined. *)
Fixpoint split_pop_from (sep : ascii) (cur s : string) : string :=
  match s with
  | EmptyString => cur
  | String c r =>
      if ascii_eqb c sep then split_pop_from sep r r
      else split_pop_from sep cur r
  end.

Definition split_pop (sep : ascii) (s : string) : string :=
  split_pop_from sep s s.

(** [s.replace(pat, repl)] with a string pattern: the first occurrence
    only.  ([repl] never contains a dollar sign in the sources.) *)
Fixpoint replace_first (pat repl s : string) : string :=
  if startsWith pat s then repl +:+ drop (length pat) s
  else match s with
       | EmptyString => EmptyString
       | String c r => String c (replace_first pat repl r)
       end.

(** The longest prefix whose characters all satisfy [p], and the rest. *)
Fixpoint span (p : ascii -> bool) (s : string) : string * string :=
  match s with
  | EmptyString => (EmptyString, EmptyString)
  | String c r =>
      if p c then let '(a, b) := span p r in (String c a, b)
      else (EmptyString, s)
  end.

(** Truthiness of a string and of an optional string. *)
Definition truthy (s : string) : bool := negb (String.eqb s "").

Definition truthy_opt (o : option string) : bool :=
  match o with
  | Some s => truthy s
  | None => false
  end.

(** [a || b] on strings. *)
Definition or_else (a b : string) : string := if truthy a then a else b.

(** A JavaScript number as far as the sources need it. *)
Inductive num : Type :=
| NaN
| Int (z : Z).

Definition num_truthy (n : num) : bool :=
  match n with
  | NaN => false
  | Int z => negb (z =? 0)%Z
  end.

(** [a > b]; every comparison with [NaN] is false. *)
Definition gt (a : num) (b : Z) : bool :=
  match a with
  | NaN => false
  | Int z => (b <? z)%Z
  end.

Definition is_digit (c : ascii) : bool :=
  let n := nat_of_ascii c in (48 <=? n)%nat && (n <=? 57)%nat.

Definition digit_val (c : ascii) : Z := Z.of_nat (nat_of_ascii c) - 48.

Definition is_space (c : ascii) : bool :=
  let n := nat_of_ascii c in
  (n =? 32)%nat || ((9 <=? n)%nat && (n <=? 13)%nat).

Fixpoint digits_from (acc : Z) (s : string) : Z :=
  match s with
  | EmptyString => acc
  | String c r =>
      if is_digit c then digits_from (10 * acc + digit_val c) r else acc
  end.

Definition unsigned_decimal (s : string) : num :=
  match s with
  | String c _ => if is_digit c then Int (digits_from 0 s) else NaN
  | EmptyString => NaN
  end.

(** [parseInt(s)] on decimal input: leading white space, an optional
    sign, then the longest run of digits; [NaN] when there is no
    digit.  (The hexadecimal prefix is not modelled.) *)
Definition parseInt (s : string) : num :=
  let '(_, t) := span is_space s in
  match t with
  | String "-" r =>
      match unsigned_decimal r with
      | Int z => Int (- z)
      | NaN => NaN
      end
  | String "+" r => unsigned_decimal r
  | _ => unsigned_decimal t
  end.

End Js.

(** ** JavaScript numbers: double precision arithmetic

    A finite double is the rational number it denotes.  Every
    arithmetic operation of JavaScript returns the double nearest to
    the exact result, a tie going to the one with the even
    significand.  The exponent range is not bounded here: a result of
    magnitude 2^1024 or more ([Infinity] in JavaScript) or below
    2^-1022 (subnormal) is rounded to 53 significant bits like any
    other.  No byte count, percentage or cell count of the sources
    gets there. *)

Module Double.

Local Open Scope Q_scope.

(** The integer nearest to [x], a tie going to the even one. *)
Definition rne (x : Q) : Z :=
  let f := Qfloor x in
  match Qcompare (x - inject_Z f) (1 # 2) with
  | Lt => f
  | Gt => (f + 1)%Z
  | Eq => if Z.even f then f else (f + 1)%Z
  end.

(** The exponent [k] with [2^k <= x < 2^(k+1)], for [0 < x]. *)
Definition ilog2 (x : Q) : Z :=
  let k := (Z.log2 (Qnum x) - Z.log2 (Zpos (Qden x)))%Z in
  if Qle_bool (2 ^ k) x then k else (k - 1)%Z.

(** The nearest number with a significand of 53 bits, for [0 < x]. *)
Definition nearest (x : Q) : Q :=
  let e := (ilog2 x - 52)%Z in
  inject_Z (rne (x / 2 ^ e)) * 2 ^ e.

(** The double nearest to [x]. *)
Definition round (x : Q) : Q :=
  match Qcompare x 0 with
  | Eq => 0
  | Gt => nearest x
  | Lt => - nearest (- x)
  end.

(** The number an integer is held as. *)
Definition of_Z (z : Z) : Q := round (inject_Z z).

(** [x / y] and [x * y] on doubles; the sources never divide by
    zero (the engine's handler tests its divisor, the bar divides by
    100). *)
Definition div (x y : Q) : Q := round (x / y).
Definition mul (x y : Q) : Q := round (x * y).

(** [Math.round(x)]: the integer nearest to [x], a tie going up. *)
Definition Math_round (x : Q) : Z := Qfloor (x + (1 # 2)).

End Double.

(** The same arithmetic in the standard library's model of IEEE 754
    binary64, against which [Double] is checked (see [DoubleSpec]). *)

Module Binary64.

Local Open Scope Q_scope.

Definition of_Z (z : Z) : spec_float := binary_normalize 53 1024 z 0 false.
Definition div : spec_float -> spec_float -> spec_float := SFdiv 53 1024.
Definition mul : spec_float -> spec_float -> spec_float := SFmul 53 1024.

(** The rational a finite float denotes. *)
Definition value (f : spec_float) : option Q :=
  match f with
  | S754_zero _ => Some 0
  | S754_finite s m e =>
      Some ((if s then - inject_Z (Zpos m) else inject_Z (Zpos m)) * 2 ^ e)
  | _ => None
  end.

(** [Math.round((x / y) * 100)] *)
Definition percent (x y : Z) : option Z :=
  Double.Math_round <$> value (mul (div (of_Z x) (of_Z y)) (of_Z 100)).

(** [Math.round((x / 100) * y)] *)
Definition filled_cells (x y : Z) : option Z :=
  Double.Math_round <$> value (mul (div (of_Z x) (of_Z 100)) (of_Z y)).

End Binary64.

(** ** The part of the platform's [URL] class the sources rely on *)

Module Url.

Definition is_alpha (c : ascii) : bool :=
  let n := nat_of_ascii c in
  ((65 <=? n)%nat && (n <=? 90)%nat) || ((97 <=? n)%nat && (n <=? 122)%nat).

Definition is_scheme_char (c : ascii) : bool :=
  is_alpha c || Js.is_digit c
  || Js.ascii_eqb c "+" || Js.ascii_eqb c "-" || Js.ascii_eqb c ".".

(** The text after the colon that ends the scheme, when [s]
    continues a scheme. *)
Fixpoint after_colon (s : string) : option string :=
  match s with
  | EmptyString => None
  | String c r =>
      if Js.ascii_eqb c ":" then Some r
      else if is_scheme_char c then after_colon r
      else None
  end.

Definition after_scheme (s : string) : option string :=
  match s with
  | String c r => if is_alpha c then after_colon r else None
  | EmptyString => None
  end.

Definition ends_authority (c : ascii) : bool :=
  Js.ascii_eqb c "/" || Js.ascii_eqb c "?" || Js.ascii_eqb c "#".

Definition ends_path (c : ascii) : bool :=
  Js.ascii_eqb c "?" || Js.ascii_eqb c "#".

(** [new URL(s).pathname], or [None] where the constructor throws.
    An absolute URL is a scheme, a colon, two slashes, an authority, a
    path and then a query or a fragment;
    the path of a hierarchical URL is never empty.  A string with no
    scheme is rejected, as the constructor does without a base.
    This is the parser of the platform on URLs of that plain shape
    only.  The authority is not examined (the platform rejects a port
    out of range, a space in the host, an IPv6 literal left open); an
    empty authority is rejected (the platform accepts it for [file:]);
    white space around the URL is not trimmed and a backslash is not
    read as a slash; the path is returned as written, without
    percent-encoding and without the removal of dot segments. *)
Definition pathname (s : string) : option string :=
  match after_scheme s with
  | None => None
  | Some (String "/" (String "/" r)) =>
      let '(authority, r') := Js.span (fun c => negb (ends_authority c)) r in
      if Js.truthy authority then
        let '(path, _) := Js.span (fun c => negb (ends_path c)) r' in
        Some (Js.or_else path "/")
      else None
  | Some r =>
      let '(path, _) := Js.span (fun c => negb (ends_path c)) r in
      Some path
  end.

End Url.

(** ** common/utils.ts *)

Module Common.

Definition keeps (c : ascii) : bool :=
  Url.is_alpha c || Js.is_digit c
  || Js.ascii_eqb c "." || Js.ascii_eqb c "_" || Js.ascii_eqb c "-".

(** [filename.replace(/[^a-zA-Z0-9._-]/g, '_')] *)
Fixpoint sanitizeFilename (filename : string) : string :=
  match filename with
  | EmptyString => EmptyString
  | String c r =>
      String (if keeps c then c else "_"%char) (sanitizeFilename r)
  end.

(** [getFileExtension]: the text after the last dot of the URL's path
    when the argument parses as a URL, of the argument itself when it
    does not; ['unknown'] when that text is empty. *)
Definition getFileExtension (urlOrFilename : string) : string :=
  match Url.pathname urlOrFilename with
  | Some pathname => Js.or_else (Js.split_pop "." pathname) "unknown"
  | None => Js.or_else (Js.split_pop "." urlOrFilename) "unknown"
  end.

End Common.

(** ** The part of Node's [path] module the sources rely on (POSIX
    separators; [dirname], [basename] and [parse] for paths that do not
    end with a separator) *)

Module Path.

(** Index just after the last slash of [s], if any. *)
Fixpoint last_slash (i : nat) (s : string) : option nat :=
  match s with
  | EmptyString => None
  | String c r =>
      match last_slash (S i) r with
      | Some j => Some j
      | None => if Js.ascii_eqb c "/" then Some (S i) else None
      end
  end.

(** [path.dirname(p)] *)
Definition dirname (p : string) : string :=
  match last_slash 0 p with
  | None => "."
  | Some 1%nat => "/"
  | Some j => String.substring 0 (j - 1) p
  end.

(** [path.basename(p)] *)
Definition basename (p : string) : string := Js.split_pop "/" p.

(** Index of the last dot of [s] that is not its first character. *)
Fixpoint last_dot (i : nat) (s : string) : option nat :=
  match s with
  | EmptyString => None
  | String c r =>
      match last_dot (S i) r with
      | Some j => Some j
      | None => if Js.ascii_eqb c "." && negb (i =? 0)%nat then Some i else None
      end
  end.

(** [path.parse(p).name]: the base name without its extension. *)
Definition name (p : string) : string :=
  let b := basename p in
  match last_dot 0 b with
  | Some j => String.substring 0 j b
  | None => b
  end.

(** [path.parse(p).dir] *)
Definition dir (p : string) : string :=
  match last_slash 0 p with
  | None => ""
  | Some 1%nat => "/"
  | Some j => String.substring 0 (j - 1) p
  end.

(** [p.split('/')] *)
Fixpoint segments (p : string) : list string :=
  match p with
  | EmptyString => [""]
  | String c r =>
      if Js.ascii_eqb c "/" then "" :: segments r
      else match segments r with
           | segment :: rest => String c segment :: rest
           | [] => [String c ""]
           end
  end.

(** [l.join('/')] *)
Fixpoint unsplit (l : list string) : string :=
  match l with
  | [] => ""
  | [segment] => segment
  | segment :: rest => segment +:+ "/" +:+ unsplit rest
  end.

(** What [normalizeString] does with one segment; [res] holds the
    segments kept so far, the last one first.  An empty segment and a
    single dot are dropped; two dots remove the segment before them,
    or are kept when there is none to remove and the path may climb
    above its start. *)
Definition normalize_step (allowAboveRoot : bool) (res : list string)
                          (segment : string) : list string :=
  if String.eqb segment "" || String.eqb segment "." then res
  else if String.eqb segment ".." then
    match res with
    | top :: rest =>
        if String.eqb top ".."
        then if allowAboveRoot then ".." :: res else res
        else rest
    | [] => if allowAboveRoot then [".."] else []
    end
  else segment :: res.

Definition normalizeString (p : string) (allowAboveRoot : bool) : string :=
  unsplit (rev (fold_left (normalize_step allowAboveRoot) (segments p) [])).

(** [path.normalize(p)] *)
Definition normalize (p : string) : string :=
  if String.eqb p "" then "."
  else
    let isAbsolute := Js.startsWith "/" p in
    let trailingSeparator := Js.endsWith "/" p in
    let q := normalizeString p (negb isAbsolute) in
    if String.eqb q "" then
      if isAbsolute then "/" else if trailingSeparator then "./" else "."
    else
      let q := if trailingSeparator then q +:+ "/" else q in
      if isAbsolute then "/" +:+ q else q.

(** [path.join(d, f)]: the arguments that are not empty, put together
    with a separator and normalised. *)
Definition join (d f : string) : string :=
  let joined :=
    if String.eqb d "" then f
    else if String.eqb f "" then d
    else d +:+ "/" +:+ f in
  if String.eqb joined "" then "." else normalize joined.

End Path.

(** ** Shared data shapes (core/index.ts) *)

(** The outcome of a call that may throw: the value, or the message of
    the [Error] thrown. *)
Inductive result (A : Type) : Type :=
| Ok (a : A)
| Throw (message : string).

Arguments Ok {A} a.
Arguments Throw {A} message.

Record StreamInfo : Type := mkStreamInfo {
  url : string;
  format : string;
  quality : string;
  fileSize : option Js.num;
  codec : option string;
  headers : option (gmap string string)
}.

Record SubtitleInfo : Type := mkSubtitleInfo {
  sub_url : string;
  language : string;
  sub_format : string
}.

Record ExtractResult : Type := mkExtractResult {
  title : string;
  description : option string;
  duration : option Z;
  thumbnail : option string;
  streams : list StreamInfo;
  subtitles : option (list SubtitleInfo);
  originalUrl : string
}.

Inductive Status : Type :=
| pending
| downloading
| completed
| error
| paused.

Record DownloadProgress : Type := mkDownloadProgress {
  downloadId : string;
  job_url : string;
  job_title : string;
  progress : Z;
  downloadedBytes : Z;
  totalBytes : Z;
  speed : Z;
  status : Status;
  job_error : option string
}.

Record DownloadOptions : Type := mkDownloadOptions {
  outputPath : string;
  opt_format : option string;
  opt_quality : option string;
  audioQuality : option string
}.

(** The [Extractor] interface.  [extract] is network bound; an extractor
    value carries the answers the network gives it. *)
Module Extractor.

Record t : Type := mk {
  name : string;
  test : string -> bool;
  extract : string -> result ExtractResult
}.

End Extractor.

(** Response headers, keyed by lower-case header name. *)
Abbreviation Headers := (gmap string string).

(** ** The metadata probe of http/client.ts *)

Module Probe.

Record FileInfo : Type := mkFileInfo {
  contentLength : option Js.num;
  contentType : option string;
  filename : option string
}.

Definition dquote : ascii := ascii_of_nat 34.

(** Does the regular expression of [getFileInfo] (the word filename,
    an equals sign, an optional double quote, a captured non-empty run
    of characters other than the double quote, an optional double
    quote) match at the start of [s]?  The opening quote is taken when
    present; the captured group is the longest such run. *)
Definition filename_here (s : string) : option string :=
  if Js.startsWith "filename=" s then
    let r := Js.drop 9 s in
    let r' := match r with
              | String c t => if Js.ascii_eqb c dquote then t else r
              | EmptyString => r
              end in
    let '(g, _) := Js.span (fun c => negb (Js.ascii_eqb c dquote)) r' in
    if Js.truthy g then Some g else None
  else None.

(** [contentDisposition.match(...)]: the captured group of the
    leftmost match. *)
Fixpoint match_filename (s : string) : option string :=
  match filename_here s with
  | Some g => Some g
  | None =>
      match s with
      | EmptyString => None
      | String _ r => match_filename r
      end
  end.

(** [HttpClient.head]: the transport's answer, its failure rewrapped. *)
Definition head (answer : result Headers) : result Headers :=
  match answer with
  | Ok h => Ok h
  | Throw m => Throw ("Failed to get file info: " +:+ m)
  end.

(** [HttpClient.getFileInfo] *)
Definition getFileInfo (answer : result Headers) : result FileInfo :=
  match head answer with
  | Throw m => Throw ("Failed to get file info: " +:+ m)
  | Ok h =>
      let contentLength := h !! "content-length" in
      let contentType := h !! "content-type" in
      let contentDisposition := h !! "content-disposition" in
      let filename :=
        match contentDisposition with
        | Some cd => if Js.truthy cd then match_filename cd else None
        | None => None
        end in
      Ok {| contentLength :=
              match contentLength with
              | Some cl => if Js.truthy cl then Some (Js.parseInt cl) else None
              | None => None
              end;
            contentType := contentType;
            filename := filename |}
  end.

End Probe.

(** ** extractors/http.ts *)

Module HttpExtractor.

Definition mediaExtensions : list string :=
  [".mp4"; ".mp3"; ".avi"; ".mkv"; ".webm"; ".m4a"; ".wav"; ".flac"].

Definition test (url : string) : bool :=
  match Url.pathname url with
  | Some pathname =>
      existsb (fun ext => Js.endsWith ext (Js.toLowerCase pathname))
              mediaExtensions
  | None => false
  end.

Definition MB : Z := 1024 * 1024.

(** The quality guessed from the probed size. *)
Definition qualityOfSize (fileSize : option Js.num) : string :=
  match fileSize with
  | Some n =>
      if Js.num_truthy n then
        if Js.gt n (100 * MB) then "1080p"
        else if Js.gt n (50 * MB) then "720p"
        else if Js.gt n (20 * MB) then "480p"
        else "360p"
      else "unknown"
  | None => "unknown"
  end.

(** [extract(url)], given the transport's answer to the HEAD request. *)
Definition extract (answer : result Headers) (url : string)
  : result ExtractResult :=
  match Probe.getFileInfo answer with
  | Throw m => Throw ("Failed to extract HTTP file info: " +:+ m)
  | Ok fileInfo =>
      match Url.pathname url with
      | None => Throw ("Failed to extract HTTP file info: " +:+ "Invalid URL")
      | Some urlPath =>
          let urlFilename := Js.or_else (Js.split_pop "/" urlPath) "download" in
          let filename :=
            match Probe.filename fileInfo with
            | Some f => Js.or_else f urlFilename
            | None => urlFilename
            end in
          let extension := Common.getFileExtension filename in
          let fileSize := Probe.contentLength fileInfo in
          let stream :=
            {| quality := qualityOfSize fileSize;
               format := extension;
               url := url;
               fileSize := fileSize;
               codec := None;
               headers := None |} in
          Ok {| title := Js.replace_first ("." +:+ extension) "" filename;
                description := None;
                duration := None;
                thumbnail := None;
                originalUrl := url;
                streams := [stream];
                subtitles := Some [] |}
      end
  end.

(** The extractor as registered, over a network that answers HEAD
    requests. *)
Definition make (net : string -> result Headers) : Extractor.t :=
  Extractor.mk "HTTP" test (fun url => extract (net url) url).

End HttpExtractor.

(** ** audio/processor.ts *)

Module AudioProcessor.

Record AudioConversionOptions : Type := mkAudioConversionOptions {
  inputPath : string;
  outputPath : string;
  format : string;
  quality : option string
}.

Record AudioConversionResult : Type := mkAudioConversionResult {
  success : bool;
  res_outputPath : option string;
  res_error : option string
}.

(** The [settings] object: its only property is [audioBitrate]. *)
Record Settings : Type := mkSettings { audioBitrate : option string }.

(** [getQualitySettings(format, quality = 'medium')] *)
Definition getQualitySettings (format : string) (quality : option string)
  : Settings :=
  let quality := default "medium" quality in
  if String.eqb format "mp3" then
    if String.eqb quality "low" then {| audioBitrate := Some "128k" |}
    else if String.eqb quality "high" then {| audioBitrate := Some "320k" |}
    else {| audioBitrate := Some "192k" |}
  else if String.eqb format "wav" then {| audioBitrate := None |}
  else if String.eqb format "aac" || String.eqb format "m4a" then
    if String.eqb quality "low" then {| audioBitrate := Some "96k" |}
    else if String.eqb quality "high" then {| audioBitrate := Some "256k" |}
    else {| audioBitrate := Some "128k" |}
  else {| audioBitrate := None |}.

Definition getAudioCodec (format : string) : string :=
  if String.eqb format "mp3" then "libmp3lame"
  else if String.eqb format "wav" then "pcm_s16le"
  else if String.eqb format "aac" || String.eqb format "m4a" then "aac"
  else "libmp3lame".

(** The transcoder invocation as the fluent builder assembles it. *)
Record Command : Type := mkCommand {
  cmd_input : string;
  cmd_noVideo : bool;
  cmd_audioCodec : option string;
  cmd_format : option string;
  cmd_audioBitrate : option string;
  cmd_output : option string
}.

Definition ffmpeg (input : string) : Command :=
  {| cmd_input := input; cmd_noVideo := false; cmd_audioCodec := None;
     cmd_format := None; cmd_audioBitrate := None; cmd_output := None |}.

Definition noVideo (c : Command) : Command :=
  {| cmd_input := cmd_input c; cmd_noVideo := true;
     cmd_audioCodec := cmd_audioCodec c; cmd_format := cmd_format c;
     cmd_audioBitrate := cmd_audioBitrate c; cmd_output := cmd_output c |}.

Definition audioCodec (codec : string) (c : Command) : Command :=
  {| cmd_input := cmd_input c; cmd_noVideo := cmd_noVideo c;
     cmd_audioCodec := Some codec; cmd_format := cmd_format c;
     cmd_audioBitrate := cmd_audioBitrate c; cmd_output := cmd_output c |}.

Definition set_format (f : string) (c : Command) : Command :=
  {| cmd_input := cmd_input c; cmd_noVideo := cmd_noVideo c;
     cmd_audioCodec := cmd_audioCodec c; cmd_format := Some f;
     cmd_audioBitrate := cmd_audioBitrate c; cmd_output := cmd_output c |}.

Definition set_audioBitrate (b : string) (c : Command) : Command :=
  {| cmd_input := cmd_input c; cmd_noVideo := cmd_noVideo c;
     cmd_audioCodec := cmd_audioCodec c; cmd_format := cmd_format c;
     cmd_audioBitrate := Some b; cmd_output := cmd_output c |}.

Definition save (out : string) (c : Command) : Command :=
  {| cmd_input := cmd_input c; cmd_noVideo := cmd_noVideo c;
     cmd_audioCodec := cmd_audioCodec c; cmd_format := cmd_format c;
     cmd_audioBitrate := cmd_audioBitrate c; cmd_output := Some out |}.

(** The command [convertToAudio] hands to the transcoder. *)
Definition command (options : AudioConversionOptions) : Command :=
  let qualitySettings :=
    getQualitySettings (format options) (quality options) in
  let c := audioCodec (getAudioCodec (format options))
             (noVideo (ffmpeg (inputPath options))) in
  let c := if String.eqb (format options) "aac" then set_format "adts" c
           else set_format (format options) c in
  let c := match audioBitrate qualitySettings with
           | Some b => if Js.truthy b then set_audioBitrate b c else c
           | None => c
           end in
  save (outputPath options) c.

(** What becomes of a command, as the environment decides it.  The
    set-up may throw before the transcoder is started ([Thrown]: the
    [mkdirSync] of a missing output directory, the builder).  Otherwise
    [save] starts the transcoder, which fires its progress events, each
    with a [percent] ([None] where it is [undefined] or [NaN]), and
    then ['end'], or ['error'] with a message, or neither when the
    process never exits.  The directory the set-up may create is not
    tracked. *)
Inductive Ending : Type :=
| End
| Failed (message : string)
| Thrown (message : string)
| NeverExits.

Record Run : Type := mkRun {
  percents : list (option Q);
  ending : Ending
}.

(** What the adapter does that its environment sees: the command it
    starts the transcoder on, and the calls of [options.onProgress]. *)
Inductive Event : Type :=
| Started (c : Command)
| Progress (percent : Z).

(** The ['progress'] handler: a falsy [percent] is skipped, any other
    is handed on rounded. *)
Definition onProgress (percent : option Q) : option Event :=
  match percent with
  | Some q => if Qeq_bool q 0 then None else Some (Progress (Double.Math_round q))
  | None => None
  end.

(** [convertToAudio(options)]: never throws.  The promise it returns
    resolves in the ['end'] and ['error'] handlers and in the [catch]
    block; [None] stands for a promise that is never resolved. *)
Definition convertToAudio (transcoder : Command -> Run)
                          (options : AudioConversionOptions)
  : option AudioConversionResult * list Event :=
  let c := command options in
  let run := transcoder c in
  let events := Started c :: omap onProgress (percents run) in
  match ending run with
  | End => (Some {| success := true;
                    res_outputPath := Some (outputPath options);
                    res_error := None |}, events)
  | Failed m =>
      (Some {| success := false; res_outputPath := None; res_error := Some m |},
       events)
  | Thrown m =>
      (Some {| success := false; res_outputPath := None; res_error := Some m |},
       [])
  | NeverExits => (None, events)
  end.

Definition audioFormats : list string :=
  ["mp3"; "wav"; "aac"; "m4a"; "ogg"; "flac"].

Definition isAudioFormat (format : string) : bool :=
  existsb (String.eqb (Js.toLowerCase format)) audioFormats.

Definition generateAudioFilename (originalPath targetFormat : string)
  : string :=
  Path.join (Path.dir originalPath)
            (Path.name originalPath +:+ "." +:+ targetFormat).

End AudioProcessor.

(** ** Observable effects and the file system *)

(** What a run does that its environment can see, in order. *)
Inductive Effect : Type :=
| Request (attempt : nat)            (* the GET of the engine, by value of [attempt] *)
| Notify (job : DownloadProgress)    (* [onProgress(progress)]: the job as the callback sees it *)
| Sleep (ms : Z)                     (* [setTimeout(resolve, ms)] awaited *)
| Transcode (command : AudioProcessor.Command) (* the transcoder is started *)
| AudioProgress (percent : Z).       (* [onAudioConversion(percent)] *)

(** The paths that exist ([fs.existsSync]). *)
Abbreviation FileSystem := (gset string).

(** Field updates of the shared job object. *)
Definition set_status (s : Status) (p : DownloadProgress) : DownloadProgress :=
  {| downloadId := downloadId p; job_url := job_url p; job_title := job_title p;
     progress := progress p; downloadedBytes := downloadedBytes p;
     totalBytes := totalBytes p; speed := speed p;
     status := s; job_error := job_error p |}.

Definition set_progress (n : Z) (p : DownloadProgress) : DownloadProgress :=
  {| downloadId := downloadId p; job_url := job_url p; job_title := job_title p;
     progress := n; downloadedBytes := downloadedBytes p;
     totalBytes := totalBytes p; speed := speed p;
     status := status p; job_error := job_error p |}.

Definition set_error (m : string) (p : DownloadProgress) : DownloadProgress :=
  {| downloadId := downloadId p; job_url := job_url p; job_title := job_title p;
     progress := progress p; downloadedBytes := downloadedBytes p;
     totalBytes := totalBytes p; speed := speed p;
     status := status p; job_error := Some m |}.

(** ** The download engine of http/client.ts *)

Module HttpClient.

(** A progress event of the transport. *)
Record ProgressEvent : Type := mkProgressEvent {
  loaded : Z;
  total : option Z;
  rate : option Z
}.

(** How the destination write stream ends: ['finish'], or ['error']
    with the stream's error; [partial] tells whether the stream had
    created the file by then.  Or it does not end: when the response
    body breaks off, [pipe] hands no error of its source on and does
    not end its destination, so the stream fires neither event; what
    was written by then stays in the file. *)
Inductive WriterEnd : Type :=
| Finish
| WriteError (message : string) (partial : bool)
| BodyAborted.

(** How one iteration of the retry loop goes, as the environment
    decides it: the request is rejected, or a response arrives; then
    [mkdirSync] may throw (consulted only when the directory is
    missing), and the write stream ends one way or the other. *)
Inductive Outcome : Type :=
| RequestFails (message : string)
| Responds (mkdirError : option string) (writer : WriterEnd).

(** One attempt: the progress events the transport delivers to
    [onDownloadProgress] during it, and its outcome.  The handler is
    handed to the transport afresh with every request, and the engine
    puts no condition on when the transport calls it, so an attempt
    carries events whatever its outcome. *)
Record Attempt : Type := mkAttempt {
  events : list ProgressEvent;
  outcome : Outcome
}.

(** The errors [downloadFile] rejects with. *)
Inductive EngineError : Type :=
| DownloadFailed (attempts : nat) (lastError : string)  (* thrown by the catch block *)
| DownloadFailedBare                                    (* thrown after the loop *)
| StreamError (message : string).                       (* the writer's error, passed to [reject] *)

Definition message (e : EngineError) : string :=
  match e with
  | DownloadFailed n m =>
      "Download failed after " +:+ pretty n +:+ " attempts: " +:+ m
  | DownloadFailedBare => "Download failed"
  | StreamError m => m
  end.

(** What becomes of the promise [downloadFile] returns: it resolves,
    it rejects, or it is never settled. *)
Inductive Settled : Type :=
| Resolved (path : string)
| Rejected (e : EngineError)
| Pending.

(** [Math.round((loaded / total) * 100)], in double precision: the
    quotient is rounded to a double, then the product, then
    [Math.round] rounds to an integer ([percent 23 40] is 57, the
    product being 57.49999999999999). *)
Definition percent (loaded total : Z) : Z :=
  Double.Math_round
    (Double.mul (Double.div (Double.of_Z loaded) (Double.of_Z total)) 100).

Record EngineState : Type := mkEngineState {
  job : DownloadProgress;
  fs : FileSystem;
  log : list Effect
}.

Definition emit (e : Effect) (st : EngineState) : EngineState :=
  {| job := job st; fs := fs st; log := log st ++ [e] |}.

Definition set_fs (f : FileSystem) (st : EngineState) : EngineState :=
  {| job := job st; fs := f; log := log st |}.

(** The [onDownloadProgress] handler. *)
Definition onDownloadProgress (ev : ProgressEvent) (st : EngineState)
  : EngineState :=
  match total ev with
  | Some t =>
      if (t =? 0)%Z then st
      else
        let p := job st in
        let p' :=
          {| downloadId := downloadId p; job_url := job_url p;
             job_title := job_title p;
             totalBytes := t;
             downloadedBytes := loaded ev;
             progress := percent (loaded ev) t;
             speed := default 0%Z (rate ev);
             status := status p; job_error := job_error p |} in
        emit (Notify p') {| job := p'; fs := fs st; log := log st |}
  | None => st
  end.

Definition deliver (evs : list ProgressEvent) (st : EngineState)
  : EngineState :=
  fold_left (fun st ev => onDownloadProgress ev st) evs st.

(** The ['finish'] and ['error'] handlers of the write stream, the
    only two places where the promise is settled. *)
Definition settle (outputPath : string) (w : WriterEnd) (st : EngineState)
  : Settled * EngineState :=
  match w with
  | Finish => (Resolved outputPath, set_fs ({[outputPath]} ∪ fs st) st)
  | WriteError m partial =>
      let f := if partial then {[outputPath]} ∪ fs st else fs st in
      let f := if decide (outputPath ∈ f) then f ∖ {[outputPath]} else f in
      (Rejected (StreamError m), set_fs f st)
  | BodyAborted => (Pending, set_fs ({[outputPath]} ∪ fs st) st)
  end.

Section Engine.

(** The environment's answer to the request made while [attempt]
    has a given value. *)
Variable net : nat -> Attempt.
Variable outputPath : string.
Variable retries : nat.

(** The [while (attempt < retries)] loop.  [fuel] bounds the number
    of iterations; [None] means it ran out. *)
Fixpoint loop (fuel attempt : nat) (st : EngineState)
  : option (Settled * EngineState) :=
  match fuel with
  | O => None
  | S fuel' =>
      if (attempt <? retries)%nat then
        let a := net attempt in
        let st := deliver (events a) (emit (Request attempt) st) in
        let catch (m : string) (st : EngineState) :=
          let attempt := S attempt in
          if (retries <=? attempt)%nat then
            Some (Rejected (DownloadFailed retries m), st)
          else
            loop fuel' attempt (emit (Sleep (1000 * Z.of_nat attempt)) st) in
        match outcome a with
        | RequestFails m => catch m st
        | Responds mkdirError w =>
            let dir := Path.dirname outputPath in
            if decide (dir ∈ fs st) then Some (settle outputPath w st)
            else
              match mkdirError with
              | Some m => catch m st
              | None =>
                  Some (settle outputPath w (set_fs ({[dir]} ∪ fs st) st))
              end
        end
      else Some (Rejected DownloadFailedBare, st)
  end.

(** [downloadFile(url, outputPath, progress, { onProgress, retries })].
    Every iteration that does not leave the loop increments
    [attempt], so [S retries] iterations are enough. *)
Definition downloadFile (st : EngineState)
  : option (Settled * EngineState) :=
  loop (S retries) 0 st.

End Engine.

End HttpClient.

(** ** The orchestrator of core/index.ts *)

Module MediaDownloader.

(** [registerExtractor]: [push] appends. *)
Definition registerExtractor (extractor : Extractor.t)
                             (extractors : list Extractor.t)
  : list Extractor.t :=
  extractors ++ [extractor].

(** [findExtractor]: [Array.prototype.find]. *)
Fixpoint findExtractor (extractors : list Extractor.t) (url : string)
  : option Extractor.t :=
  match extractors with
  | [] => None
  | extractor :: rest =>
      if Extractor.test extractor url then Some extractor
      else findExtractor rest url
  end.

Definition extract (extractors : list Extractor.t) (url : string)
  : result ExtractResult :=
  match findExtractor extractors url with
  | None => Throw ("No extractor found for URL: " +:+ url)
  | Some extractor => Extractor.extract extractor url
  end.

Definition qualityOrder : list string :=
  ["2160p"; "1440p"; "1080p"; "720p"; "480p"; "360p"; "240p"].

(** [Array.prototype.indexOf]: the first index, [-1] when absent. *)
Fixpoint indexOf (x : string) (l : list string) : Z :=
  match l with
  | [] => (-1)%Z
  | y :: l' =>
      if String.eqb y x then 0%Z
      else let i := indexOf x l' in
           if (i =? -1)%Z then (-1)%Z else (i + 1)%Z
  end.

(** The comparator handed to [sort]. *)
Definition rank (s : StreamInfo) : Z :=
  let index := indexOf (quality s) qualityOrder in
  if (index =? -1)%Z then 999%Z else index.

Definition compare (a b : StreamInfo) : Z := (rank a - rank b)%Z.

(** [Array.prototype.sort] is stable, and this comparator is a
    difference of keys, so the result is the one stable arrangement
    by key; insertion from the right computes it. *)
Fixpoint insert (x : StreamInfo) (l : list StreamInfo) : list StreamInfo :=
  match l with
  | [] => [x]
  | y :: l' =>
      if (compare x y <=? 0)%Z then x :: y :: l' else y :: insert x l'
  end.

Definition sort (l : list StreamInfo) : list StreamInfo :=
  fold_right insert [] l.

(** [Array.prototype.find] *)
Definition find_stream (p : StreamInfo -> bool) (l : list StreamInfo)
  : option StreamInfo :=
  List.find p l.

Definition selectBestStream (streams : list StreamInfo)
                            (options : DownloadOptions)
  : option StreamInfo :=
  let qualityMatch :=
    match opt_quality options with
    | Some q =>
        if Js.truthy q
        then find_stream (fun s => String.eqb (quality s) q) streams
        else None
    | None => None
    end in
  match qualityMatch with
  | Some s => Some s
  | None =>
      let formatMatch :=
        match opt_format options with
        | Some f =>
            if Js.truthy f
            then find_stream (fun s => String.eqb (format s) f) streams
            else None
        | None => None
        end in
      match formatMatch with
      | Some s => Some s
      | None => hd_error (sort streams)
      end
  end.

Definition generateFilename (title format : string) : string :=
  Common.sanitizeFilename title +:+ "." +:+ format.

(** What one call of [download] gets from outside: the identifier
    [generateId()] returns, the answers to the engine's requests, and
    the transcoder. *)
Record Env : Type := mkEnv {
  generateId : string;
  net : nat -> HttpClient.Attempt;
  transcoder : AudioProcessor.Command -> AudioProcessor.Run
}.

(** The orchestrator's job table, the file system and the effects so
    far.  The table holds the job objects themselves: an update of the
    object a key maps to is an update of the entry. *)
Record World : Type := mkWorld {
  activeDownloads : gmap string DownloadProgress;
  fs : FileSystem;
  log : list Effect
}.

Definition emit (e : Effect) (w : World) : World :=
  {| activeDownloads := activeDownloads w; fs := fs w; log := log w ++ [e] |}.

Definition set_job (id : string) (p : DownloadProgress) (w : World) : World :=
  {| activeDownloads := <[id := p]> (activeDownloads w);
     fs := fs w; log := log w |}.

Definition delete_job (id : string) (w : World) : World :=
  {| activeDownloads := delete id (activeDownloads w);
     fs := fs w; log := log w |}.

(** [getActiveDownloads()]: the jobs of the table (in key order here,
    in insertion order in the source). *)
Definition getActiveDownloads (w : World) : list DownloadProgress :=
  (map_to_list (activeDownloads w)).*2.

(** The [catch] block of [download]. *)
Definition catch (id : string) (m : string) (w : World)
  : result string * World :=
  match activeDownloads w !! id with
  | Some p =>
      let p := set_error m (set_status error p) in
      (Throw m, emit (Notify p) (set_job id p w))
  | None => (Throw m, w)
  end.

(** The two places where [download] completes the job. *)
Definition complete (id : string) (p : DownloadProgress) (path : string)
                    (w : World)
  : result string * World :=
  let p := set_progress 100 (set_status completed p) in
  (Ok path, delete_job id (emit (Notify p) (set_job id p w))).

(** The audio processor's events as effects of the call: the
    callback handed over as [onProgress] is [options.onAudioConversion]. *)
Definition audio_effect (e : AudioProcessor.Event) : Effect :=
  match e with
  | AudioProcessor.Started c => Transcode c
  | AudioProcessor.Progress z => AudioProgress z
  end.

(** The rest of [download] once the engine has resolved: the optional
    audio conversion, then completion.  [None]: the conversion is
    awaited for ever.  (Of the files of the transcoder the output of a
    run that ends well is tracked, under the path as it is written.) *)
Definition finish (env : Env) (options : DownloadOptions) (id filePath : string)
                  (p : DownloadProgress) (w : World)
  : option (result string * World) :=
  match opt_format options with
  | Some f =>
      if Js.truthy f && AudioProcessor.isAudioFormat f then
        let audioPath := AudioProcessor.generateAudioFilename filePath f in
        let conversion :=
          {| AudioProcessor.inputPath := filePath;
             AudioProcessor.outputPath := audioPath;
             AudioProcessor.format := f;
             AudioProcessor.quality := audioQuality options |} in
        let run := transcoder env (AudioProcessor.command conversion) in
        let awaited :=
          AudioProcessor.convertToAudio (transcoder env) conversion in
        let w :=
          {| activeDownloads := activeDownloads w;
             fs := match AudioProcessor.ending run with
                   | AudioProcessor.End => {[audioPath]} ∪ fs w
                   | _ => fs w
                   end;
             log := log w ++ map audio_effect awaited.2 |} in
        match awaited.1 with
        | None => None
        | Some conversionResult =>
            if AudioProcessor.success conversionResult
               && Js.truthy_opt (AudioProcessor.res_outputPath conversionResult)
            then
              let w := {| activeDownloads := activeDownloads w;
                          fs := fs w ∖ {[filePath]};
                          log := log w |} in
              Some (complete id p
                      (default "" (AudioProcessor.res_outputPath conversionResult))
                      w)
            else
              Some (catch id
                      ("Audio conversion failed: "
                       +:+ default "undefined"
                             (AudioProcessor.res_error conversionResult))
                      w)
        end
      else Some (complete id p filePath w)
  | None => Some (complete id p filePath w)
  end.

(** [download(url, options)].  [None]: the call never returns nor
    throws, a promise it awaits (the engine's, the audio processor's)
    being never settled. *)
Definition download (env : Env) (extractors : list Extractor.t)
                    (url : string) (options : DownloadOptions) (w : World)
  : option (result string * World) :=
  let id := generateId env in
  match extract extractors url with
  | Throw m => Some (catch id m w)
  | Ok extractResult =>
      let p :=
        {| downloadId := id; job_url := url;
           job_title := title extractResult;
           progress := 0; downloadedBytes := 0; totalBytes := 0;
           speed := 0; status := pending; job_error := None |} in
      let w := emit (Notify p) (set_job id p w) in
      match selectBestStream (streams extractResult) options with
      | None => Some (catch id "No suitable stream found" w)
      | Some selectedStream =>
          let p := set_status downloading p in
          let w := emit (Notify p) (set_job id p w) in
          let filename :=
            generateFilename (title extractResult) (format selectedStream) in
          let filePath := outputPath options +:+ "/" +:+ filename in
          match HttpClient.downloadFile (net env) filePath 3
                  {| HttpClient.job := p; HttpClient.fs := fs w;
                     HttpClient.log := log w |} with
          | None => None
          | Some (settled, st) =>
              let p := HttpClient.job st in
              let w := {| activeDownloads := <[id := p]> (activeDownloads w);
                          fs := HttpClient.fs st;
                          log := HttpClient.log st |} in
              match settled with
              | HttpClient.Rejected e =>
                  Some (catch id (HttpClient.message e) w)
              | HttpClient.Resolved _ => finish env options id filePath p w
              | HttpClient.Pending => None
              end
          end
      end
  end.

End MediaDownloader.

(** ** Vocabulary of the statements *)

(** [x] is the first element of [l] that satisfies [P]. *)
Definition first_with {A : Type} (P : A -> Prop) (l : list A) (x : A) : Prop :=
  exists before after,
    l = (before ++ x :: after)%list /\ P x /\ Forall (fun y => ~ P y) before.

Module Selection.

(** A hint applies when it is given, not empty, and some stream carries
    it in the field it is about. *)
Definition hint_applies (field : StreamInfo -> string) (hint : option string)
                        (streams : list StreamInfo) : Prop :=
  exists h, hint = Some h /\ h <> "" /\ exists t, In t streams /\ field t = h.

Definition best_rank (streams : list StreamInfo) (s : StreamInfo) : Prop :=
  forall t, In t streams -> (MediaDownloader.rank s <= MediaDownloader.rank t)%Z.

(** The selection policy: the first stream of the hinted quality; else
    the first stream of the hinted format; else the first stream of
    the best rank. *)
Inductive Selects (streams : list StreamInfo) (options : DownloadOptions)
                  (s : StreamInfo) : Prop :=
| ByQuality q :
    opt_quality options = Some q -> q <> "" ->
    first_with (fun t => quality t = q) streams s ->
    Selects streams options s
| ByFormat f :
    ~ hint_applies quality (opt_quality options) streams ->
    opt_format options = Some f -> f <> "" ->
    first_with (fun t => format t = f) streams s ->
    Selects streams options s
| ByLadder :
    ~ hint_applies quality (opt_quality options) streams ->
    ~ hint_applies format (opt_format options) streams ->
    first_with (best_rank streams) streams s ->
    Selects streams options s.

(** The ladder as the specification words it: eight resolutions, then
    the three audio ranks. *)
Definition spec_qualityOrder : list string :=
  ["2160p"; "1440p"; "1080p"; "720p"; "480p"; "360p"; "240p"; "144p";
   "high"; "medium"; "low"].

Definition spec_rank (s : StreamInfo) : Z :=
  let index := MediaDownloader.indexOf (quality s) spec_qualityOrder in
  if (index =? -1)%Z then 999%Z else index.

Definition stream_of (q f : string) : StreamInfo :=
  {| url := "https://cdn.example/" +:+ q +:+ "." +:+ f; format := f; quality := q;
     fileSize := None; codec := None; headers := None |}.

(** The two hinted lookups of [selectBestStream] share one shape. *)
Definition hinted (field : StreamInfo -> string) (hint : option string)
                  (streams : list StreamInfo) : option StreamInfo :=
  match hint with
  | Some h =>
      if Js.truthy h
      then MediaDownloader.find_stream (fun s => String.eqb (field s) h) streams
      else None
  | None => None
  end.

Definition no_hints : DownloadOptions :=
  {| outputPath := "./downloads"; opt_format := None; opt_quality := None;
     audioQuality := None |}.

End Selection.

Module Trace.

Import HttpClient.

(** The values of [attempt] at which a GET was issued. *)
Definition requests (l : list Effect) : list nat :=
  omap (fun e => match e with Request k => Some k | _ => None end) l.

(** The requests and the waits between them. *)
Definition schedule (l : list Effect) : list Effect :=
  List.filter (fun e => match e with Request _ | Sleep _ => true | _ => false end) l.

(** The percentages reported while the job's status is downloading. *)
Definition downloading_percents (l : list Effect) : list Z :=
  omap (fun e => match e with
                 | Notify p => match status p with
                               | downloading => Some (progress p)
                               | _ => None
                               end
                 | _ => None
                 end) l.


(** The percentage an event makes the handler report, if any. *)
Definition event_percent (ev : ProgressEvent) : option Z :=
  match total ev with
  | Some t => if (t =? 0)%Z then None else Some (percent (loaded ev) t)
  | None => None
  end.

Definition attempt_percents (a : Attempt) : list Z :=
  omap event_percent (events a).


(** The error the catch block of the retry loop receives in an
    iteration, if the iteration throws. *)
Definition caught (dirExists : bool) (a : Attempt) : option string :=
  match outcome a with
  | RequestFails m => Some m
  | Responds (Some m) _ => if dirExists then None else Some m
  | Responds None _ => None
  end.

(** The state once the request of an iteration has been made and its
    progress events delivered. *)
Definition requested (net : nat -> Attempt) (attempt : nat) (st : EngineState)
  : EngineState :=
  deliver (events (net attempt)) (emit (Request attempt) st).

(** [mkdirSync] when the directory is missing. *)
Definition with_dir (outputPath : string) (st : EngineState) : EngineState :=
  if decide (Path.dirname outputPath ∈ fs st) then st
  else set_fs ({[Path.dirname outputPath]} ∪ fs st) st.

Definition dir_exists (outputPath : string) (st : EngineState) : bool :=
  bool_decide (Path.dirname outputPath ∈ fs st).

(** How the end of a call relates to the state it started from. *)
Definition settled_as (outputPath : string) (retries : nat)
                      (st : EngineState) (r : Settled) (st' : EngineState) : Prop :=
  match r with
  | Resolved path => path = outputPath /\ (outputPath ∈ fs st')
  | Rejected (DownloadFailed k _) => k = retries /\ fs st' = fs st
  | Rejected DownloadFailedBare => retries = O /\ fs st' = fs st
  | Rejected (StreamError _) => outputPath ∉ fs st'
  | Pending => outputPath ∈ fs st'
  end.

(** What the promise comes to once the write stream is set up. *)
Definition answer (outputPath : string) (w : WriterEnd) : Settled :=
  match w with
  | Finish => Resolved outputPath
  | WriteError m _ => Rejected (StreamError m)
  | BodyAborted => Pending
  end.

(** What [k] caught iterations starting at [attempt] leave in the
    schedule. *)
Definition retried (attempt k : nat) : list Effect :=
  flat_map (fun i => [Request i; Sleep (1000 * Z.of_nat (S i))]) (seq attempt k).

End Trace.

Module Jobs.

Import Trace.

(** How the catch block marks a job. *)
Definition failed (m : string) (p : DownloadProgress) : DownloadProgress :=
  set_error m (set_status error p).

(** What the job looks like where [download] ends it. *)
Definition ended (r : result string) (before after : option DownloadProgress)
                 (notes : list Effect) : Prop :=
  match r with
  | Ok _ =>
      after = None
      /\ exists q, last notes = Some (Notify q)
                   /\ status q = completed /\ progress q = 100%Z
  | Throw m => after = failed m <$> before
  end.

(** The percentages reported while downloading, when the download
    phase is reached and the engine makes [n] requests: the 0 of the
    transition to downloading, then the percentages of each attempt. *)
Definition reported (env : MediaDownloader.Env) (n : nat) : list Z :=
  0%Z :: concat (map (fun i => attempt_percents (MediaDownloader.net env i)) (seq 0 n)).

(** An environment that settles every promise [download] awaits: no
    response body is left without an end, and the transcoder exits.
    (An extractor is a function here: it returns or throws.) *)
Definition answers (env : MediaDownloader.Env) : Prop :=
  (forall i mk,
      HttpClient.outcome (MediaDownloader.net env i)
      <> HttpClient.Responds mk HttpClient.BodyAborted)
  /\ (forall c,
        AudioProcessor.ending (MediaDownloader.transcoder env c)
        <> AudioProcessor.NeverExits).

End Jobs.

(** Concrete runs used to exercise the statements. *)
Module Scenario.

Import HttpClient.

Definition job0 : DownloadProgress :=
  {| downloadId := "1700000000000_k3j9x2m1q";
     job_url := "https://example.com/video.mp4";
     job_title := "video";
     progress := 0; downloadedBytes := 0; totalBytes := 0; speed := 0;
     status := downloading; job_error := None |}.

Definition st0 : EngineState := {| job := job0; fs := ∅; log := [] |}.

(** The same, with the file of an earlier download at the destination. *)
Definition stale : EngineState :=
  {| job := job0; fs := {["./downloads/video.mp4"]}; log := [] |}.

Definition target : string := "./downloads/video.mp4".

Definition bytes (l t : Z) : ProgressEvent :=
  {| loaded := l; total := Some t; rate := None |}.

(** Every request is refused. *)
Definition unreachable : nat -> Attempt :=
  fun _ => {| events := []; outcome := RequestFails "connect ECONNREFUSED" |}.

(** The first request is refused; the second is answered, and the disk
    fills up half way through the body. *)
Definition disk_full : nat -> Attempt :=
  fun i =>
    match i with
    | O => {| events := []; outcome := RequestFails "socket hang up" |}
    | S _ => {| events := [bytes 512 1024];
                outcome := Responds None (WriteError "ENOSPC: no space left on device" true) |}
    end.

(** The first attempt reports half of the body and is then rejected;
    the second one starts over and finishes. *)
Definition restarted : nat -> Attempt :=
  fun i =>
    match i with
    | O => {| events := [bytes 50 100]; outcome := RequestFails "aborted" |}
    | S _ => {| events := [bytes 25 100; bytes 100 100];
                outcome := Responds None Finish |}
    end.

(** One attempt that streams the whole body. *)
Definition smooth : nat -> Attempt :=
  fun _ => {| events := [bytes 256 1024; bytes 512 1024; bytes 1024 1024];
              outcome := Responds None Finish |}.

(** The orchestrator with the generic-file extractor registered, a
    server that announces 75000000 bytes, and an empty job table. *)
Definition video_url : string := "https://example.com/video.mp4".

Definition head_net : string -> result Headers :=
  fun _ => Ok {["content-length" := "75000000"]}.

Definition registry : list Extractor.t :=
  MediaDownloader.registerExtractor (HttpExtractor.make head_net) [].

Definition options0 : DownloadOptions :=
  {| outputPath := "./downloads"; opt_format := None; opt_quality := None;
     audioQuality := None |}.

(** The same download, converted to mp3 of the high tier. *)
Definition options_mp3 : DownloadOptions :=
  {| outputPath := "./downloads"; opt_format := Some "mp3"; opt_quality := None;
     audioQuality := Some "high" |}.

Definition transcoder0 : AudioProcessor.Command -> AudioProcessor.Run :=
  fun _ => {| AudioProcessor.percents := [Some 50%Q; Some 100%Q];
              AudioProcessor.ending := AudioProcessor.End |}.

Definition env_of (net : nat -> Attempt) : MediaDownloader.Env :=
  {| MediaDownloader.generateId := "1700000000000_k3j9x2m1q";
     MediaDownloader.net := net;
     MediaDownloader.transcoder := transcoder0 |}.

Definition w0 : MediaDownloader.World :=
  {| MediaDownloader.activeDownloads := ∅;
     MediaDownloader.fs := ∅;
     MediaDownloader.log := [] |}.

(** A job table that holds the job of another call. *)
Definition other_job : DownloadProgress :=
  {| downloadId := "1699999999999_a1b2c3d4e";
     job_url := "https://example.com/other.mp4";
     job_title := "other";
     progress := 40; downloadedBytes := 400; totalBytes := 1000; speed := 0;
     status := downloading; job_error := None |}.

Definition busy : MediaDownloader.World :=
  {| MediaDownloader.activeDownloads := {["1699999999999_a1b2c3d4e" := other_job]};
     MediaDownloader.fs := ∅;
     MediaDownloader.log := [] |}.

End Scenario.

(** * Further parts of the sources *)

(** ** More JavaScript string primitives *)

Module Text.

(** [s.includes(p)] *)
Fixpoint includes (p s : string) : bool :=
  Js.startsWith p s
  || match s with
     | EmptyString => false
     | String _ r => includes p r
     end.

(** The first [n] characters of [s]. *)
Fixpoint take (n : nat) (s : string) : string :=
  match n, s with
  | O, _ => EmptyString
  | S n', String c r => String c (take n' r)
  | S _, EmptyString => EmptyString
  end.

(** Every character of [s] satisfies [p]. *)
Fixpoint all (p : ascii -> bool) (s : string) : bool :=
  match s with
  | EmptyString => true
  | String c r => p c && all p r
  end.

(** The regular-expression classes [\d] and [\w]. *)
Definition digit (c : ascii) : bool := Js.is_digit c.

Definition word (c : ascii) : bool :=
  Url.is_alpha c || Js.is_digit c || Js.ascii_eqb c "_".

End Text.

(** ** The regular expressions of the extractors

    The fragment of JavaScript regular expressions the extractors use,
    with the backtracking semantics of the language: alternatives and
    optional groups are tried in order, quantifiers are greedy, and a
    search takes the leftmost position at which a match exists.  There
    is one capture group per pattern. *)

Module Regex.

Inductive re : Type :=
| Lit (s : string)                  (* a literal run of characters *)
| Seq (a b : re)                    (* [ab] *)
| Alt (a b : re)                    (* [a|b] *)
| Opt (a : re)                      (* [(?:a)?] *)
| Plus (cls : ascii -> bool)        (* [[cls]+] *)
| Rep (n : nat) (cls : ascii -> bool) (* [[cls]{n}] *)
| Cap (a : re).                     (* [(a)], group 1 *)

(** [[cls]+] followed by [k]: the longest run first. *)
Fixpoint plus {R : Type} (cls : ascii -> bool) (s : string)
              (k : string -> option R) : option R :=
  match s with
  | String c r =>
      if cls c then
        match plus cls r k with
        | Some x => Some x
        | None => k r
        end
      else None
  | EmptyString => None
  end.

(** [[cls]{n}] followed by [k]. *)
Fixpoint rep {R : Type} (n : nat) (cls : ascii -> bool) (s : string)
             (k : string -> option R) : option R :=
  match n with
  | O => k s
  | S n' =>
      match s with
      | String c r => if cls c then rep n' cls r k else None
      | EmptyString => None
      end
  end.

(** What was consumed between [s] and its suffix [rest]. *)
Definition taken (s rest : string) : string :=
  Text.take (String.length s - String.length rest) s.

(** Match [r] at the start of [s], then continue with [k] on the rest
    and the capture so far. *)
Fixpoint run {R : Type} (r : re) (s : string) (cap : option string)
             (k : string -> option string -> option R) : option R :=
  match r with
  | Lit p => if Js.startsWith p s then k (Js.drop (String.length p) s) cap else None
  | Seq a b => run a s cap (fun s' cap' => run b s' cap' k)
  | Alt a b =>
      match run a s cap k with
      | Some x => Some x
      | None => run b s cap k
      end
  | Opt a =>
      match run a s cap k with
      | Some x => Some x
      | None => k s cap
      end
  | Plus cls => plus cls s (fun s' => k s' cap)
  | Rep n cls => rep n cls s (fun s' => k s' cap)
  | Cap a => run a s cap (fun s' _ => k s' (Some (taken s s')))
  end.

(** A match at the start of [s]: group 1, if it took part. *)
Definition match_here (r : re) (s : string) : option (option string) :=
  run r s None (fun _ cap => Some cap).

(** [s.match(r)] for a pattern without flags: the leftmost match. *)
Fixpoint search (r : re) (s : string) : option (option string) :=
  match match_here r s with
  | Some m => Some m
  | None =>
      match s with
      | String _ t => search r t
      | EmptyString => None
      end
  end.

(** [r.test(s)] *)
Definition test (r : re) (s : string) : bool :=
  match search r s with
  | Some _ => true
  | None => false
  end.

(** [match && match[1]]: group 1 of the match when it is not empty. *)
Definition group1 (r : re) (s : string) : option string :=
  match search r s with
  | Some (Some g) => if Js.truthy g then Some g else None
  | _ => None
  end.

(** [(?:https?:\/\/)?] *)
Definition scheme : re := Opt (Seq (Lit "http") (Seq (Opt (Lit "s")) (Lit "://"))).

(** The first pattern of [patterns] with a usable group 1, as the
    [for] loops of [extractVideoId] find it. *)
Fixpoint first_group (patterns : list re) (s : string) : option string :=
  match patterns with
  | [] => None
  | r :: rest =>
      match group1 r s with
      | Some g => Some g
      | None => first_group rest s
      end
  end.

End Regex.

(** ** extractors/youtube.ts *)

Module YouTube.

Import Regex.

(** [[a-zA-Z0-9_-]] *)
Definition idchar (c : ascii) : bool := Text.word c || Js.ascii_eqb c "-".

(** [([a-zA-Z0-9_-]{11})] *)
Definition id : re := Cap (Rep 11 idchar).

Definition patterns : list re :=
  [ Seq (Seq scheme (Seq (Opt (Lit "www.")) (Lit "youtube.com/watch?v="))) id;
    Seq (Seq scheme (Seq (Opt (Lit "www.")) (Lit "youtube.com/embed/"))) id;
    Seq (Seq scheme (Lit "youtu.be/")) id;
    Seq (Seq scheme (Seq (Opt (Lit "www.")) (Lit "youtube.com/v/"))) id;
    Seq (Seq scheme (Seq (Opt (Lit "m.")) (Lit "youtube.com/watch?v="))) id ].

Definition test (url : string) : bool :=
  existsb (fun pattern => Regex.test pattern url) patterns.

Definition extractVideoId (url : string) : option string :=
  first_group patterns url.

(** [mapQuality(qualityLabel)] *)
Definition mapQuality (qualityLabel : string) : string :=
  let label := Js.toLowerCase qualityLabel in
  if Text.includes "2160" label || Text.includes "4k" label then "2160p"
  else if Text.includes "1440" label || Text.includes "2k" label then "1440p"
  else if Text.includes "1080" label then "1080p"
  else if Text.includes "720" label then "720p"
  else if Text.includes "480" label then "480p"
  else if Text.includes "360" label then "360p"
  else if Text.includes "240" label then "240p"
  else if Text.includes "144" label then "144p"
  else if Text.includes "high" label then "high"
  else if Text.includes "medium" label then "medium"
  else if Text.includes "low" label then "low"
  else "unknown".

(** [mimeType.match(/\/(\w+)/)]: a slash, then a captured run of word
    characters. *)
Definition subtype : re := Seq (Lit "/") (Cap (Plus Text.word)).

Definition extractFormat (mimeType : string) : string :=
  match group1 subtype mimeType with
  | Some g => g
  | None => "unknown"
  end.

End YouTube.

(** ** extractors/tiktok.ts *)

Module TikTok.

Import Regex.

(** [[\w.-]] *)
Definition handle (c : ascii) : bool :=
  Text.word c || Js.ascii_eqb c "." || Js.ascii_eqb c "-".

(** [[\w\d]] *)
Definition token (c : ascii) : bool := Text.word c || Text.digit c.

Definition patterns : list re :=
  [ Seq (Seq scheme (Seq (Opt (Lit "www."))
           (Seq (Lit "tiktok.com/@") (Seq (Plus handle) (Lit "/video/")))))
        (Cap (Plus Text.digit));
    Seq (Seq scheme (Seq (Alt (Lit "vm") (Lit "vt")) (Lit ".tiktok.com/")))
        (Cap (Plus token));
    Seq (Seq scheme (Seq (Opt (Lit "www.")) (Lit "tiktok.com/t/")))
        (Cap (Plus token));
    Seq (Seq scheme (Seq (Opt (Lit "m."))
           (Seq (Lit "tiktok.com/@") (Seq (Plus handle) (Lit "/video/")))))
        (Cap (Plus Text.digit)) ].

Definition test (url : string) : bool :=
  existsb (fun pattern => Regex.test pattern url) patterns.

Definition extractVideoId (url : string) : option string :=
  first_group patterns url.

(** [mapQuality(quality)] *)
Definition mapQuality (quality : string) : string :=
  let q := Js.toLowerCase quality in
  if Text.includes "1080" q || Text.includes "hd" q then "1080p"
  else if Text.includes "720" q then "720p"
  else if Text.includes "480" q then "480p"
  else if Text.includes "360" q then "360p"
  else if Text.includes "240" q then "240p"
  else if Text.includes "high" q then "high"
  else if Text.includes "medium" q || Text.includes "normal" q then "medium"
  else if Text.includes "low" q then "low"
  else "unknown".

End TikTok.

(** ** The base class of the platform extractors (extractors/base.ts) *)

Module BaseExtractor.

(** [normalizeUrl(url)] *)
Definition normalizeUrl (url : string) : string :=
  if negb (Js.startsWith "http://" url) && negb (Js.startsWith "https://" url)
  then "https://" +:+ url
  else url.

(** What [retry] does that can be seen from outside. *)
Inductive Step : Type :=
| Called (attempt : nat)     (* [fn()] while [attempt] has this value *)
| Slept (ms : Z).            (* [this.sleep(delay)] *)

Section Retry.

Variable A : Type.

(** The outcome of the call of [fn] made while [attempt] has a given
    value. *)
Variable fn : nat -> result A.
Variable maxRetries : nat.
Variable baseDelay : Z.

(** The [for (attempt = 0; attempt <= maxRetries; attempt++)] loop;
    [fuel] bounds its iterations. *)
Fixpoint retry_loop (fuel attempt : nat) (lastError : string)
                    (trace : list Step)
  : option (result A * list Step) :=
  match fuel with
  | O => None
  | S fuel' =>
      if (attempt <=? maxRetries)%nat then
        let trace := (trace ++ [Called attempt])%list in
        match fn attempt with
        | Ok a => Some (Ok a, trace)
        | Throw m =>
            if (attempt =? maxRetries)%nat then Some (Throw m, trace)
            else
              let delay := (baseDelay * 2 ^ Z.of_nat attempt)%Z in
              retry_loop fuel' (S attempt) m (trace ++ [Slept delay])%list
        end
      else Some (Throw lastError, trace)
  end.

(** [retry(fn, maxRetries, baseDelay)] *)
Definition retry : option (result A * list Step) :=
  retry_loop (S (S maxRetries)) 0 "undefined" [].

End Retry.

End BaseExtractor.

(** ** The progress bar of the command line (cli/index.ts) *)

Module Cli.

(** The two glyphs of the bar: the full block and the light shade. *)
Inductive Cell : Type :=
| Filled
| Blank.

(** [glyph.repeat(count)]: a [RangeError] for a negative count.  (The
    engine also throws it for a result longer than its longest string,
    some 2^28 characters; that limit is not modelled.) *)
Definition repeat_cell (c : Cell) (count : Z) : result (list Cell) :=
  if (count <? 0)%Z then Throw ("Invalid count value: " +:+ pretty count)
  else Ok (replicate (Z.to_nat count) c).

(** [Math.round((progress / 100) * width)], in double precision
    ([filled_cells 58 25] is 14, the product being
    14.499999999999998). *)
Definition filled_cells (progress width : Z) : Z :=
  Double.Math_round
    (Double.mul (Double.div (Double.of_Z progress) 100) (Double.of_Z width)).

(** [createProgressBar(progress, width = 30)] *)
Definition createProgressBar (progress width : Z) : result (list Cell) :=
  let filled := filled_cells progress width in
  let empty := (width - filled)%Z in
  match repeat_cell Filled filled with
  | Throw m => Throw m
  | Ok a =>
      match repeat_cell Blank empty with
      | Throw m => Throw m
      | Ok b => Ok (a ++ b)%list
      end
  end.

(** The bar [displayProgress(progress)] draws: thirty cells wide. *)
Definition displayProgress_bar (p : DownloadProgress) : result (list Cell) :=
  createProgressBar (progress p) 30.

End Cli.

(** ** Start-up (core/index.ts and cli/index.ts) *)

Module Startup.

(** [getAllExtractors().forEach(extractor =>
    mediaDownloader.registerExtractor(extractor))], which the core
    module runs when it is loaded and the command line runs again on
    the same orchestrator. *)
Definition registerAll (extractors registry : list Extractor.t)
  : list Extractor.t :=
  fold_left (fun registry extractor =>
               MediaDownloader.registerExtractor extractor registry)
            extractors registry.

End Startup.

(** ** The request headers of the download engine (http/client.ts) *)

Module RequestHeaders.

(** The headers sent with every GET. *)
Definition defaults (userAgent : string) : Headers :=
  {[ "User-Agent" := userAgent;
     "Accept" := "*/*";
     "Accept-Language" := "en-US,en;q=0.9";
     "Accept-Encoding" := "gzip, deflate, br";
     "DNT" := "1";
     "Connection" := "keep-alive";
     "Upgrade-Insecure-Requests" := "1" ]}.

(** [platformHeaders], by what the URL includes. *)
Definition platformHeaders (url : string) : Headers :=
  if Text.includes "tiktok.com" url then
    {[ "Referer" := "https://www.tiktok.com/";
       "Origin" := "https://www.tiktok.com";
       "Sec-Fetch-Dest" := "video";
       "Sec-Fetch-Mode" := "cors";
       "Sec-Fetch-Site" := "cross-site" ]}
  else if Text.includes "youtube.com" url || Text.includes "googlevideo.com" url then
    {[ "Referer" := "https://www.youtube.com/";
       "Origin" := "https://www.youtube.com" ]}
  else ∅.

(** The [headers] object of the request: the defaults, then the
    platform headers, then the caller's spread over them, later
    entries replacing earlier ones. *)
Definition requestHeaders (userAgent url : string) (headers : Headers) : Headers :=
  headers ∪ (platformHeaders url ∪ defaults userAgent).

End RequestHeaders.

(** ** The URL signature of the TikTok extractor (extractors/tiktok.ts) *)

Module Signature.

(** [ToInt32]: the signed 32-bit integer congruent to [z]. *)
Definition to_int32 (z : Z) : Z :=
  let m := (z mod 2 ^ 32)%Z in
  if (m <? 2 ^ 31)%Z then m else (m - 2 ^ 32)%Z.

(** [baseString.charCodeAt(i)] *)
Definition charCode (c : ascii) : Z := Z.of_nat (nat_of_ascii c).

(** One round of the loop: [hash = ((hash << 5) - hash) + char;
    hash = hash & hash]. *)
Definition round (hash : Z) (c : ascii) : Z :=
  to_int32 (to_int32 (hash * 32) - hash + charCode c).

Definition hash_of (baseString : string) : Z :=
  fold_left round (list_ascii_of_string baseString) 0%Z.

(** [n.toString(16)] for a non-negative integer. *)
Definition hex (n : Z) : string :=
  match n with
  | Zpos p => HexString.Raw.of_pos p ""
  | _ => "0"
  end.

(** [generateUrlSignature(url, timestamp)] *)
Definition generateUrlSignature (url : string) (timestamp : Z) : string :=
  hex (Z.abs (hash_of (url +:+ pretty timestamp))).

End Signature.

(** ** The player API of the YouTube extractor (extractors/youtube.ts) *)

Module YouTubeApi.

(** An entry of [streamingData.formats] or [adaptiveFormats], with the
    fields [parseStreamingData] inspects; those it copies as they are
    (bitrate, fps, width, height and the audio fields) are left out,
    [itag] standing for them. *)
Module Format.

Record t : Type := mk {
  itag : Z;
  url : option string;
  mimeType : string;
  qualityLabel : option string;
  quality : string;
  contentLength : option string
}.

End Format.

Record StreamingData : Type := mkStreamingData {
  formats : option (list Format.t);
  adaptiveFormats : option (list Format.t)
}.

(** [thumbnails] holds the URLs of [thumbnail.thumbnails], none when
    that path is absent. *)
Record VideoDetails : Type := mkVideoDetails {
  videoId : string;
  vd_title : string;
  lengthSeconds : string;
  channelId : string;
  shortDescription : string;
  thumbnails : list string;
  author : string;
  viewCount : string
}.

Record PlayerResponse : Type := mkPlayerResponse {
  videoDetails : option VideoDetails;
  streamingData : option StreamingData
}.

(** A stream of the result. *)
Module Stream.

Record t : Type := mk {
  url : string;
  quality : string;
  format : string;
  fileSize : option Js.num;
  hasVideo : bool;
  hasAudio : bool;
  itag : Z
}.

End Stream.

Module MediaInfo.

Record t : Type := mk {
  id : string;
  title : string;
  description : string;
  duration : Z;
  uploader : string;
  uploaderUrl : string;
  viewCount : Z;
  thumbnail : string;
  originalUrl : string;
  extractorKey : string;
  streams : list Stream.t
}.

End MediaInfo.

(** The keys of [INNERTUBE_CLIENTS]. *)
Definition INNERTUBE_CLIENTS : list string :=
  ["web"; "web_safari"; "android"; "ios"; "mweb"].

(** What the POST to the player endpoint comes to: [fetch] rejects
    ([text] is the error as the template literal prints it), the
    response is not ok, its body is not JSON, or it is a player
    response. *)
Inductive Fetch : Type :=
| Rejects (text : string)
| NotOk (status : Z) (statusText : string)
| BadJson (text : string)
| Json (r : PlayerResponse).

(** [callInnerTubeAPI('player', videoId, clientName)], over the answers
    the network gives each client. *)
Definition callInnerTubeAPI (net : string -> Fetch) (clientName : string)
  : result PlayerResponse :=
  if existsb (String.eqb clientName) INNERTUBE_CLIENTS then
    match net clientName with
    | Rejects text | BadJson text =>
        Throw ("Failed to call InnerTube API: " +:+ text)
    | NotOk status statusText =>
        Throw ("Failed to call InnerTube API: "
               +:+ "Error: HTTP " +:+ pretty status +:+ ": " +:+ statusText)
    | Json r => Ok r
    end
  else Throw ("Unknown client: " +:+ clientName).

(** The body of the two loops of [parseStreamingData]: [None] for a
    format that is skipped. *)
Definition stream_of_format (adaptive : bool) (f : Format.t) : option Stream.t :=
  match Format.url f with
  | Some u =>
      if Js.truthy u then
        Some {| Stream.url := u;
                Stream.quality :=
                  YouTube.mapQuality
                    (match Format.qualityLabel f with
                     | Some l => Js.or_else l (Format.quality f)
                     | None => Format.quality f
                     end);
                Stream.format := YouTube.extractFormat (Format.mimeType f);
                Stream.fileSize :=
                  match Format.contentLength f with
                  | Some c => if Js.truthy c then Some (Js.parseInt c) else None
                  | None => None
                  end;
                Stream.hasVideo :=
                  if adaptive then Js.startsWith "video/" (Format.mimeType f)
                  else true;
                Stream.hasAudio :=
                  if adaptive then Js.startsWith "audio/" (Format.mimeType f)
                  else true;
                Stream.itag := Format.itag f |}
      else None
  | None => None
  end.

Definition parseStreamingData (streamingData : option StreamingData)
  : list Stream.t :=
  match streamingData with
  | None => []
  | Some sd =>
      omap (stream_of_format false) (default [] (formats sd))
      ++ omap (stream_of_format true) (default [] (adaptiveFormats sd))
  end.

(** [parseInt(s) || 0] *)
Definition parseInt_or_0 (s : string) : Z :=
  match Js.parseInt s with
  | Js.Int z => z
  | Js.NaN => 0%Z
  end.

(** The object [extract] and [extractWithClient] return. *)
Definition info_of (videoId url : string) (videoDetails : VideoDetails)
                   (streams : list Stream.t) : MediaInfo.t :=
  {| MediaInfo.id := videoId;
     MediaInfo.title := vd_title videoDetails;
     MediaInfo.description := Js.or_else (shortDescription videoDetails) "";
     MediaInfo.duration := parseInt_or_0 (lengthSeconds videoDetails);
     MediaInfo.uploader := author videoDetails;
     MediaInfo.uploaderUrl :=
       "https://www.youtube.com/channel/" +:+ channelId videoDetails;
     MediaInfo.viewCount := parseInt_or_0 (viewCount videoDetails);
     MediaInfo.thumbnail :=
       match thumbnails videoDetails with
       | t :: _ => Js.or_else t ""
       | [] => ""
       end;
     MediaInfo.originalUrl := url;
     MediaInfo.extractorKey := "youtube";
     MediaInfo.streams := streams |}.

(** [extractWithClient(url, clientName)] *)
Definition extractWithClient (net : string -> Fetch) (url clientName : string)
  : result MediaInfo.t :=
  match YouTube.extractVideoId url with
  | None => Throw "Invalid YouTube URL: Could not extract video ID"
  | Some videoId =>
      match callInnerTubeAPI net clientName with
      | Throw m => Throw m
      | Ok playerResponse =>
          match videoDetails playerResponse with
          | None => Throw "No video details found in response"
          | Some vd =>
              Ok (info_of videoId url vd
                    (parseStreamingData (streamingData playerResponse)))
          end
      end
  end.

(** The [try] block of the loop of [extract]. *)
Definition attempt (net : string -> Fetch) (videoId url clientName : string)
  : result MediaInfo.t :=
  match callInnerTubeAPI net clientName with
  | Throw m => Throw m
  | Ok playerResponse =>
      match videoDetails playerResponse with
      | None => Throw "No video details found in response"
      | Some vd =>
          let streams := parseStreamingData (streamingData playerResponse) in
          if (List.length streams =? 0)%nat then Throw "No streams found"
          else Ok (info_of videoId url vd streams)
      end
  end.

Definition clientOrder : list string := ["web"; "android"; "ios"; "mweb"].

(** The loop over the clients; [lastError] is the message of the last
    error caught. *)
Fixpoint try_clients (net : string -> Fetch) (videoId url : string)
                     (clients : list string) (lastError : option string)
  : result MediaInfo.t :=
  match clients with
  | [] =>
      Throw ("Failed to extract video with all clients. Last error: "
             +:+ default "undefined" lastError)
  | clientName :: rest =>
      match attempt net videoId url clientName with
      | Ok info => Ok info
      | Throw m => try_clients net videoId url rest (Some m)
      end
  end.

(** [extract(url)] *)
Definition extract (net : string -> Fetch) (url : string) : result MediaInfo.t :=
  match YouTube.extractVideoId url with
  | None => Throw "Invalid YouTube URL: Could not extract video ID"
  | Some videoId => try_clients net videoId url clientOrder None
  end.

(** A stream and a result as the orchestrator reads them: by the
    fields of its own interfaces. *)
Definition as_StreamInfo (s : Stream.t) : StreamInfo :=
  {| url := Stream.url s; format := Stream.format s;
     quality := Stream.quality s; fileSize := Stream.fileSize s;
     codec := None; headers := None |}.

Definition as_ExtractResult (info : MediaInfo.t) : ExtractResult :=
  {| title := MediaInfo.title info;
     description := Some (MediaInfo.description info);
     duration := Some (MediaInfo.duration info);
     thumbnail := Some (MediaInfo.thumbnail info);
     streams := map as_StreamInfo (MediaInfo.streams info);
     subtitles := None;
     originalUrl := MediaInfo.originalUrl info |}.

(** The extractor as registered. *)
Definition make (net : string -> Fetch) : Extractor.t :=
  Extractor.mk "YouTube" YouTube.test
    (fun url => match extract net url with
                | Ok info => Ok (as_ExtractResult info)
                | Throw m => Throw m
                end).

End YouTubeApi.

(** ** The data sources of the TikTok extractor (extractors/tiktok.ts) *)

Module TikTokApi.

(** The video data, with the fields [parseVideoData] and [extract]
    inspect.  A string field that is absent is the empty string where
    the code only tests the field for truthiness; [uniqueId], which it
    also prints, is optional. *)
Record Video : Type := mkVideo {
  playAddr : string;
  downloadAddr : string;
  v_format : string;
  videoQuality : string;
  definition : string;
  codecType : option string;
  v_duration : Z;
  cover : string;
  originCover : string
}.

Record Music : Type := mkMusic { playUrl : string }.

Record Author : Type := mkAuthor { nickname : string; uniqueId : option string }.

Record VideoData : Type := mkVideoData {
  vd_id : string;
  desc : string;
  video : option Video;
  music : option Music;
  author : option Author;
  playCount : option Z
}.

(** A stream of the result; the fields copied from the video as they
    are (bitrate, resolution) are left out, and a flag that is absent
    is [false]. *)
Module Stream.

Record t : Type := mk {
  url : string;
  quality : string;
  format : string;
  codec : option string;
  hasVideo : bool;
  hasAudio : bool;
  isDownloadUrl : bool;
  isAudioOnly : bool;
  headers : Headers
}.

End Stream.

Module MediaInfo.

Record t : Type := mk {
  id : string;
  title : string;
  description : string;
  duration : Z;
  uploader : string;
  uploaderUrl : string;
  viewCount : Z;
  thumbnail : string;
  originalUrl : string;
  extractorKey : string;
  streams : list Stream.t
}.

End MediaInfo.

(** [s] between double quotes. *)
Definition quoted (s : string) : string :=
  String Probe.dquote (s +:+ String Probe.dquote "").

Definition chrome : string :=
  "Mozilla/5.0 (Windows NT 10.0; Win64; x64) AppleWebKit/537.36 (KHTML, like Gecko) Chrome/120.0.0.0 Safari/537.36".

(** [downloadHeaders]; the session cookies are random. *)
Definition downloadHeaders (sessionCookies : string) : Headers :=
  <[ "Range" := "bytes=0-" ]>
  {[ "Referer" := "https://www.tiktok.com/";
     "User-Agent" := chrome;
     "Accept" := "*/*";
     "Accept-Language" := "en-US,en;q=0.9";
     "Accept-Encoding" := "gzip, deflate, br";
     "Origin" := "https://www.tiktok.com";
     "Sec-Ch-Ua" := quoted "Not_A Brand" +:+ ";v=" +:+ quoted "8" +:+ ", "
                    +:+ quoted "Chromium" +:+ ";v=" +:+ quoted "120" +:+ ", "
                    +:+ quoted "Google Chrome" +:+ ";v=" +:+ quoted "120";
     "Sec-Ch-Ua-Mobile" := "?0";
     "Sec-Ch-Ua-Platform" := quoted "Windows";
     "Sec-Fetch-Dest" := "video";
     "Sec-Fetch-Mode" := "cors";
     "Sec-Fetch-Site" := "cross-site";
     "Cookie" := sessionCookies ]}.

(** What the extractor gets from outside: the location a short link
    redirects to, the video data each of the three sources yields (none
    when the source fails in any way), the signed form of a media URL,
    and the session cookies. *)
Record ApiResponse : Type := mkApiResponse {
  aweme_details : list VideoData;
  itemStruct : option VideoData
}.

Record Net : Type := mkNet {
  redirect : string -> option string;
  mobile : string -> option VideoData;
  webpage : string -> option VideoData;
  desktop : string -> option ApiResponse;
  processVideoUrl : string -> string;
  sessionCookies : string
}.

Definition video_stream (net : Net) (v : Video) (address : string)
                        (download : bool) : Stream.t :=
  {| Stream.url := processVideoUrl net address;
     Stream.quality :=
       TikTok.mapQuality
         (Js.or_else (definition v) (Js.or_else (videoQuality v) "unknown"));
     Stream.format := Js.or_else (v_format v) "mp4";
     Stream.codec := codecType v;
     Stream.hasVideo := true;
     Stream.hasAudio := true;
     Stream.isDownloadUrl := download;
     Stream.isAudioOnly := false;
     Stream.headers := downloadHeaders (sessionCookies net) |}.

Definition music_stream (net : Net) (m : Music) : Stream.t :=
  {| Stream.url := playUrl m;
     Stream.quality := "medium";
     Stream.format := "m4a";
     Stream.codec := None;
     Stream.hasVideo := false;
     Stream.hasAudio := true;
     Stream.isDownloadUrl := false;
     Stream.isAudioOnly := true;
     Stream.headers := downloadHeaders (sessionCookies net) |}.

(** [parseVideoData(videoData, originalUrl)] *)
Definition parseVideoData (net : Net) (videoData : VideoData) : list Stream.t :=
  match video videoData with
  | Some v =>
      (if Js.truthy (playAddr v) then [video_stream net v (playAddr v) false]
       else [])
      ++ (if Js.truthy (downloadAddr v)
             && negb (String.eqb (downloadAddr v) (playAddr v))
          then [video_stream net v (downloadAddr v) true]
          else [])
  | None => []
  end
  ++ match music videoData with
     | Some m => if Js.truthy (playUrl m) then [music_stream net m] else []
     | None => []
     end.

(** The sources [extract] turns to, in the order of the calls. *)
Inductive Method : Type :=
| Resolve
| Mobile
| Webpage
| Desktop.

Definition isShort (url : string) : bool :=
  Text.includes "vm.tiktok.com" url || Text.includes "vt.tiktok.com" url
  || Text.includes "/t/" url.

(** [resolveShortUrl(url)] *)
Definition resolveShortUrl (net : Net) (url : string) : string :=
  match redirect net url with
  | Some location => if Js.truthy location then location else url
  | None => url
  end.

Definition info_of (url : string) (videoData : VideoData)
                   (streams : list Stream.t) : MediaInfo.t :=
  {| MediaInfo.id := vd_id videoData;
     MediaInfo.title := Js.or_else (desc videoData) "TikTok Video";
     MediaInfo.description := Js.or_else (desc videoData) "";
     MediaInfo.duration :=
       match video videoData with
       | Some v => v_duration v
       | None => 0%Z
       end;
     MediaInfo.uploader :=
       match author videoData with
       | Some a =>
           Js.or_else (nickname a)
             (match uniqueId a with
              | Some u => Js.or_else u "Unknown"
              | None => "Unknown"
              end)
       | None => "Unknown"
       end;
     MediaInfo.uploaderUrl :=
       "https://www.tiktok.com/@"
       +:+ match author videoData with
           | Some a => default "undefined" (uniqueId a)
           | None => "undefined"
           end;
     MediaInfo.viewCount := default 0%Z (playCount videoData);
     MediaInfo.thumbnail :=
       match video videoData with
       | Some v => Js.or_else (cover v) (Js.or_else (originCover v) "")
       | None => ""
       end;
     MediaInfo.originalUrl := url;
     MediaInfo.extractorKey := "tiktok";
     MediaInfo.streams := streams |}.

(** The three sources, tried until one yields video data; with the
    sources that were asked. *)
Definition videoData_of (net : Net) (videoId resolvedUrl : string)
  : option VideoData * list Method :=
  match mobile net videoId with
  | Some d => (Some d, [Mobile])
  | None =>
      match webpage net resolvedUrl with
      | Some d => (Some d, [Mobile; Webpage])
      | None =>
          (match desktop net videoId with
           | Some apiResponse =>
               match aweme_details apiResponse with
               | d :: _ => Some d
               | [] => itemStruct apiResponse
               end
           | None => None
           end,
           [Mobile; Webpage; Desktop])
      end
  end.

(** [extract(url)], with the sources it asked. *)
Definition extract (net : Net) (url : string)
  : result MediaInfo.t * list Method :=
  let '(resolvedUrl, asked) :=
    if isShort url then (resolveShortUrl net url, [Resolve]) else (url, []) in
  match TikTok.extractVideoId resolvedUrl with
  | None => (Throw "Invalid TikTok URL: Could not extract video ID", asked)
  | Some videoId =>
      let '(videoData, methods) := videoData_of net videoId resolvedUrl in
      match videoData with
      | None =>
          (Throw "Failed to extract video data from all available methods (mobile API, webpage, desktop API)",
           (asked ++ methods)%list)
      | Some d =>
          let streams := parseVideoData net d in
          if (List.length streams =? 0)%nat
          then (Throw "No streams found", (asked ++ methods)%list)
          else (Ok (info_of url d streams), (asked ++ methods)%list)
      end
  end.

Definition as_StreamInfo (s : Stream.t) : StreamInfo :=
  {| url := Stream.url s; format := Stream.format s;
     quality := Stream.quality s; fileSize := None;
     codec := Stream.codec s; headers := Some (Stream.headers s) |}.

End TikTokApi.

(** ** Sample data for the further statements *)

Module Samples.

Definition clip : TikTokApi.VideoData :=
  {| TikTokApi.vd_id := "7318518857994389254";
     TikTokApi.desc := "A walk in the park";
     TikTokApi.video :=
       Some {| TikTokApi.playAddr := "https://v16.tiktokcdn.com/play/1";
               TikTokApi.downloadAddr := "https://v16.tiktokcdn.com/download/1";
               TikTokApi.v_format := "mp4";
               TikTokApi.videoQuality := "normal";
               TikTokApi.definition := "540p";
               TikTokApi.codecType := Some "h264";
               TikTokApi.v_duration := 15;
               TikTokApi.cover := "https://p16.tiktokcdn.com/cover/1";
               TikTokApi.originCover := "" |};
     TikTokApi.music :=
       Some {| TikTokApi.playUrl := "https://sf16.tiktokcdn.com/music/1" |};
     TikTokApi.author := None;
     TikTokApi.playCount := Some 1200%Z |}.

(** The mobile source fails and the page of the video has the data. *)
Definition tiktok_net : TikTokApi.Net :=
  {| TikTokApi.redirect := fun _ => None;
     TikTokApi.mobile := fun _ => None;
     TikTokApi.webpage := fun _ => Some clip;
     TikTokApi.desktop := fun _ => None;
     TikTokApi.processVideoUrl := fun u => u +:+ "?_ts=1700000000";
     TikTokApi.sessionCookies := "sessionid=0" |}.

End Samples.

(** ** Vocabulary of the further statements *)

Module Vocabulary.

(** [rest] is what is left of [s] after some prefix. *)
Definition suffix (rest s : string) : Prop := exists pre, s = pre +:+ rest.

(** A pattern whose matches all capture a non-empty group 1 that
    satisfies [P] and occurs in the subject. *)
Definition captures (P : string -> Prop) (r : Regex.re) : Prop :=
  forall s m, Regex.match_here r s = Some m ->
              exists g, m = Some g /\ g <> "" /\ P g /\ Text.includes g s = true.

(** [rest] does not continue a run of [cls]. *)
Definition stops (cls : ascii -> bool) (rest : string) : Prop :=
  match rest with
  | EmptyString => True
  | String c _ => cls c = false
  end.

(** The labels [mapQuality] of the YouTube extractor can return. *)
Definition youtube_labels : list string :=
  ["2160p"; "1440p"; "1080p"; "720p"; "480p"; "360p"; "240p"; "144p";
   "high"; "medium"; "low"; "unknown"].

(** The labels [mapQuality] of the TikTok extractor can return. *)
Definition tiktok_labels : list string :=
  ["1080p"; "720p"; "480p"; "360p"; "240p"; "high"; "medium"; "low"; "unknown"].

(** The calls and waits of [retry] when its first [k] calls fail. *)
Definition backoff (baseDelay : Z) (k : nat) : list BaseExtractor.Step :=
  (flat_map (fun i => [BaseExtractor.Called i;
                       BaseExtractor.Slept (baseDelay * 2 ^ Z.of_nat i)])
            (seq 0 k)
   ++ [BaseExtractor.Called k])%list.

(** The time spent waiting in a trace of [retry]. *)
Definition slept (trace : list BaseExtractor.Step) : Z :=
  fold_right (fun e acc => match e with
                           | BaseExtractor.Slept ms => (ms + acc)%Z
                           | BaseExtractor.Called _ => acc
                           end) 0%Z trace.

(** The time spent waiting in a log of the download engine. *)
Definition waited (l : list Effect) : Z :=
  fold_right (fun e acc => match e with
                           | Sleep ms => (ms + acc)%Z
                           | _ => acc
                           end) 0%Z l.

(** The polynomial hash of a string: the value of its character codes
    read as digits in base 31. *)
Definition poly (s : string) : Z :=
  fold_left (fun h c => (31 * h + Signature.charCode c)%Z)
            (list_ascii_of_string s) 0%Z.

(** The audio format [download] converts to, if any. *)
Definition audio_target (options : DownloadOptions) : option string :=
  match opt_format options with
  | Some f =>
      if Js.truthy f && AudioProcessor.isAudioFormat f then Some f else None
  | None => None
  end.

(** The path [download] hands to the engine. *)
Definition target_path (options : DownloadOptions) (er : ExtractResult)
                       (sel : StreamInfo) : string :=
  outputPath options +:+ "/"
  +:+ MediaDownloader.generateFilename (title er) (format sel).

(** The conversion [download] asks of the audio processor. *)
Definition conversion (options : DownloadOptions) (filePath f : string)
  : AudioProcessor.AudioConversionOptions :=
  {| AudioProcessor.inputPath := filePath;
     AudioProcessor.outputPath := AudioProcessor.generateAudioFilename filePath f;
     AudioProcessor.format := f;
     AudioProcessor.quality := audioQuality options |}.

(** The job as [download] registers it. *)
Definition registered (env : MediaDownloader.Env) (url : string)
                      (er : ExtractResult) : DownloadProgress :=
  {| downloadId := MediaDownloader.generateId env; job_url := url;
     job_title := title er;
     progress := 0; downloadedBytes := 0; totalBytes := 0;
     speed := 0; status := pending; job_error := None |}.

(** The call of the engine [download] makes once a stream is chosen:
    the job is downloading, and its registration and the transition
    have been notified. *)
Definition engine_call (env : MediaDownloader.Env) (url : string)
                       (options : DownloadOptions) (er : ExtractResult)
                       (sel : StreamInfo) (w : MediaDownloader.World)
  : option (HttpClient.Settled * HttpClient.EngineState) :=
  HttpClient.downloadFile (MediaDownloader.net env)
    (target_path options er sel) 3
    {| HttpClient.job := set_status downloading (registered env url er);
       HttpClient.fs := MediaDownloader.fs w;
       HttpClient.log :=
         ((MediaDownloader.log w ++ [Notify (registered env url er)])
          ++ [Notify (set_status downloading (registered env url er))])%list |}.

(** The character [c] does not occur in [s]. *)
Definition free_of (c : ascii) (s : string) : bool :=
  Text.all (fun x => negb (Js.ascii_eqb x c)) s.

(** A letter or a digit. *)
Definition alnum (c : ascii) : bool := Url.is_alpha c || Js.is_digit c.

(** The effects of the audio conversion: the start of the transcoder
    and the percentages handed to [onAudioConversion], in order. *)
Definition audio_of (l : list Effect) : list Effect :=
  List.filter (fun e => match e with
                        | Transcode _ | AudioProgress _ => true
                        | _ => false
                        end) l.

(** What the conversion [download] asks for once the engine has
    resolved with [filePath] lets its environment see: nothing when no
    audio format is asked for or the set-up throws; otherwise the start
    of the transcoder on the command of the conversion, then one call
    of [onAudioConversion] for every progress event whose percentage is
    a number other than zero, with that percentage rounded. *)
Definition conversion_effects (env : MediaDownloader.Env)
                              (options : DownloadOptions) (filePath : string)
  : list Effect :=
  match audio_target options with
  | Some f =>
      let c := AudioProcessor.command (conversion options filePath f) in
      let run := MediaDownloader.transcoder env c in
      match AudioProcessor.ending run with
      | AudioProcessor.Thrown _ => []
      | _ =>
          Transcode c
          :: omap (fun percent =>
                     match percent with
                     | Some q =>
                         if Qeq_bool q 0 then None
                         else Some (AudioProgress (Double.Math_round q))
                     | None => None
                     end)
                  (AudioProcessor.percents run)
      end
  | None => []
  end.

(** Effects of the conversion phase and after: no request, no wait, no
    notification of a job that is downloading, nothing of the audio
    conversion. *)
Definition quiet (l : list Effect) : Prop :=
  audio_of l = [] /\ Trace.schedule l = [] /\ Trace.downloading_percents l = [].

End Vocabulary.

(** * Properties *)

(** ** Double precision arithmetic *)

Module DoubleSpec.

Import Double.

Local Open Scope Q_scope.

Lemma rne_bounds x : (Qfloor x <= rne x <= Qfloor x + 1)%Z.
Proof.
  unfold rne.
  destruct (Qcompare (x - inject_Z (Qfloor x)) (1 # 2));
    try destruct (Z.even (Qfloor x)); lia.
Qed.

Lemma rne_inject z : rne (inject_Z z) = z.
Proof.
  unfold rne. rewrite Qfloor_Z.
  destruct (Qcompare_spec (inject_Z z - inject_Z z) (1 # 2));
    [exfalso; lra|reflexivity|exfalso; lra].
Qed.

Lemma rne_comp x y : x == y -> rne x = rne y.
Proof.
  intros H. unfold rne. rewrite (Qfloor_comp _ _ H).
  assert (x - inject_Z (Qfloor y) == y - inject_Z (Qfloor y)) as E by lra.
  rewrite (Qcompare_comp _ _ E _ _ (Qeq_refl _)). reflexivity.
Qed.

Lemma rne_mono x y : x <= y -> (rne x <= rne y)%Z.
Proof.
  intros H.
  pose proof (Qfloor_resp_le _ _ H) as Hf.
  destruct (Z.eq_dec (Qfloor x) (Qfloor y)) as [E|N].
  - unfold rne. rewrite <- E.
    destruct (Qcompare_spec (x - inject_Z (Qfloor x)) (1 # 2)) as [Hx|Hx|Hx];
      destruct (Qcompare_spec (y - inject_Z (Qfloor x)) (1 # 2)) as [Hy|Hy|Hy];
      try destruct (Z.even (Qfloor x)); try lia; exfalso; lra.
  - pose proof (rne_bounds x). pose proof (rne_bounds y). lia.
Qed.

Lemma pow2_pos k : 0 < 2 ^ k.
Proof. apply Qpower_0_lt. reflexivity. Qed.

Lemma pow2_plus a b : 2 ^ (a + b) == 2 ^ a * 2 ^ b.
Proof. apply Qpower_plus. discriminate. Qed.

Lemma pow2_le a b : (a <= b)%Z -> 2 ^ a <= 2 ^ b.
Proof. intros H. apply Qpower_le_compat_l; [exact H|discriminate]. Qed.

Lemma pow2_lt_inv a b : 2 ^ a < 2 ^ b -> (a < b)%Z.
Proof. intros H. apply (Qpower_lt_compat_l_inv 2); [exact H|reflexivity]. Qed.

Lemma pow2_succ a : 2 ^ (a + 1) == 2 * 2 ^ a.
Proof. rewrite pow2_plus. change (2 ^ 1) with 2. ring. Qed.

Lemma pow2_inject a : (0 <= a)%Z -> inject_Z (2 ^ a) == 2 ^ a.
Proof. intros H. apply (Zpower_Qpower 2 a H). Qed.

Lemma log2_bounds (n : Z) :
  (0 < n)%Z -> 2 ^ Z.log2 n <= inject_Z n < 2 ^ (Z.log2 n + 1).
Proof.
  intros H. destruct (Z.log2_spec n H) as [L U].
  pose proof (Z.log2_nonneg n) as P.
  rewrite <- !pow2_inject by lia. rewrite <- Zle_Qle, <- Zlt_Qlt.
  replace (Z.log2 n + 1)%Z with (Z.succ (Z.log2 n)) by lia. auto.
Qed.

Lemma ilog2_spec x : 0 < x -> 2 ^ ilog2 x <= x < 2 ^ (ilog2 x + 1).
Proof.
  intros H. unfold ilog2.
  set (a := Z.log2 (Qnum x)). set (b := Z.log2 (Z.pos (Qden x))).
  assert (0 < Qnum x)%Z as Hn.
  { destruct x as [n d]. unfold Qlt in H. simpl in *. lia. }
  destruct (log2_bounds (Qnum x) Hn) as [La Ua]. fold a in La, Ua.
  destruct (log2_bounds (Z.pos (Qden x)) eq_refl) as [Lb Ub]. fold b in Lb, Ub.
  assert (x == inject_Z (Qnum x) / inject_Z (Z.pos (Qden x))) as Ex.
  { destruct x as [n d]. apply Qmake_Qdiv. }
  assert (0 < inject_Z (Z.pos (Qden x))) as Hd by reflexivity.
  set (N := inject_Z (Qnum x)) in *. set (D := inject_Z (Z.pos (Qden x))) in *.
  pose proof (pow2_pos a) as Pa. pose proof (pow2_pos b) as Pb.
  pose proof (pow2_pos (a - b)) as Pab.
  assert (2 ^ a == 2 ^ (a - b) * 2 ^ b) as Eab.
  { rewrite <- pow2_plus. replace (a - b + b)%Z with a by lia. reflexivity. }
  rewrite pow2_succ in Ua, Ub.
  assert (x * D == N) as ExD.
  { rewrite Ex. field. intros E. rewrite E in Hd. discriminate. }
  destruct (Qle_bool (2 ^ (a - b)) x) eqn:Q.
  - apply Qle_bool_iff in Q. split; [exact Q|].
    rewrite pow2_succ.
    apply (Qmult_lt_r _ _ D Hd). rewrite ExD.
    apply (Qlt_le_trans _ _ _ Ua).
    rewrite Eab. 
    apply Qle_trans with (2 * 2 ^ (a - b) * 2 ^ b); [lra|].
    apply Qmult_le_l; [lra|exact Lb].
  - assert (x < 2 ^ (a - b)) as Q'.
    { apply Qnot_le_lt. intros C. apply Qle_bool_iff in C. congruence. }
    replace (a - b - 1 + 1)%Z with (a - b)%Z by lia.
    split; [|exact Q'].
    assert (2 ^ (a - b) == 2 * 2 ^ (a - b - 1)) as E1.
    { rewrite <- pow2_succ. replace (a - b - 1 + 1)%Z with (a - b)%Z by lia.
      reflexivity. }
    pose proof (pow2_pos (a - b - 1)) as P1.
    apply (Qmult_le_r _ _ D Hd). rewrite ExD.
    apply Qle_trans with (2 ^ a); [|exact La].
    rewrite Eab, E1.
    apply Qle_trans with (2 ^ (a - b - 1) * (2 * 2 ^ b)); [|lra].
    apply Qmult_le_l; [exact P1|]. lra.
Qed.

Lemma ilog2_unique x k : 2 ^ k <= x < 2 ^ (k + 1) -> ilog2 x = k.
Proof.
  intros [L U].
  assert (0 < x) as H by (apply Qlt_le_trans with (2 ^ k); [apply pow2_pos|exact L]).
  destruct (ilog2_spec x H) as [L' U'].
  assert (ilog2 x < k + 1)%Z
    by (apply pow2_lt_inv; apply Qle_lt_trans with x; assumption).
  assert (k < ilog2 x + 1)%Z
    by (apply pow2_lt_inv; apply Qle_lt_trans with x; assumption).
  lia.
Qed.

Lemma ilog2_comp x y : 0 < x -> x == y -> ilog2 x = ilog2 y.
Proof.
  intros H E. symmetry. apply ilog2_unique. rewrite <- E. apply ilog2_spec, H.
Qed.

Lemma ilog2_mono x y : 0 < x -> x <= y -> (ilog2 x <= ilog2 y)%Z.
Proof.
  intros H L.
  destruct (ilog2_spec x H) as [Lx Ux].
  destruct (ilog2_spec y) as [Ly Uy]; [lra|].
  assert (ilog2 x < ilog2 y + 1)%Z; [|lia].
  apply pow2_lt_inv. lra.
Qed.

(** The significand of a positive number lies between 2^52 and 2^53. *)
Lemma significand x :
  0 < x ->
  let e := (ilog2 x - 52)%Z in
  inject_Z (2 ^ 52) <= x / 2 ^ e < inject_Z (2 ^ 53).
Proof.
  intros H e. destruct (ilog2_spec x H) as [L U].
  pose proof (pow2_pos e) as Pe.
  assert (2 ^ ilog2 x == inject_Z (2 ^ 52) * 2 ^ e) as E1.
  { rewrite (pow2_inject 52) by lia. rewrite <- pow2_plus.
    subst e. replace (52 + (ilog2 x - 52))%Z with (ilog2 x) by lia. reflexivity. }
  assert (2 ^ (ilog2 x + 1) == inject_Z (2 ^ 53) * 2 ^ e) as E2.
  { rewrite (pow2_inject 53) by lia. rewrite <- pow2_plus.
    subst e. replace (53 + (ilog2 x - 52))%Z with (ilog2 x + 1)%Z by lia.
    reflexivity. }
  split.
  - apply Qle_shift_div_l; [exact Pe|]. rewrite <- E1. exact L.
  - apply Qlt_shift_div_r; [exact Pe|]. rewrite <- E2. exact U.
Qed.

Lemma nearest_bounds x :
  0 < x -> 2 ^ ilog2 x <= nearest x <= 2 ^ (ilog2 x + 1).
Proof.
  intros H. destruct (significand x H) as [L U]. unfold nearest.
  set (e := (ilog2 x - 52)%Z) in *.
  pose proof (pow2_pos e) as Pe.
  pose proof (rne_mono _ _ L) as M1. rewrite rne_inject in M1.
  pose proof (rne_mono _ _ (Qlt_le_weak _ _ U)) as M2. rewrite rne_inject in M2.
  assert (2 ^ ilog2 x == inject_Z (2 ^ 52) * 2 ^ e) as E1.
  { rewrite (pow2_inject 52) by lia. rewrite <- pow2_plus.
    subst e. replace (52 + (ilog2 x - 52))%Z with (ilog2 x) by lia. reflexivity. }
  assert (2 ^ (ilog2 x + 1) == inject_Z (2 ^ 53) * 2 ^ e) as E2.
  { rewrite (pow2_inject 53) by lia. rewrite <- pow2_plus.
    subst e. replace (53 + (ilog2 x - 52))%Z with (ilog2 x + 1)%Z by lia.
    reflexivity. }
  rewrite E1, E2. split; apply Qmult_le_compat_r; try lra;
    rewrite <- Zle_Qle; assumption.
Qed.

Lemma nearest_pos x : 0 < x -> 0 < nearest x.
Proof.
  intros H. apply Qlt_le_trans with (2 ^ ilog2 x); [apply pow2_pos|].
  apply nearest_bounds, H.
Qed.

Lemma nearest_comp x y : 0 < x -> x == y -> nearest x == nearest y.
Proof.
  intros H E. unfold nearest. rewrite <- (ilog2_comp x y H E).
  rewrite (rne_comp (x / 2 ^ (ilog2 x - 52)) (y / 2 ^ (ilog2 x - 52))).
  - reflexivity.
  - unfold Qdiv. apply Qmult_comp; [exact E|reflexivity].
Qed.

Lemma nearest_mono x y : 0 < x -> x <= y -> nearest x <= nearest y.
Proof.
  intros H L.
  assert (0 < y) as Hy by lra.
  pose proof (ilog2_mono x y H L) as M.
  destruct (Z.eq_dec (ilog2 x) (ilog2 y)) as [E|N].
  - unfold nearest. rewrite <- E.
    pose proof (pow2_pos (ilog2 x - 52)) as Pe.
    apply Qmult_le_compat_r; [|lra].
    rewrite <- Zle_Qle. apply rne_mono.
    apply Qmult_le_compat_r; [exact L|].
    apply Qlt_le_weak, Qinv_lt_0_compat, Pe.
  - apply Qle_trans with (2 ^ (ilog2 x + 1)); [apply nearest_bounds, H|].
    apply Qle_trans with (2 ^ ilog2 y); [apply pow2_le; lia|].
    apply nearest_bounds, Hy.
Qed.

Lemma round_pos x : 0 < x -> round x = nearest x.
Proof.
  intros H. unfold round.
  destruct (Qcompare_spec x 0); [exfalso; lra|exfalso; lra|reflexivity].
Qed.

Lemma round_neg x : x < 0 -> round x = - nearest (- x).
Proof.
  intros H. unfold round.
  destruct (Qcompare_spec x 0); [exfalso; lra|reflexivity|exfalso; lra].
Qed.

Lemma round_zero x : x == 0 -> round x = 0.
Proof.
  intros H. unfold round.
  destruct (Qcompare_spec x 0); [reflexivity|exfalso; lra|exfalso; lra].
Qed.

Lemma round_comp x y : x == y -> round x == round y.
Proof.
  intros E. destruct (Qcompare_spec x 0) as [Z|N|P].
  - rewrite (round_zero x Z), (round_zero y); [reflexivity|lra].
  - rewrite (round_neg x N), (round_neg y) by lra.
    rewrite (nearest_comp (- x) (- y)); [reflexivity|lra|lra].
  - rewrite (round_pos x P), (round_pos y) by lra.
    apply nearest_comp; assumption.
Qed.

Lemma round_sign x : (0 < x -> 0 < round x) /\ (x < 0 -> round x < 0).
Proof.
  split; intros H.
  - rewrite (round_pos x H). apply nearest_pos, H.
  - rewrite (round_neg x H).
    assert (0 < nearest (- x)) by (apply nearest_pos; lra). lra.
Qed.

Lemma round_mono x y : x <= y -> round x <= round y.
Proof.
  intros L.
  destruct (Qcompare_spec x 0) as [Zx|Nx|Px];
    destruct (Qcompare_spec y 0) as [Zy|Ny|Py]; try (exfalso; lra).
  - rewrite (round_zero x Zx), (round_zero y Zy). lra.
  - rewrite (round_zero x Zx). apply Qlt_le_weak, round_sign, Py.
  - rewrite (round_zero y Zy). apply Qlt_le_weak, round_sign, Nx.
  - rewrite (round_neg x Nx), (round_neg y Ny).
    apply Qopp_le_compat, nearest_mono; lra.
  - apply Qle_trans with 0; apply Qlt_le_weak, round_sign; assumption.
  - rewrite (round_pos x Px), (round_pos y Py). apply nearest_mono; assumption.
Qed.

Lemma round_nonneg x : 0 <= x -> 0 <= round x.
Proof. intros H. apply (round_mono 0 x H). Qed.

Lemma Math_round_mono x y : x <= y -> (Math_round x <= Math_round y)%Z.
Proof. intros H. apply Qfloor_resp_le. lra. Qed.

Lemma Math_round_comp x y : x == y -> Math_round x = Math_round y.
Proof. intros H. apply Qfloor_comp. rewrite H. reflexivity. Qed.

Lemma Math_round_inject z : Math_round (inject_Z z) = z.
Proof.
  unfold Math_round.
  pose proof (Qfloor_le (inject_Z z + (1 # 2))) as L.
  pose proof (Qlt_floor (inject_Z z + (1 # 2))) as U.
  set (f := Qfloor (inject_Z z + (1 # 2))) in *.
  assert (inject_Z f < inject_Z (z + 1)) as A
    by (rewrite inject_Z_plus; change (inject_Z 1) with 1; lra).
  assert (inject_Z z < inject_Z (f + 1)) as B by lra.
  rewrite <- Zlt_Qlt in A, B. lia.
Qed.


Lemma of_Z_mono a b : (a <= b)%Z -> of_Z a <= of_Z b.
Proof. intros H. apply round_mono. rewrite <- Zle_Qle. exact H. Qed.

Lemma of_Z_pos z : (0 < z)%Z -> 0 < of_Z z.
Proof.
  intros H. apply round_sign. change 0 with (inject_Z 0). rewrite <- Zlt_Qlt. exact H.
Qed.

Lemma of_Z_nonneg z : (0 <= z)%Z -> 0 <= of_Z z.
Proof.
  intros H. apply round_nonneg. change 0 with (inject_Z 0). rewrite <- Zle_Qle. exact H.
Qed.

(** An integer below 2^53 in magnitude is a double. *)
Lemma nearest_inject z :
  (0 < z < 2 ^ 53)%Z -> nearest (inject_Z z) == inject_Z z.
Proof.
  intros [H0 H1]. unfold nearest.
  assert (0 < inject_Z z) as Hq
    by (change 0 with (inject_Z 0); rewrite <- Zlt_Qlt; exact H0).
  destruct (ilog2_spec (inject_Z z) Hq) as [L _].
  set (k := ilog2 (inject_Z z)) in *.
  assert (k < 53)%Z as Hk.
  { apply pow2_lt_inv. apply Qle_lt_trans with (inject_Z z); [exact L|].
    rewrite <- (pow2_inject 53) by lia. rewrite <- Zlt_Qlt. exact H1. }
  pose proof (pow2_pos (k - 52)) as Pe.
  assert (~ 2 ^ (k - 52) == 0) as Ne by (intros E; rewrite E in Pe; discriminate).
  assert (inject_Z z / 2 ^ (k - 52) == inject_Z (z * 2 ^ (- (k - 52)))) as E.
  { rewrite inject_Z_mult, (pow2_inject (- (k - 52))) by lia.
    rewrite Qpower_opp. field. exact Ne. }
  rewrite (rne_comp _ _ E), rne_inject.
  rewrite inject_Z_mult, (pow2_inject (- (k - 52))) by lia.
  rewrite Qpower_opp. field. exact Ne.
Qed.

Lemma of_Z_exact z : (Z.abs z < 2 ^ 53)%Z -> of_Z z == inject_Z z.
Proof.
  intros H. unfold of_Z.
  destruct (Z.lt_trichotomy z 0) as [N|[->|P]].
  - assert (inject_Z z < 0) as Hq
      by (change 0 with (inject_Z 0); rewrite <- Zlt_Qlt; exact N).
    rewrite (round_neg _ Hq).
    rewrite (nearest_comp (- inject_Z z) (inject_Z (- z))).
    + rewrite nearest_inject by lia. rewrite inject_Z_opp. ring.
    + lra.
    + rewrite inject_Z_opp. reflexivity.
  - reflexivity.
  - assert (0 < inject_Z z) as Hq
      by (change 0 with (inject_Z 0); rewrite <- Zlt_Qlt; exact P).
    rewrite (round_pos _ Hq). apply nearest_inject. lia.
Qed.

Lemma round_1 : round 1 == 1.
Proof. exact (of_Z_exact 1 eq_refl). Qed.

Lemma round_100 : round 100 == 100.
Proof. exact (of_Z_exact 100 eq_refl). Qed.


(** [Double] against the standard library's binary64 on a grid: the
    percentages of 0 to 79 bytes out of 1 to 40, and the filled cells
    of 0 to 100 percent in bars of 0 to 40 cells. *)
Lemma percent_is_binary64 :
  forallb (fun total =>
             forallb (fun loaded =>
                        bool_decide
                          (Binary64.percent (Z.of_nat loaded) (Z.of_nat (S total))
                           = Some (HttpClient.percent (Z.of_nat loaded)
                                     (Z.of_nat (S total)))))
                     (seq 0 80))
          (seq 0 40)
  = true.
Proof. vm_compute. reflexivity. Qed.

Lemma filled_cells_is_binary64 :
  forallb (fun width =>
             forallb (fun progress =>
                        bool_decide
                          (Binary64.filled_cells (Z.of_nat progress) (Z.of_nat width)
                           = Some (Cli.filled_cells (Z.of_nat progress)
                                     (Z.of_nat width))))
                     (seq 0 101))
          (seq 0 41)
  = true.
Proof. vm_compute. reflexivity. Qed.

(** Two values where the double differs from the exact quotient, which
    would give 58 and 15. *)
Lemma percent_23_40 : HttpClient.percent 23 40 = 57%Z.
Proof. vm_compute. reflexivity. Qed.

Lemma filled_cells_58_25 : Cli.filled_cells 58 25 = 14%Z.
Proof. vm_compute. reflexivity. Qed.

End DoubleSpec.

(** ** The generic-file extractor *)

Module HttpExtractorSpec.

Import HttpExtractor.

Lemma test_parses url :
  test url = true -> exists pathname, Url.pathname url = Some pathname.
Proof.
  unfold test. destruct (Url.pathname url) as [p|]; [eauto | discriminate].
Qed.

(** The size buckets, in bytes. *)
Lemma qualityOfSize_buckets (n : Z) :
  n <> 0%Z ->
  qualityOfSize (Some (Js.Int n)) =
    if (104857600 <? n)%Z then "1080p"
    else if (52428800 <? n)%Z then "720p"
    else if (20971520 <? n)%Z then "480p"
    else "360p".
Proof.
  intros Hn. unfold qualityOfSize, Js.num_truthy, Js.gt, MB.
  destruct (Z.eqb_spec n 0) as [->|_]; [congruence|]. reflexivity.
Qed.

(** A successful extraction always yields exactly one stream, whose
    quality is the one guessed from the probed size. *)
Lemma extract_single_stream answer url r :
  extract answer url = Ok r ->
  exists fileInfo s,
    Probe.getFileInfo answer = Ok fileInfo
    /\ streams r = [s]
    /\ fileSize s = Probe.contentLength fileInfo
    /\ quality s = qualityOfSize (Probe.contentLength fileInfo).
Proof.
  unfold extract. destruct (Probe.getFileInfo answer) as [fi|m]; [|discriminate].
  destruct (Url.pathname url) as [p|]; [|discriminate].
  intros [= <-]. eexists _, _. repeat split; reflexivity.
Qed.

Lemma getFileInfo_length h fi :
  Probe.getFileInfo (Ok h) = Ok fi ->
  Probe.contentLength fi =
    match h !! "content-length" with
    | Some cl => if Js.truthy cl then Some (Js.parseInt cl) else None
    | None => None
    end.
Proof. unfold Probe.getFileInfo, Probe.head. intros [= <-]. reflexivity. Qed.

(** C7.  Given [https://example.com/video.mp4] and a HEAD response
    whose Content-Length is 75000000 (and which suggests no file name),
    [extract] returns one stream, of quality 720p and format mp4; and
    the quality of a probed non-zero size [n] is 1080p above 100 MB,
    720p above 50 MB, 480p above 20 MB and 360p otherwise, a MB being
    1024 * 1024 bytes. *)
Theorem generic_file_75MB_is_720p (h : Headers) :
  h !! "content-length" = Some "75000000" ->
  h !! "content-disposition" = None ->
  (exists r s,
      extract (Ok h) "https://example.com/video.mp4" = Ok r
      /\ streams r = [s]
      /\ quality s = "720p"
      /\ format s = "mp4"
      /\ fileSize s = Some (Js.Int 75000000))
  /\ (forall n : Z,
        (100 * MB < n -> qualityOfSize (Some (Js.Int n)) = "1080p")
        /\ (50 * MB < n <= 100 * MB -> qualityOfSize (Some (Js.Int n)) = "720p")
        /\ (20 * MB < n <= 50 * MB -> qualityOfSize (Some (Js.Int n)) = "480p")
        /\ (n <= 20 * MB -> n <> 0 -> qualityOfSize (Some (Js.Int n)) = "360p"))%Z.
Proof.
  intros Hlen Hdisp. split.
  - unfold extract, Probe.getFileInfo, Probe.head.
    rewrite Hlen, Hdisp. eexists _, _.
    repeat split; reflexivity.
  - intros n. unfold MB.
    repeat split; intros; rewrite qualityOfSize_buckets by lia;
      repeat match goal with
             | |- context [(?a <? ?b)%Z] => destruct (Z.ltb_spec a b); try lia
             end; reflexivity.
Qed.

Lemma generic_file_75MB_is_720p_witness :
  exists r s,
    extract (Ok {["content-length" := "75000000"]})
            "https://example.com/video.mp4" = Ok r
    /\ streams r = [s] /\ quality s = "720p" /\ format s = "mp4"
    /\ fileSize s = Some (Js.Int 75000000).
Proof.
  apply (generic_file_75MB_is_720p {["content-length" := "75000000"]});
    reflexivity.
Defined.

(** C9.  For a URL the extractor accepts and a HEAD response without a
    Content-Length, [extract] succeeds with exactly one stream, whose
    quality is the label unknown; and a stream of quality 360p always
    carries a known, non-zero byte size. *)
Theorem no_length_is_unknown (url : string) (h : Headers) :
  test url = true ->
  h !! "content-length" = None ->
  (exists r s,
      extract (Ok h) url = Ok r
      /\ streams r = [s]
      /\ quality s = "unknown"
      /\ fileSize s = None)
  /\ (forall answer r s,
        extract answer url = Ok r -> In s (streams r) ->
        quality s = "360p" ->
        exists n, fileSize s = Some (Js.Int n) /\ n <> 0%Z).
Proof.
  intros Htest Hlen. destruct (test_parses _ Htest) as [p Hp]. split.
  - unfold extract, Probe.getFileInfo, Probe.head. rewrite Hlen, Hp.
    eexists _, _. repeat split; reflexivity.
  - intros answer r s Hr Hin Hq.
    destruct (extract_single_stream _ _ _ Hr) as (fi & s' & _ & Hs & Hsize & Hqual).
    rewrite Hs in Hin. destruct Hin as [<-|[]].
    rewrite Hsize. rewrite Hqual in Hq. unfold qualityOfSize in Hq.
    destruct (Probe.contentLength fi) as [[|n]|]; try discriminate.
    exists n. split; [reflexivity|].
    unfold Js.num_truthy in Hq. destruct (Z.eqb_spec n 0); [discriminate|assumption].
Qed.

Lemma no_length_is_unknown_witness :
  exists r s,
    extract (Ok ∅) "https://example.com/clips/a.webm?dl=1" = Ok r
    /\ streams r = [s] /\ quality s = "unknown" /\ fileSize s = None.
Proof.
  apply (no_length_is_unknown "https://example.com/clips/a.webm?dl=1" ∅);
    reflexivity.
Defined.

End HttpExtractorSpec.

(** ** The audio conversion adapter *)

Module AudioProcessorSpec.

Import AudioProcessor.

(** Every command the adapter builds strips the video stream. *)
Lemma command_noVideo options : cmd_noVideo (command options) = true.
Proof.
  unfold command.
  destruct (String.eqb (format options) "aac");
    destruct (audioBitrate (getQualitySettings (format options) (quality options)))
      as [b|]; try destruct (Js.truthy b); reflexivity.
Qed.

(** The bitrate of the command is the one of the quality settings. *)
Lemma command_bitrate options b :
  audioBitrate (getQualitySettings (format options) (quality options)) = Some b ->
  Js.truthy b = true ->
  cmd_audioBitrate (command options) = Some b.
Proof.
  intros Hb Ht. unfold command. rewrite Hb, Ht.
  destruct (String.eqb (format options) "aac"); reflexivity.
Qed.

Lemma wav_has_no_bitrate q : audioBitrate (getQualitySettings "wav" q) = None.
Proof. reflexivity. Qed.

Lemma onProgress_not_Started l c : ~ In (Started c) (omap onProgress l).
Proof.
  induction l as [|[q|] l IH]; simpl; auto.
  unfold onProgress at 1. destruct (Qeq_bool q 0); [exact IH|].
  intros [H|H]; [discriminate | exact (IH H)].
Qed.

(** C8.  For format mp3 and tier high the adapter starts the
    transcoder on a command with audio bitrate 320k and without the
    video stream, reading the input and writing the output of the
    request: it does so exactly once unless setting the command up
    throws, in which case nothing is started; the commands it starts
    are of no other kind; and what it resolves with is what the run of
    that command comes to.  The ladders are 128k / 192k / 320k for mp3
    and 96k / 128k / 256k for aac and m4a (low / medium / high, medium
    also being the default), and a wav command carries no bitrate
    whatever the tier. *)
Theorem mp3_high_is_320k_no_video :
  (forall input output transcoder,
      let options := {| inputPath := input; outputPath := output;
                        format := "mp3"; quality := Some "high" |} in
      let run := transcoder (command options) in
      cmd_audioBitrate (command options) = Some "320k"
      /\ cmd_noVideo (command options) = true
      /\ cmd_input (command options) = input
      /\ cmd_output (command options) = Some output
      /\ (forall c, In (Started c) (convertToAudio transcoder options).2 ->
                    cmd_audioBitrate c = Some "320k"
                    /\ cmd_noVideo c = true
                    /\ cmd_input c = input
                    /\ cmd_output c = Some output)
      /\ ((forall m, ending run <> Thrown m) ->
          exists rest,
            (convertToAudio transcoder options).2
            = Started (command options) :: rest
            /\ (forall c, ~ In (Started c) rest)
            /\ rest = omap onProgress (percents run))
      /\ (forall m, ending run = Thrown m ->
                    (convertToAudio transcoder options).2 = [])
      /\ (convertToAudio transcoder options).1
         = match ending run with
           | End => Some {| success := true; res_outputPath := Some output;
                            res_error := None |}
           | Failed m | Thrown m =>
               Some {| success := false; res_outputPath := None;
                       res_error := Some m |}
           | NeverExits => None
           end)
  /\ audioBitrate (getQualitySettings "mp3" (Some "low")) = Some "128k"
  /\ audioBitrate (getQualitySettings "mp3" (Some "medium")) = Some "192k"
  /\ audioBitrate (getQualitySettings "mp3" (Some "high")) = Some "320k"
  /\ audioBitrate (getQualitySettings "mp3" None) = Some "192k"
  /\ (forall f, f = "aac" \/ f = "m4a" ->
        audioBitrate (getQualitySettings f (Some "low")) = Some "96k"
        /\ audioBitrate (getQualitySettings f (Some "medium")) = Some "128k"
        /\ audioBitrate (getQualitySettings f (Some "high")) = Some "256k"
        /\ audioBitrate (getQualitySettings f None) = Some "128k")
  /\ (forall input output tier,
        let options := {| inputPath := input; outputPath := output;
                          format := "wav"; quality := tier |} in
        audioBitrate (getQualitySettings "wav" tier) = None
        /\ cmd_audioBitrate (command options) = None
        /\ cmd_noVideo (command options) = true).
Proof.
  split.
  - intros input output transcoder options run.
    assert (cmd_audioBitrate (command options) = Some "320k") as Hb
      by (apply command_bitrate; reflexivity).
    split; [exact Hb|]. split; [apply command_noVideo|].
    split; [reflexivity|]. split; [reflexivity|].
    unfold convertToAudio. cbv zeta. fold run.
    split; [|split; [|split]].
    + intros c Hc.
      assert (c = command options) as ->; [|repeat split; solve [exact Hb | reflexivity]].
      destruct (ending run); cbn [snd] in Hc;
        try (destruct Hc as [[= <-]|Hc];
             [reflexivity | destruct (onProgress_not_Started _ _ Hc)]).
      destruct Hc.
    + intros Hset. destruct (ending run) as [|m|m|] eqn:E; cbn [snd];
        try (eexists; split; [reflexivity|];
             split; [intros c; apply onProgress_not_Started | reflexivity]).
      destruct (Hset m eq_refl).
    + intros m ->. reflexivity.
    + destruct (ending run); reflexivity.
  - do 4 (split; [reflexivity|]). split.
    + intros f [-> | ->]; repeat split; reflexivity.
    + intros input output tier options. split; [apply wav_has_no_bitrate|].
      split; [reflexivity | apply command_noVideo].
Qed.

End AudioProcessorSpec.

(** ** The extractor registry *)

Module RegistrySpec.

Import MediaDownloader.

(** [findExtractor] returns an extractor exactly when it is the first
    in registration order whose predicate accepts the URL. *)
Lemma findExtractor_first extractors url e :
  findExtractor extractors url = Some e <->
  exists before after,
    extractors = (before ++ e :: after)%list
    /\ Extractor.test e url = true
    /\ Forall (fun x => Extractor.test x url = false) before.
Proof.
  induction extractors as [|x rest IH]; simpl.
  - split; [discriminate|]. intros (b & a & H & _). destruct b; discriminate.
  - destruct (Extractor.test x url) eqn:Hx.
    + split.
      * intros [= <-]. exists [], rest. auto.
      * intros (b & a & Heq & He & Hb). destruct b as [|y b]; simpl in Heq.
        -- congruence.
        -- injection Heq as <- _. inversion Hb; congruence.
    + rewrite IH. split.
      * intros (b & a & -> & He & Hb). exists (x :: b), a. auto.
      * intros (b & a & Heq & He & Hb). destruct b as [|y b]; simpl in Heq.
        -- injection Heq as <- _. congruence.
        -- injection Heq as <- ->. inversion Hb; subst. eauto.
Qed.

Lemma findExtractor_none extractors url :
  findExtractor extractors url = None <->
  Forall (fun x => Extractor.test x url = false) extractors.
Proof.
  induction extractors as [|x rest IH]; simpl.
  - split; auto.
  - destruct (Extractor.test x url) eqn:Hx.
    + split; [discriminate|]. inversion 1; congruence.
    + rewrite IH. split; [auto|]. inversion 1; assumption.
Qed.

(** Registration appends, so earlier registrations keep priority. *)
Lemma findExtractor_register extractors e url x :
  findExtractor extractors url = Some x ->
  findExtractor (registerExtractor e extractors) url = Some x.
Proof.
  unfold registerExtractor.
  induction extractors as [|y rest IH]; simpl; [discriminate|].
  destruct (Extractor.test y url); auto.
Qed.

(** C6.  Dispatch returns the first registered extractor whose
    predicate accepts the URL; of two registered extractors that both
    accept it, the one registered first; and extraction fails with the
    no-extractor-found error when none accepts it. *)
Theorem dispatch_first_match :
  (forall extractors url e,
      findExtractor extractors url = Some e <->
      exists before after,
        extractors = (before ++ e :: after)%list
        /\ Extractor.test e url = true
        /\ Forall (fun x => Extractor.test x url = false) before)
  /\ (forall A B url,
        Extractor.test A url = true -> Extractor.test B url = true ->
        findExtractor (registerExtractor B (registerExtractor A [])) url = Some A
        /\ MediaDownloader.extract (registerExtractor B (registerExtractor A [])) url
           = Extractor.extract A url)
  /\ (forall extractors url,
        Forall (fun x => Extractor.test x url = false) extractors ->
        findExtractor extractors url = None
        /\ MediaDownloader.extract extractors url
           = Throw ("No extractor found for URL: " +:+ url)).
Proof.
  split; [exact findExtractor_first|]. split.
  - intros A B url HA HB. unfold MediaDownloader.extract. simpl. rewrite HA. auto.
  - intros extractors url Hnone. apply findExtractor_none in Hnone.
    unfold MediaDownloader.extract. rewrite Hnone. auto.
Qed.

End RegistrySpec.

(** ** Stream selection *)

Module SelectionSpec.

Import MediaDownloader Selection.

Lemma find_first {A : Type} (p : A -> bool) (l : list A) (x : A) :
  List.find p l = Some x <-> first_with (fun y => p y = true) l x.
Proof.
  unfold first_with. induction l as [|a l IH]; simpl.
  - split; [discriminate|]. intros (b & c & H & _). destruct b; discriminate.
  - destruct (p a) eqn:Ha.
    + split.
      * intros [= <-]. exists [], l. auto.
      * intros (b & c & Heq & Hx & Hb). destruct b as [|y b]; simpl in Heq.
        -- congruence.
        -- injection Heq as <- _. inversion Hb; congruence.
    + rewrite IH. split.
      * intros (b & c & -> & Hx & Hb). exists (a :: b), c.
        repeat split; auto. constructor; [congruence | assumption].
      * intros (b & c & Heq & Hx & Hb). destruct b as [|y b]; simpl in Heq.
        -- injection Heq as <- _. congruence.
        -- injection Heq as <- ->. inversion Hb; subst. eauto.
Qed.

Lemma find_none {A : Type} (p : A -> bool) (l : list A) :
  List.find p l = None <-> forall y, In y l -> p y = false.
Proof.
  split.
  - intros H y Hy. exact (List.find_none p l H y Hy).
  - induction l as [|a l IH]; simpl; [reflexivity|]. intros H.
    rewrite (H a) by auto. apply IH. auto.
Qed.

(** The first element that satisfies [P] is unique. *)
Lemma first_with_unique {A : Type} (P : A -> Prop) (l : list A) (x y : A) :
  first_with P l x -> first_with P l y -> x = y.
Proof.
  intros (b1 & a1 & H1 & Px & F1) (b2 & a2 & H2 & Py & F2). subst l.
  revert b2 H2 F2. induction b1 as [|z b1 IH]; intros [|w b2] H2 F2; simpl in H2.
  - congruence.
  - injection H2 as -> _. inversion F2; contradiction.
  - injection H2 as -> _. inversion F1; contradiction.
  - injection H2 as -> H2. inversion F1; inversion F2; subst. eauto.
Qed.

Lemma first_with_In {A : Type} (P : A -> Prop) (l : list A) (x : A) :
  first_with P l x -> In x l /\ P x.
Proof.
  intros (b & a & -> & Px & _). split; [|assumption].
  apply in_or_app. right. left. reflexivity.
Qed.

(** [indexOf] is the position of a listed label and -1 otherwise. *)
Lemma indexOf_absent x l : ~ In x l -> indexOf x l = (-1)%Z.
Proof.
  induction l as [|y l IH]; simpl; [reflexivity|]. intros H.
  destruct (String.eqb_spec y x) as [->|_]; [tauto|].
  rewrite IH by tauto. reflexivity.
Qed.

Lemma indexOf_bounds x l :
  (indexOf x l = -1 \/ 0 <= indexOf x l < Z.of_nat (List.length l))%Z.
Proof.
  induction l as [|y l IH]; simpl; [auto|].
  destruct (String.eqb_spec y x); [lia|].
  destruct (Z.eqb_spec (indexOf x l) (-1)); lia.
Qed.

Lemma indexOf_nth x l i :
  List.NoDup l -> nth_error l i = Some x -> indexOf x l = Z.of_nat i.
Proof.
  intros Hnd. revert i. induction Hnd as [|y l Hy Hnd IH]; intros [|i]; simpl;
    try discriminate.
  - intros [= ->]. rewrite String.eqb_refl. reflexivity.
  - intros Hi. destruct (String.eqb_spec y x) as [->|_].
    + exfalso. apply Hy. eapply nth_error_In; eassumption.
    + rewrite (IH _ Hi). destruct (Z.eqb_spec (Z.of_nat i) (-1)); lia.
Qed.

Lemma qualityOrder_NoDup : List.NoDup qualityOrder.
Proof.
  unfold qualityOrder.
  repeat (constructor; [simpl; intuition discriminate|]).
  constructor.
Qed.

(** The ranks of the ladder: a listed label has its position, every
    other label has 999. *)
Lemma rank_listed s i :
  nth_error qualityOrder i = Some (quality s) -> rank s = Z.of_nat i.
Proof.
  intros Hi. unfold rank.
  rewrite (indexOf_nth _ _ _ qualityOrder_NoDup Hi).
  destruct (Z.eqb_spec (Z.of_nat i) (-1)); [lia | reflexivity].
Qed.

Lemma rank_unlisted s : ~ In (quality s) qualityOrder -> rank s = 999%Z.
Proof. intros H. unfold rank. rewrite indexOf_absent by assumption. reflexivity. Qed.

Lemma rank_range s : (0 <= rank s <= 999)%Z.
Proof.
  unfold rank. pose proof (indexOf_bounds (quality s) qualityOrder) as H.
  simpl List.length in H.
  destruct (Z.eqb_spec (indexOf (quality s) qualityOrder) (-1)); lia.
Qed.

(** The head of the sorted list after one insertion. *)
Lemma hd_insert x l :
  hd_error (insert x l) =
    match hd_error l with
    | None => Some x
    | Some y => if (compare x y <=? 0)%Z then Some x else Some y
    end.
Proof. destruct l as [|y l]; simpl; [reflexivity|]. destruct (_ <=? _)%Z; reflexivity. Qed.

(** The head of the sorted list is the first stream of the best rank. *)
Lemma hd_sort_first_best streams :
  streams <> [] ->
  exists s, hd_error (sort streams) = Some s
            /\ first_with (best_rank streams) streams s.
Proof.
  induction streams as [|x l IH]; [congruence|]. intros _.
  unfold sort. simpl. fold (sort l). rewrite hd_insert.
  destruct l as [|y l'].
  - simpl. exists x. split; [reflexivity|]. exists [], []. repeat split; auto.
    intros t [<-|[]]. lia.
  - destruct IH as (s & Hs & b & a & Heq & Hbest & Hb); [discriminate|].
    rewrite Hs. unfold compare.
    destruct (Z.leb_spec (rank x - rank s) 0) as [Hle|Hgt].
    + exists x. split; [reflexivity|]. exists [], (y :: l').
      repeat split; auto. intros t [<-|Ht]; [lia|].
      specialize (Hbest t Ht). lia.
    + exists s. split; [reflexivity|]. exists (x :: b), a. split; [|split].
      * simpl. rewrite Heq. reflexivity.
      * intros t [<-|Ht]; [lia | exact (Hbest t Ht)].
      * constructor.
        -- intros Hx. assert (In s (x :: y :: l')) as Hin.
           { right. rewrite Heq. apply in_or_app. right. left. reflexivity. }
           specialize (Hx s Hin). lia.
        -- eapply List.Forall_impl; [|exact Hb]. intros t Ht Hbt. apply Ht.
           intros u Hu. apply Hbt. right. assumption.
Qed.

Lemma first_with_ext {A : Type} (P Q : A -> Prop) (l : list A) (x : A) :
  (forall y, P y <-> Q y) -> first_with P l x -> first_with Q l x.
Proof.
  intros H (b & a & Heq & Px & Hb). exists b, a. split; [assumption|].
  split; [apply H; assumption|].
  eapply List.Forall_impl; [|exact Hb]. intros y Hy Hq. apply Hy, H, Hq.
Qed.

Lemma truthy_nonempty h : Js.truthy h = true <-> h <> "".
Proof.
  unfold Js.truthy. destruct (String.eqb_spec h ""); simpl; split; congruence.
Qed.

Lemma selectBestStream_hinted streams options :
  selectBestStream streams options =
    match hinted quality (opt_quality options) streams with
    | Some s => Some s
    | None =>
        match hinted format (opt_format options) streams with
        | Some s => Some s
        | None => hd_error (sort streams)
        end
    end.
Proof. reflexivity. Qed.

Lemma hinted_Some field hint streams s :
  hinted field hint streams = Some s ->
  exists h, hint = Some h /\ h <> ""
            /\ first_with (fun t => field t = h) streams s.
Proof.
  unfold hinted, find_stream. destruct hint as [h|]; [|discriminate].
  destruct (Js.truthy h) eqn:Ht; [|discriminate]. intros Hf.
  exists h. split; [reflexivity|]. split; [apply truthy_nonempty, Ht|].
  apply find_first in Hf. eapply first_with_ext; [|exact Hf].
  intros y. apply String.eqb_eq.
Qed.

Lemma hinted_None field hint streams :
  hinted field hint streams = None -> ~ hint_applies field hint streams.
Proof.
  unfold hinted, find_stream. intros H (h & -> & Hne & t & Hin & Hf).
  apply truthy_nonempty in Hne. rewrite Hne in H.
  pose proof (proj1 (find_none _ _) H t Hin) as Hno. simpl in Hno.
  rewrite Hf, String.eqb_refl in Hno. discriminate.
Qed.

Lemma first_with_applies field h streams s :
  h <> "" -> first_with (fun t => field t = h) streams s ->
  hint_applies field (Some h) streams.
Proof.
  intros Hne Hf. apply first_with_In in Hf as [Hin Hq]. exists h. eauto.
Qed.

(** The policy picks at most one stream. *)
Lemma Selects_unique streams options s s' :
  Selects streams options s -> Selects streams options s' -> s = s'.
Proof.
  intros [q Hq Hne Hf | f Hnq Hfm Hne Hf | Hnq Hnf Hf]
         [q' Hq' Hne' Hf' | f' Hnq' Hfm' Hne' Hf' | Hnq' Hnf' Hf'].
  - assert (q' = q) as -> by congruence. eapply first_with_unique; eassumption.
  - exfalso. apply Hnq'. rewrite Hq. eapply first_with_applies; eassumption.
  - exfalso. apply Hnq'. rewrite Hq. eapply first_with_applies; eassumption.
  - exfalso. apply Hnq. rewrite Hq'. eapply first_with_applies; eassumption.
  - assert (f' = f) as -> by congruence. eapply first_with_unique; eassumption.
  - exfalso. apply Hnf'. rewrite Hfm. eapply first_with_applies; eassumption.
  - exfalso. apply Hnq. rewrite Hq'. eapply first_with_applies; eassumption.
  - exfalso. apply Hnf. rewrite Hfm'. eapply first_with_applies; eassumption.
  - eapply first_with_unique; eassumption.
Qed.

(** [selectBestStream] follows the policy. *)
Lemma selectBestStream_Selects streams options :
  streams <> [] ->
  exists s, selectBestStream streams options = Some s
            /\ Selects streams options s.
Proof.
  intros Hne. rewrite selectBestStream_hinted.
  destruct (hinted quality (opt_quality options) streams) as [s|] eqn:Hq.
  { exists s. split; [reflexivity|].
    destruct (hinted_Some _ _ _ _ Hq) as (q & Ho & Hq' & Hf).
    eapply ByQuality; eassumption. }
  apply hinted_None in Hq.
  destruct (hinted format (opt_format options) streams) as [s|] eqn:Hf.
  { exists s. split; [reflexivity|].
    destruct (hinted_Some _ _ _ _ Hf) as (f & Ho & Hf' & Hfw).
    eapply ByFormat; eassumption. }
  apply hinted_None in Hf.
  destruct (hd_sort_first_best streams Hne) as (s & Hs & Hbest).
  exists s. split; [assumption|]. apply ByLadder; assumption.
Qed.

Lemma Selects_In streams options s : Selects streams options s -> In s streams.
Proof.
  intros [q _ _ Hf | f _ _ _ Hf | _ _ Hf]; apply first_with_In in Hf; tauto.
Qed.

(** C5, as the code has it.  For a non-empty stream list and any
    options exactly one stream is chosen; it is the first stream whose
    quality is the quality hint when that hint is given and some stream
    has it, else the first stream whose format is the format hint when
    that hint is given and some stream has it, else the first stream of
    the best rank on the ladder 2160p > 1440p > 1080p > 720p > 480p >
    360p > 240p, every label off that ladder ranking after all labels
    on it. *)
Theorem selectBestStream_policy (streams : list StreamInfo)
                                (options : DownloadOptions) :
  streams <> [] ->
  (exists s,
      selectBestStream streams options = Some s
      /\ In s streams
      /\ Selects streams options s
      /\ forall s', Selects streams options s' -> s' = s)
  /\ (forall s i,
        nth_error qualityOrder i = Some (quality s) -> rank s = Z.of_nat i)
  /\ (forall s, ~ In (quality s) qualityOrder -> rank s = 999%Z)
  /\ (forall s t,
        In (quality s) qualityOrder -> ~ In (quality t) qualityOrder ->
        (rank s < rank t)%Z).
Proof.
  intros Hne. split; [|split; [|split]].
  - destruct (selectBestStream_Selects streams options Hne) as (s & Hs & Hsel).
    exists s. split; [assumption|]. split; [eapply Selects_In; eassumption|].
    split; [assumption|]. intros s' Hs'. eapply Selects_unique; eassumption.
  - exact rank_listed.
  - exact rank_unlisted.
  - intros s t Hs Ht. rewrite (rank_unlisted t Ht).
    apply In_nth_error in Hs as [i Hi]. rewrite (rank_listed s i Hi).
    assert (i < List.length qualityOrder)%nat as Hlt.
    { apply nth_error_Some. congruence. }
    simpl in Hlt. lia.
Qed.

Lemma selectBestStream_policy_witness :
  exists s,
    selectBestStream
      [stream_of "1080p" "mp4"; stream_of "720p" "mp4";
       stream_of "480p" "mp4"; stream_of "360p" "mp4"]
      {| outputPath := "./downloads"; opt_format := None;
         opt_quality := Some "480p"; audioQuality := None |}
    = Some s
    /\ In s [stream_of "1080p" "mp4"; stream_of "720p" "mp4";
             stream_of "480p" "mp4"; stream_of "360p" "mp4"]
    /\ quality s = "480p".
Proof.
  destruct (proj1 (selectBestStream_policy
                     [stream_of "1080p" "mp4"; stream_of "720p" "mp4";
                      stream_of "480p" "mp4"; stream_of "360p" "mp4"]
                     {| outputPath := "./downloads"; opt_format := None;
                        opt_quality := Some "480p"; audioQuality := None |}
                     ltac:(discriminate)))
    as (s & Hs & Hin & _).
  exists s. split; [exact Hs|]. split; [exact Hin|].
  vm_compute in Hs. injection Hs as <-. reflexivity.
Defined.

(** C5, as the specification words it, fails: with the streams
    [unknown; 144p] and no hint the code picks the stream labelled
    unknown, although the specification's ladder ranks 144p before
    every unrecognized label; the code's ladder stops at 240p and gives
    both streams rank 999. *)
Lemma ladder_stops_at_240p :
  selectBestStream [stream_of "unknown" "mp4"; stream_of "144p" "mp4"] no_hints
  = Some (stream_of "unknown" "mp4")
  /\ (spec_rank (stream_of "144p" "mp4") < spec_rank (stream_of "unknown" "mp4"))%Z
  /\ rank (stream_of "144p" "mp4") = 999%Z
  /\ rank (stream_of "unknown" "mp4") = 999%Z
  /\ spec_rank (stream_of "144p" "mp4") = 7%Z
  /\ selectBestStream [stream_of "unknown" "mp4"; stream_of "high" "m4a"] no_hints
     = Some (stream_of "unknown" "mp4").
Proof.
  assert (rank (stream_of "144p" "mp4") = 999%Z) as H144
    by (apply rank_unlisted; simpl; intuition discriminate).
  assert (rank (stream_of "unknown" "mp4") = 999%Z) as Hunk
    by (apply rank_unlisted; simpl; intuition discriminate).
  repeat split; try assumption; reflexivity.
Qed.

End SelectionSpec.

(** ** The download engine *)

Module EngineSpec.

Import HttpClient Trace.

Section Percent.

Import Double DoubleSpec.

Local Open Scope Q_scope.

Lemma percent_zero T : (0 < T)%Z -> percent 0 T = 0%Z.
Proof.
  intros H. unfold percent, Double.mul, Double.div.
  pose proof (of_Z_pos T H) as P.
  change (of_Z 0) with 0.
  rewrite (round_zero (0 / of_Z T)) by (field; lra).
  reflexivity.
Qed.

Lemma percent_full T : (0 < T)%Z -> percent T T = 100%Z.
Proof.
  intros H. unfold percent, Double.mul, Double.div.
  pose proof (of_Z_pos T H) as P.
  assert (round (of_Z T / of_Z T) == 1) as E1.
  { rewrite <- round_1. apply round_comp. field. lra. }
  assert (round (round (of_Z T / of_Z T) * 100) == 100) as E2.
  { rewrite <- round_100 at 2. apply round_comp. rewrite E1. reflexivity. }
  rewrite (Math_round_comp _ _ E2). reflexivity.
Qed.

Lemma percent_mono T a b :
  (0 < T)%Z -> (a <= b)%Z -> (percent a T <= percent b T)%Z.
Proof.
  intros HT Hab. unfold percent, Double.mul, Double.div.
  pose proof (of_Z_pos T HT) as P.
  pose proof (of_Z_mono a b Hab) as M.
  apply Math_round_mono, round_mono.
  apply Qmult_le_compat_r; [|discriminate].
  apply round_mono.
  apply Qmult_le_compat_r; [exact M|].
  apply Qlt_le_weak, Qinv_lt_0_compat, P.
Qed.

(** Once the transport has loaded 1.02 times the announced total, the
    percentage is 102 or more (byte counts below 2^53). *)
Lemma percent_overrun loaded T :
  (0 < T < 2 ^ 53)%Z -> (loaded < 2 ^ 53)%Z -> (51 * T <= 50 * loaded)%Z ->
  (102 <= percent loaded T)%Z.
Proof.
  intros HT HL H. unfold percent, Double.mul, Double.div.
  pose proof (of_Z_exact T ltac:(lia)) as ET.
  pose proof (of_Z_exact loaded ltac:(lia)) as EL.
  assert (0 < inject_Z T) as PT
    by (change 0 with (inject_Z 0); rewrite <- Zlt_Qlt; lia).
  assert (51 # 50 <= of_Z loaded / of_Z T) as Q.
  { rewrite ET, EL. apply Qle_shift_div_l; [exact PT|].
    assert (inject_Z (51 * T) <= inject_Z (50 * loaded)) as Q
      by (rewrite <- Zle_Qle; exact H).
    rewrite !inject_Z_mult in Q. change (inject_Z 51) with 51 in Q.
    change (inject_Z 50) with 50 in Q. lra. }
  change 102%Z with (Math_round (round (round (51 # 50) * 100))).
  apply Math_round_mono, round_mono.
  apply Qmult_le_compat_r; [|discriminate].
  apply round_mono. exact Q.
Qed.

End Percent.

Lemma omap_cons {A B : Type} (f : A -> option B) (x : A) (l : list A) :
  omap f (x :: l) = match f x with
                    | Some y => y :: omap f l
                    | None => omap f l
                    end.
Proof. reflexivity. Qed.



Lemma requests_app l1 l2 : requests (l1 ++ l2) = (requests l1 ++ requests l2)%list.
Proof. apply omap_app. Qed.

Lemma schedule_app l1 l2 : schedule (l1 ++ l2) = (schedule l1 ++ schedule l2)%list.
Proof. apply List.filter_app. Qed.

Lemma downloading_percents_app l1 l2 :
  downloading_percents (l1 ++ l2)
  = (downloading_percents l1 ++ downloading_percents l2)%list.
Proof. apply omap_app. Qed.

(** What the progress handler does to the state: it leaves the file
    system and the job's status alone and logs notifications only. *)
Lemma onDownloadProgress_frame ev st :
  fs (onDownloadProgress ev st) = fs st
  /\ status (job (onDownloadProgress ev st)) = status (job st)
  /\ exists notes,
       log (onDownloadProgress ev st) = (log st ++ notes)%list
       /\ requests notes = []
       /\ schedule notes = []
       /\ (forall p, In (Notify p) notes -> status p = status (job st))
       /\ (status (job st) = downloading ->
           downloading_percents notes = option_list (event_percent ev)).
Proof.
  unfold onDownloadProgress, event_percent.
  destruct (total ev) as [t|]; [destruct (Z.eqb_spec t 0)|].
  - repeat split; try reflexivity. exists []. rewrite app_nil_r.
    repeat split; try reflexivity. intros p [].
  - repeat split; try reflexivity. eexists [Notify _]. split; [reflexivity|].
    repeat split; try reflexivity.
    + intros p [[= <-]|[]]. reflexivity.
    + intros Hs. unfold downloading_percents. simpl. rewrite Hs. reflexivity.
  - repeat split; try reflexivity. exists []. rewrite app_nil_r.
    repeat split; try reflexivity. intros p [].
Qed.

Lemma deliver_frame evs : forall st,
  fs (deliver evs st) = fs st
  /\ status (job (deliver evs st)) = status (job st)
  /\ exists notes,
       log (deliver evs st) = (log st ++ notes)%list
       /\ requests notes = []
       /\ schedule notes = []
       /\ (forall p, In (Notify p) notes -> status p = status (job st))
       /\ (status (job st) = downloading ->
           downloading_percents notes = omap event_percent evs).
Proof.
  induction evs as [|ev r IH]; intros st.
  - simpl. repeat split; try reflexivity. exists []. rewrite app_nil_r.
    repeat split; try reflexivity. intros p [].
  - change (deliver (ev :: r) st) with (deliver r (onDownloadProgress ev st)).
    destruct (onDownloadProgress_frame ev st)
      as (Hfs & Hst & n1 & Hlog & Hreq & Hsch & Hnote & Hpct).
    destruct (IH (onDownloadProgress ev st))
      as (Hfs' & Hst' & n2 & Hlog' & Hreq' & Hsch' & Hnote' & Hpct').
    split; [congruence|]. split; [congruence|].
    exists (n1 ++ n2)%list. split; [rewrite Hlog', Hlog, app_assoc; reflexivity|].
    split; [rewrite requests_app, Hreq, Hreq'; reflexivity|].
    split; [rewrite schedule_app, Hsch, Hsch'; reflexivity|].
    split.
    + intros p Hp. apply in_app_or in Hp as [Hp|Hp]; [auto|].
      rewrite <- Hst. auto.
    + intros Hs. rewrite downloading_percents_app, Hpct, Hpct' by congruence.
      rewrite omap_cons. destruct (event_percent ev); reflexivity.
Qed.

Section Loop.

Variable net : nat -> Attempt.
Variable outputPath : string.
Variable retries : nat.

Lemma loop_exhausted fuel attempt st :
  (retries <= attempt)%nat ->
  loop net outputPath retries (S fuel) attempt st
  = Some (Rejected DownloadFailedBare, st).
Proof.
  intros H. simpl. destruct (Nat.ltb_spec attempt retries); [lia | reflexivity].
Qed.

Lemma loop_caught_last fuel attempt st m :
  S attempt = retries ->
  caught (dir_exists outputPath (requested net attempt st)) (net attempt) = Some m ->
  loop net outputPath retries (S fuel) attempt st
  = Some (Rejected (DownloadFailed retries m), requested net attempt st).
Proof.
  intros Hlast Hc. simpl. fold (requested net attempt st).
  destruct (Nat.ltb_spec attempt retries); [|lia].
  destruct (Nat.leb_spec retries (S attempt)); [|lia].
  unfold caught, dir_exists in Hc.
  destruct (outcome (net attempt)) as [m'|[m'|] w].
  - congruence.
  - case_bool_decide; [discriminate|].
    destruct (decide _); [contradiction | congruence].
  - discriminate.
Qed.

Lemma loop_caught_more fuel attempt st m :
  (S attempt < retries)%nat ->
  caught (dir_exists outputPath (requested net attempt st)) (net attempt) = Some m ->
  loop net outputPath retries (S fuel) attempt st
  = loop net outputPath retries fuel (S attempt)
      (emit (Sleep (1000 * Z.of_nat (S attempt))) (requested net attempt st)).
Proof.
  intros Hmore Hc. simpl. fold (requested net attempt st).
  destruct (Nat.ltb_spec attempt retries); [|lia].
  destruct (Nat.leb_spec retries (S attempt)); [lia|].
  unfold caught, dir_exists in Hc.
  destruct (outcome (net attempt)) as [m'|[m'|] w].
  - reflexivity.
  - case_bool_decide; [discriminate|].
    destruct (decide _); [contradiction | reflexivity].
  - discriminate.
Qed.

Lemma loop_settled fuel attempt st mk w :
  (attempt < retries)%nat ->
  outcome (net attempt) = Responds mk w ->
  caught (dir_exists outputPath (requested net attempt st)) (net attempt) = None ->
  loop net outputPath retries (S fuel) attempt st
  = Some (settle outputPath w (with_dir outputPath (requested net attempt st))).
Proof.
  intros Hlt Ho Hc. simpl. fold (requested net attempt st).
  destruct (Nat.ltb_spec attempt retries); [|lia].
  unfold caught, dir_exists in Hc. unfold with_dir. rewrite Ho in *.
  destruct mk as [m'|].
  - case_bool_decide; [|discriminate].
    destruct (decide _); [reflexivity | contradiction].
  - destruct (decide _); reflexivity.
Qed.

Lemma requested_frame attempt st :
  fs (requested net attempt st) = fs st
  /\ status (job (requested net attempt st)) = status (job st)
  /\ exists notes,
       log (requested net attempt st) = (log st ++ Request attempt :: notes)%list
       /\ requests notes = []
       /\ schedule notes = []
       /\ (forall p, In (Notify p) notes -> status p = status (job st))
       /\ (status (job st) = downloading ->
           downloading_percents notes = attempt_percents (net attempt)).
Proof.
  unfold requested.
  destruct (deliver_frame (events (net attempt)) (emit (Request attempt) st))
    as (Hfs & Hst & notes & Hlog & Hreq & Hsch & Hnote & Hpct).
  split; [exact Hfs|]. split; [exact Hst|]. exists notes.
  split; [rewrite Hlog; simpl; rewrite <- app_assoc; reflexivity|].
  repeat split; assumption.
Qed.

Lemma settle_spec w st :
  log (settle outputPath w st).2 = log st
  /\ job (settle outputPath w st).2 = job st
  /\ match (settle outputPath w st).1 with
     | Resolved path =>
         path = outputPath /\ (outputPath ∈ fs (settle outputPath w st).2)
     | Rejected (StreamError m) =>
         (outputPath ∉ fs (settle outputPath w st).2)
         /\ (exists partial, w = WriteError m partial)
     | Rejected _ => False
     | Pending =>
         (outputPath ∈ fs (settle outputPath w st).2) /\ w = BodyAborted
     end
  /\ (settle outputPath w st).1 = answer outputPath w.
Proof.
  destruct w as [|m partial|]; simpl.
  - repeat split. apply elem_of_union_l, elem_of_singleton. reflexivity.
  - repeat split; [|eauto].
    case_decide; [|assumption].
    apply not_elem_of_difference. right. apply elem_of_singleton. reflexivity.
  - repeat split. apply elem_of_union_l, elem_of_singleton. reflexivity.
Qed.

Lemma with_dir_frame st :
  log (with_dir outputPath st) = log st /\ job (with_dir outputPath st) = job st.
Proof. unfold with_dir. case_decide; auto. Qed.

(** The shape of every run of the loop: [n] requests, numbered from
    [attempt], each followed by the notifications of its progress
    events. *)
Lemma loop_inv fuel : forall attempt st r st',
  (attempt = O \/ attempt < retries)%nat ->
  loop net outputPath retries fuel attempt st = Some (r, st') ->
  exists n tail,
    log st' = (log st ++ tail)%list
    /\ requests tail = seq attempt n
    /\ (attempt + n <= retries)%nat
    /\ (forall p, In (Notify p) tail -> status p = status (job st))
    /\ status (job st') = status (job st)
    /\ (status (job st) = downloading ->
        downloading_percents tail
        = concat (map (fun i => attempt_percents (net i)) (seq attempt n)))
    /\ settled_as outputPath retries st r st'.
Proof.
  induction fuel as [|fuel IH]; intros attempt st r st' Hstart Hrun;
    [discriminate|].
  destruct (le_lt_dec retries attempt) as [Hge|Hlt].
  { rewrite loop_exhausted in Hrun by assumption. injection Hrun as <- <-.
    exists O, []. rewrite app_nil_r. simpl.
    repeat split; try reflexivity; try lia; try (intros p []). }
  destruct (requested_frame attempt st)
    as (Hfs & Hst & notes & Hlog & Hreq & Hsch & Hnote & Hpct).
  destruct (caught (dir_exists outputPath (requested net attempt st)) (net attempt))
    as [m|] eqn:Hc.
  - destruct (Nat.eq_dec (S attempt) retries) as [Hlast|Hnot].
    + rewrite (loop_caught_last _ _ _ _ Hlast Hc) in Hrun.
      injection Hrun as <- <-. exists 1%nat, (Request attempt :: notes).
      split; [exact Hlog|]. split; [simpl; rewrite Hreq; reflexivity|].
      split; [lia|]. split; [intros p [Hp|Hp]; [discriminate | auto]|].
      split; [exact Hst|]. split.
      * intros Hd. simpl. rewrite app_nil_r. 
        change (downloading_percents (Request attempt :: notes))
          with (downloading_percents notes). auto.
      * simpl. auto.
    + rewrite (loop_caught_more fuel attempt st m ltac:(lia) Hc) in Hrun.
      apply IH in Hrun as (n & tail & Hlog' & Hreq' & Hn & Hnote' & Hst' & Hpct' & Hset);
        [|right; lia].
      exists (S n), (Request attempt :: notes
                     ++ Sleep (1000 * Z.of_nat (S attempt)) :: tail)%list.
      split.
      { rewrite Hlog'. simpl. rewrite Hlog.
        rewrite <- !app_assoc. reflexivity. }
      split.
      { change (requests (Request attempt :: notes ++ Sleep (1000 * Z.of_nat (S attempt)) :: tail))
          with (attempt :: requests (notes ++ Sleep (1000 * Z.of_nat (S attempt)) :: tail)).
        rewrite requests_app, Hreq. simpl.
        change (requests (Sleep (1000 * Z.of_nat (S attempt)) :: tail))
          with (requests tail).
        rewrite Hreq'. reflexivity. }
      split; [lia|]. split.
      { intros p [Hp|Hp]; [discriminate|].
        apply in_app_or in Hp as [Hp|[Hp|Hp]]; [auto | discriminate |].
        rewrite <- Hst. apply Hnote'. exact Hp. }
      split; [simpl in Hst'; congruence|]. split.
      { intros Hd.
        change (downloading_percents (Request attempt :: notes ++ Sleep (1000 * Z.of_nat (S attempt)) :: tail))
          with (downloading_percents (notes ++ Sleep (1000 * Z.of_nat (S attempt)) :: tail)).
        rewrite downloading_percents_app, (Hpct Hd).
        change (downloading_percents (Sleep (1000 * Z.of_nat (S attempt)) :: tail))
          with (downloading_percents tail).
        rewrite Hpct' by (simpl; congruence). reflexivity. }
      destruct r as [path|[k e| |e]|]; simpl in *; intuition congruence.
  - destruct (outcome (net attempt)) as [m|mk w] eqn:Ho.
    { unfold caught in Hc. rewrite Ho in Hc. discriminate. }
    rewrite (loop_settled _ _ _ _ _ Hlt Ho Hc) in Hrun. injection Hrun as Hrun.
    destruct (settle_spec w (with_dir outputPath (requested net attempt st)))
      as (Hl & Hj & Hres & _).
    destruct (with_dir_frame (requested net attempt st)) as [Hl' Hj'].
    rewrite Hrun in Hl, Hj, Hres. simpl in Hl, Hj, Hres.
    exists 1%nat, (Request attempt :: notes).
    split; [congruence|]. split; [simpl; rewrite Hreq; reflexivity|].
    split; [lia|]. split; [intros p [Hp|Hp]; [discriminate | auto]|].
    split; [congruence|]. split.
    + intros Hd. simpl. rewrite app_nil_r.
      change (downloading_percents (Request attempt :: notes))
        with (downloading_percents notes). auto.
    + destruct r as [path|[k e| |e]|]; simpl; try tauto.
Qed.

(** Which iteration ends the loop: the first one that does not throw,
    or the last of the budget. *)
Lemma loop_last fuel : forall attempt st r st',
  (attempt < retries)%nat ->
  loop net outputPath retries fuel attempt st = Some (r, st') ->
  exists n,
    (attempt + n < retries)%nat
    /\ (forall i, (attempt <= i < attempt + n)%nat ->
                  caught (dir_exists outputPath st) (net i) <> None)
    /\ match caught (dir_exists outputPath st) (net (attempt + n)) with
       | Some m =>
           S (attempt + n) = retries /\ r = Rejected (DownloadFailed retries m)
       | None =>
           exists mk w, outcome (net (attempt + n)) = Responds mk w
                        /\ r = answer outputPath w
       end
    /\ exists tail,
         log st' = (log st ++ tail)%list /\ requests tail = seq attempt (S n).
Proof.
  induction fuel as [|fuel IH]; intros attempt st r st' Hlt Hrun; [discriminate|].
  destruct (requested_frame attempt st)
    as (Hfs & Hst & notes & Hlog & Hreq & Hsch & Hnote & Hpct).
  assert (dir_exists outputPath (requested net attempt st)
          = dir_exists outputPath st) as Hdir
    by (unfold dir_exists; rewrite Hfs; reflexivity).
  destruct (caught (dir_exists outputPath (requested net attempt st)) (net attempt))
    as [m|] eqn:Hc.
  - destruct (Nat.eq_dec (S attempt) retries) as [Hlast|Hnot].
    + rewrite (loop_caught_last _ _ _ _ Hlast Hc) in Hrun.
      injection Hrun as <- <-. exists O. rewrite Nat.add_0_r.
      split; [exact Hlt|]. split; [intros i Hi; lia|].
      rewrite <- Hdir, Hc. split; [auto|].
      exists (Request attempt :: notes). split; [exact Hlog|].
      simpl. rewrite Hreq. reflexivity.
    + rewrite (loop_caught_more fuel attempt st m ltac:(lia) Hc) in Hrun.
      apply IH in Hrun as (n & Hn & Hall & Hend & tail & Hlog' & Hreq'); [|lia].
      assert (dir_exists outputPath
                (emit (Sleep (1000 * Z.of_nat (S attempt))) (requested net attempt st))
              = dir_exists outputPath st) as Hdir'
        by (unfold dir_exists; simpl; rewrite Hfs; reflexivity).
      rewrite Hdir' in Hall, Hend.
      exists (S n). replace (attempt + S n)%nat with (S attempt + n)%nat by lia.
      split; [exact Hn|]. split.
      { intros i Hi. destruct (Nat.eq_dec i attempt) as [->|Hne].
        - rewrite <- Hdir, Hc. discriminate.
        - apply Hall. lia. }
      split; [exact Hend|].
      exists (Request attempt :: notes
              ++ Sleep (1000 * Z.of_nat (S attempt)) :: tail)%list.
      split.
      { rewrite Hlog'. simpl. rewrite Hlog. rewrite <- !app_assoc. reflexivity. }
      change (requests (Request attempt :: notes ++ Sleep (1000 * Z.of_nat (S attempt)) :: tail))
        with (attempt :: requests (notes ++ Sleep (1000 * Z.of_nat (S attempt)) :: tail)).
      rewrite requests_app, Hreq. simpl.
      change (requests (Sleep (1000 * Z.of_nat (S attempt)) :: tail))
        with (requests tail).
      rewrite Hreq'. reflexivity.
  - destruct (outcome (net attempt)) as [m|mk w] eqn:Ho.
    { unfold caught in Hc. rewrite Ho in Hc. discriminate. }
    rewrite (loop_settled _ _ _ _ _ Hlt Ho Hc) in Hrun. injection Hrun as Hrun.
    destruct (settle_spec w (with_dir outputPath (requested net attempt st)))
      as (Hl & _ & _ & Hans).
    destruct (with_dir_frame (requested net attempt st)) as [Hl' _].
    rewrite Hrun in Hl, Hans. simpl in Hl, Hans.
    exists O. rewrite Nat.add_0_r.
    split; [exact Hlt|]. split; [intros i Hi; lia|].
    rewrite <- Hdir, Hc. split; [exists mk, w; auto|].
    exists (Request attempt :: notes). split; [congruence|].
    simpl. rewrite Hreq. reflexivity.
Qed.

(** The loop always ends within [S retries] iterations. *)
Lemma loop_total fuel : forall attempt st,
  (retries - attempt < fuel)%nat ->
  exists r st', loop net outputPath retries fuel attempt st = Some (r, st').
Proof.
  induction fuel as [|fuel IH]; intros attempt st Hfuel; [lia|].
  destruct (le_lt_dec retries attempt) as [Hge|Hlt].
  { rewrite loop_exhausted by assumption. eauto. }
  destruct (caught (dir_exists outputPath (requested net attempt st)) (net attempt))
    as [m|] eqn:Hc.
  - destruct (Nat.eq_dec (S attempt) retries) as [Hlast|Hnot].
    + rewrite (loop_caught_last _ _ _ _ Hlast Hc). eauto.
    + rewrite (loop_caught_more fuel attempt st m ltac:(lia) Hc). apply IH. lia.
  - destruct (outcome (net attempt)) as [m|mk w] eqn:Ho.
    { unfold caught in Hc. rewrite Ho in Hc. discriminate. }
    rewrite (loop_settled _ _ _ _ _ Hlt Ho Hc).
    destruct (settle outputPath w _) as [r st']. eauto.
Qed.

(** [d] caught iterations in a row, with more of the budget left. *)
Lemma loop_skip d : forall fuel attempt st,
  (attempt + d < retries)%nat ->
  (forall i, (attempt <= i < attempt + d)%nat ->
             caught (bool_decide (Path.dirname outputPath ∈ fs st)) (net i) <> None) ->
  exists st_d tail,
    loop net outputPath retries (d + fuel) attempt st
    = loop net outputPath retries fuel (attempt + d) st_d
    /\ fs st_d = fs st
    /\ log st_d = (log st ++ tail)%list
    /\ requests tail = seq attempt d
    /\ schedule tail = retried attempt d.
Proof.
  induction d as [|d IH]; intros fuel attempt st Hlt Hall.
  - exists st, []. rewrite Nat.add_0_r, app_nil_r. auto.
  - destruct (requested_frame attempt st)
      as (Hfs & Hst & notes & Hlog & Hreq & Hsch & Hnote & Hpct).
    destruct (caught (dir_exists outputPath (requested net attempt st)) (net attempt))
      as [m|] eqn:Hc.
    2:{ exfalso. apply (Hall attempt ltac:(lia)).
        unfold dir_exists in Hc. rewrite Hfs in Hc. exact Hc. }
    change (S d + fuel)%nat with (S (d + fuel)).
    rewrite (loop_caught_more (d + fuel) attempt st m ltac:(lia) Hc).
    destruct (IH fuel (S attempt)
                (emit (Sleep (1000 * Z.of_nat (S attempt))) (requested net attempt st)))
      as (st_d & tail & Hrun & Hfs' & Hlog' & Hreq' & Hsch').
    { lia. }
    { intros i Hi. simpl. rewrite Hfs. apply Hall. lia. }
    exists st_d, (Request attempt :: notes
                  ++ Sleep (1000 * Z.of_nat (S attempt)) :: tail)%list.
    split; [rewrite Hrun; f_equal; lia|].
    split; [simpl in Hfs'; congruence|].
    split.
    { rewrite Hlog'. simpl. rewrite Hlog. rewrite <- !app_assoc. reflexivity. }
    split.
    { change (requests (Request attempt :: notes ++ Sleep (1000 * Z.of_nat (S attempt)) :: tail))
        with (attempt :: requests (notes ++ Sleep (1000 * Z.of_nat (S attempt)) :: tail)).
      rewrite requests_app, Hreq. simpl.
      change (requests (Sleep (1000 * Z.of_nat (S attempt)) :: tail))
        with (requests tail).
      rewrite Hreq'. reflexivity. }
    change (schedule (Request attempt :: notes ++ Sleep (1000 * Z.of_nat (S attempt)) :: tail))
      with (Request attempt :: schedule (notes ++ Sleep (1000 * Z.of_nat (S attempt)) :: tail)).
    rewrite schedule_app, Hsch. simpl.
    change (schedule (Sleep (1000 * Z.of_nat (S attempt)) :: tail))
      with (Sleep (1000 * Z.of_nat (S attempt)) :: schedule tail).
    rewrite Hsch'. reflexivity.
Qed.

End Loop.

(** The loop of [downloadFile] always ends, and in at most [retries]
    requests. *)
Lemma downloadFile_total net outputPath retries st :
  exists r st', downloadFile net outputPath retries st = Some (r, st').
Proof. apply loop_total. lia. Qed.

(** The promise stays pending only if the body of an answered request
    breaks off. *)
Lemma downloadFile_pending net outputPath retries st st' :
  downloadFile net outputPath retries st = Some (Pending, st') ->
  exists i mk, (i < retries)%nat /\ outcome (net i) = Responds mk BodyAborted.
Proof.
  intros Hrun. destruct retries as [|k].
  { unfold downloadFile in Hrun. simpl in Hrun. discriminate. }
  apply loop_last in Hrun as (n & Hn & _ & Hend & _); [|lia].
  simpl in Hend. destruct (caught _ _).
  - destruct Hend as [_ Hr]. discriminate.
  - destruct Hend as (mk & w & Ho & Hr). exists n, mk.
    split; [lia|]. destruct w; try discriminate. exact Ho.
Qed.

Lemma downloadFile_inv net outputPath retries st r st' :
  downloadFile net outputPath retries st = Some (r, st') ->
  exists n tail,
    log st' = (log st ++ tail)%list
    /\ requests tail = seq 0 n
    /\ (n <= retries)%nat
    /\ (forall p, In (Notify p) tail -> status p = status (job st))
    /\ status (job st') = status (job st)
    /\ (status (job st) = downloading ->
        downloading_percents tail
        = concat (map (fun i => attempt_percents (net i)) (seq 0 n)))
    /\ settled_as outputPath retries st r st'.
Proof.
  intros H. apply loop_inv in H; [|left; reflexivity].
  destruct H as (n & tail & H). exists n, tail. exact H.
Qed.

Lemma RequestFails_caught b a m : outcome a = RequestFails m -> caught b a = Some m.
Proof. unfold caught. intros ->. reflexivity. Qed.

(** C3.  When each of the three HTTP attempts fails, a call with
    [retries = 3] issues exactly three requests, waits 1000 ms after the
    first failure and 2000 ms after the second (1000 ms times the number
    of failed attempts so far), and then rejects with the
    download-failed error that carries the attempt count 3 and the last
    attempt's message; it touches no file. *)
Theorem three_failures_raise_DownloadFailed
        (net : nat -> Attempt) (outputPath : string) (st : EngineState) :
  (forall i, (i < 3)%nat -> exists m, outcome (net i) = RequestFails m) ->
  exists m st' tail,
    downloadFile net outputPath 3 st = Some (Rejected (DownloadFailed 3 m), st')
    /\ outcome (net 2%nat) = RequestFails m
    /\ message (DownloadFailed 3 m) = "Download failed after 3 attempts: " +:+ m
    /\ log st' = (log st ++ tail)%list
    /\ requests tail = [0; 1; 2]%nat
    /\ schedule tail
       = [Request 0; Sleep 1000; Request 1; Sleep 2000; Request 2]
    /\ fs st' = fs st.
Proof.
  intros Hfail.
  destruct (loop_skip net outputPath 3 2 2 0 st ltac:(lia))
    as (st2 & tail & Hrun & Hfs & Hlog & Hreq & Hsch).
  { intros i Hi. destruct (Hfail i ltac:(lia)) as [m Hm].
    rewrite (RequestFails_caught _ _ _ Hm). discriminate. }
  destruct (Hfail 2%nat ltac:(lia)) as [m Hm].
  destruct (requested_frame net 2 st2)
    as (Hfs' & _ & notes & Hlog' & Hreq' & Hsch' & _).
  exists m, (requested net 2 st2), (tail ++ Request 2 :: notes)%list.
  split.
  { unfold downloadFile. change 4%nat with (2 + 2)%nat. rewrite Hrun.
    apply loop_caught_last; [reflexivity|].
    apply RequestFails_caught. exact Hm. }
  split; [exact Hm|]. split; [reflexivity|].
  split; [rewrite Hlog', Hlog, <- app_assoc; reflexivity|].
  split.
  { rewrite requests_app, Hreq. simpl. rewrite Hreq'. reflexivity. }
  split.
  { rewrite schedule_app, Hsch. simpl. rewrite Hsch'. reflexivity. }
  congruence.
Qed.

Lemma three_failures_raise_DownloadFailed_witness :
  exists m st' tail,
    downloadFile Scenario.unreachable Scenario.target 3 Scenario.st0
    = Some (Rejected (DownloadFailed 3 m), st')
    /\ outcome (Scenario.unreachable 2%nat) = RequestFails m
    /\ message (DownloadFailed 3 m) = "Download failed after 3 attempts: " +:+ m
    /\ log st' = (log Scenario.st0 ++ tail)%list
    /\ requests tail = [0; 1; 2]%nat
    /\ schedule tail
       = [Request 0; Sleep 1000; Request 1; Sleep 2000; Request 2]
    /\ fs st' = fs Scenario.st0.
Proof.
  apply (three_failures_raise_DownloadFailed
           Scenario.unreachable Scenario.target Scenario.st0).
  intros i _. eexists. reflexivity.
Defined.

(** C4, as the code has it.  A call that ends with the download-failed
    error has created no file and removed none: the file system is
    exactly as it was when the call began, so a file exists at the
    destination afterwards exactly when one existed before.  The error
    carries the retry count; the bare error after the loop is thrown
    only for a retry count of 0.  A call that ends with the write
    stream's own error leaves no file at the destination, the partial
    file having been removed. *)
Theorem DownloadFailed_creates_no_file
        (net : nat -> Attempt) (outputPath : string) (retries : nat)
        (st st' : EngineState) (e : EngineError) :
  downloadFile net outputPath retries st = Some (Rejected e, st') ->
  (forall k m, e = DownloadFailed k m ->
               k = retries /\ fs st' = fs st
               /\ (outputPath ∈ fs st' <-> outputPath ∈ fs st))
  /\ (e = DownloadFailedBare ->
      retries = O /\ fs st' = fs st
      /\ (outputPath ∈ fs st' <-> outputPath ∈ fs st))
  /\ (forall m, e = StreamError m -> outputPath ∉ fs st').
Proof.
  intros Hrun. apply downloadFile_inv in Hrun as (n & tail & _ & _ & _ & _ & _ & _ & Hset).
  split; [|split].
  - intros k m ->. simpl in Hset. destruct Hset as [Hk Hfs].
    split; [exact Hk|]. split; [exact Hfs|]. rewrite Hfs. reflexivity.
  - intros ->. simpl in Hset. destruct Hset as [Hk Hfs].
    split; [exact Hk|]. split; [exact Hfs|]. rewrite Hfs. reflexivity.
  - intros m ->. simpl in Hset. exact Hset.
Qed.

Lemma DownloadFailed_creates_no_file_witness :
  exists st',
    downloadFile Scenario.unreachable Scenario.target 3 Scenario.st0
    = Some (Rejected (DownloadFailed 3 "connect ECONNREFUSED"), st')
    /\ fs st' = fs Scenario.st0
    /\ (Scenario.target ∉ fs st').
Proof.
  exists {| job := Scenario.job0; fs := ∅;
            log := [Request 0; Sleep 1000; Request 1; Sleep 2000; Request 2] |}.
  pose proof (DownloadFailed_creates_no_file
                Scenario.unreachable Scenario.target 3 Scenario.st0
                {| job := Scenario.job0; fs := ∅;
                   log := [Request 0; Sleep 1000; Request 1; Sleep 2000; Request 2] |}
                (DownloadFailed 3 "connect ECONNREFUSED") eq_refl)
    as (Hfailed & _ & _).
  destruct (Hfailed 3%nat "connect ECONNREFUSED" eq_refl) as (_ & Hfs & Hiff).
  split; [reflexivity|]. split; [exact Hfs|].
  intros Hin. apply Hiff in Hin. exact (not_elem_of_empty _ Hin).
Defined.

(** C4, as the specification words it, fails when a file is at the
    destination before the call: with all three requests refused the
    call ends with the download-failed error, having touched no file,
    and the file of the earlier download is still there. *)
Lemma stale_file_survives_DownloadFailed :
  exists st',
    downloadFile Scenario.unreachable Scenario.target 3 Scenario.stale
    = Some (Rejected (DownloadFailed 3 "connect ECONNREFUSED"), st')
    /\ fs st' = fs Scenario.stale
    /\ (Scenario.target ∈ fs Scenario.stale)
    /\ (Scenario.target ∈ fs st').
Proof.
  exists {| job := Scenario.job0; fs := {[Scenario.target]};
            log := [Request 0; Sleep 1000; Request 1; Sleep 2000; Request 2] |}.
  split; [reflexivity|]. split; [reflexivity|].
  split; change (Scenario.target ∈ ({[Scenario.target]} : gset string));
    apply elem_of_singleton_2; reflexivity.
Qed.

(** C10.  If the HTTP request of an attempt succeeds and the
    destination write stream then fails, the call rejects at once with
    the stream's own error: that attempt's request is the last one, no
    wait follows it, the error is not the download-failed error, and no
    file is left at the destination, whatever the retry count. *)
Theorem write_error_is_not_retried
        (net : nat -> Attempt) (outputPath : string) (retries : nat)
        (st : EngineState) (k : nat) (mk : option string)
        (m : string) (partial : bool) :
  (k < retries)%nat ->
  (forall i, (i < k)%nat ->
             caught (bool_decide (Path.dirname outputPath ∈ fs st)) (net i) <> None) ->
  outcome (net k) = Responds mk (WriteError m partial) ->
  Path.dirname outputPath ∈ fs st \/ mk = None ->
  exists st' tail,
    downloadFile net outputPath retries st = Some (Rejected (StreamError m), st')
    /\ message (StreamError m) = m
    /\ (forall n e, StreamError m <> DownloadFailed n e)
    /\ (outputPath ∉ fs st')
    /\ log st' = (log st ++ tail)%list
    /\ requests tail = seq 0 (S k)
    /\ schedule tail = (retried 0 k ++ [Request k])%list.
Proof.
  intros Hk Hcaught Hout Hdir.
  destruct (loop_skip net outputPath retries k (S (retries - k)) 0 st ltac:(lia))
    as (stk & tail & Hrun & Hfs & Hlog & Hreq & Hsch).
  { intros i Hi. apply Hcaught. lia. }
  destruct (requested_frame net k stk)
    as (Hfs' & _ & notes & Hlog' & Hreq' & Hsch' & _).
  assert (caught (dir_exists outputPath (requested net k stk)) (net k) = None) as Hnone.
  { unfold caught, dir_exists. rewrite Hout, Hfs', Hfs.
    destruct mk as [m'|]; [|reflexivity].
    destruct Hdir as [Hdir|Hdir]; [|discriminate].
    rewrite bool_decide_eq_true_2 by assumption. reflexivity. }
  destruct (settle_spec outputPath (WriteError m partial)
              (with_dir outputPath (requested net k stk))) as (Hl & _ & Hres & _).
  destruct (with_dir_frame outputPath (requested net k stk)) as [Hl' _].
  exists (settle outputPath (WriteError m partial)
            (with_dir outputPath (requested net k stk))).2,
         (tail ++ Request k :: notes)%list.
  split.
  { unfold downloadFile.
    replace (S retries) with (k + S (retries - k))%nat by lia.
    rewrite Hrun. simpl (0 + k)%nat.
    rewrite (loop_settled net outputPath retries (retries - k) k stk mk _ Hk Hout Hnone).
    reflexivity. }
  split; [reflexivity|]. split; [discriminate|].
  split; [exact (proj1 Hres)|].
  split; [rewrite Hl, Hl', Hlog', Hlog, <- app_assoc; reflexivity|].
  split.
  { rewrite requests_app, Hreq. simpl requests. rewrite Hreq'.
    rewrite seq_S. reflexivity. }
  rewrite schedule_app, Hsch. simpl schedule. rewrite Hsch'. reflexivity.
Qed.

Lemma write_error_is_not_retried_witness :
  exists st' tail,
    downloadFile Scenario.disk_full Scenario.target 3 Scenario.st0
    = Some (Rejected (StreamError "ENOSPC: no space left on device"), st')
    /\ message (StreamError "ENOSPC: no space left on device")
       = "ENOSPC: no space left on device"
    /\ (forall n e, StreamError "ENOSPC: no space left on device" <> DownloadFailed n e)
    /\ (Scenario.target ∉ fs st')
    /\ log st' = (log Scenario.st0 ++ tail)%list
    /\ requests tail = seq 0 2
    /\ schedule tail = (retried 0 1 ++ [Request 1])%list.
Proof.
  apply (write_error_is_not_retried
           Scenario.disk_full Scenario.target 3 Scenario.st0 1 None
           "ENOSPC: no space left on device" true).
  - lia.
  - intros i Hi. assert (i = 0)%nat as -> by lia. discriminate.
  - reflexivity.
  - right. reflexivity.
Defined.

(** How [downloadFile] goes about its requests. *)
Lemma downloadFile_last net outputPath retries st r st' :
  downloadFile net outputPath retries st = Some (r, st') ->
  exists n tail,
    log st' = (log st ++ tail)%list
    /\ requests tail = seq 0 n
    /\ (n <= retries)%nat
    /\ (forall i, (S i < n)%nat -> caught (dir_exists outputPath st) (net i) <> None)
    /\ match n with
       | O => retries = O /\ r = Rejected DownloadFailedBare
       | S k =>
           match caught (dir_exists outputPath st) (net k) with
           | Some m => n = retries /\ r = Rejected (DownloadFailed retries m)
           | None =>
               exists mk w, outcome (net k) = Responds mk w
                            /\ r = answer outputPath w
           end
       end.
Proof.
  intros Hrun. destruct retries as [|k].
  { unfold downloadFile in Hrun. simpl in Hrun. injection Hrun as <- <-.
    exists O, []. rewrite app_nil_r. repeat split; auto. intros i Hi. lia. }
  apply loop_last in Hrun as (n & Hn & Hall & Hend & tail & Hlog & Hreq); [|lia].
  simpl in Hn, Hall, Hend.
  exists (S n), tail. split; [exact Hlog|]. split; [exact Hreq|].
  split; [lia|]. split; [intros i Hi; apply Hall; lia|].
  destruct (caught (dir_exists outputPath st) (net n)).
  - destruct Hend as [Hlast Hr]. split; [exact Hlast | exact Hr].
  - exact Hend.
Qed.

(** The loop of the engine ends after at most [retries] requests,
    which are numbered consecutively from 0: every request but the last
    one made was refused, or answered with a directory that could not
    be created.  If the last one went the same way, it was the last of
    the budget and the promise rejects with the download-failed error
    and that attempt's message.  Otherwise the promise comes to what
    the write stream comes to: it resolves with the path when the
    stream finishes, rejects with the stream's error when it fails, and
    is never settled when the stream does not end. *)
Theorem engine_ends_within_budget
        (net : nat -> Attempt) (outputPath : string) (retries : nat)
        (st : EngineState) :
  exists r st' n tail,
    downloadFile net outputPath retries st = Some (r, st')
    /\ log st' = (log st ++ tail)%list
    /\ requests tail = seq 0 n
    /\ (n <= retries)%nat
    /\ settled_as outputPath retries st r st'
    /\ (forall i, (S i < n)%nat ->
                  caught (bool_decide (Path.dirname outputPath ∈ fs st)) (net i)
                  <> None)
    /\ match n with
       | O => retries = O /\ r = Rejected DownloadFailedBare
       | S k =>
           match caught (bool_decide (Path.dirname outputPath ∈ fs st)) (net k) with
           | Some m => n = retries /\ r = Rejected (DownloadFailed retries m)
           | None =>
               exists mk w,
                 outcome (net k) = Responds mk w
                 /\ r = match w with
                        | Finish => Resolved outputPath
                        | WriteError m _ => Rejected (StreamError m)
                        | BodyAborted => Pending
                        end
           end
       end.
Proof.
  destruct (downloadFile_total net outputPath retries st) as (r & st' & Hrun).
  destruct (downloadFile_inv _ _ _ _ _ _ Hrun)
    as (n & tail & Hlog & Hreq & Hn & _ & _ & _ & Hset).
  destruct (downloadFile_last _ _ _ _ _ _ Hrun)
    as (n' & tail' & Hlog' & Hreq' & _ & Hall & Hend).
  assert (tail' = tail) as -> by (rewrite Hlog in Hlog'; eapply app_inv_head; eauto).
  assert (n' = n) as ->.
  { rewrite Hreq in Hreq'. apply (f_equal List.length) in Hreq'.
    rewrite !length_seq in Hreq'. congruence. }
  exists r, st', n, tail. repeat (split; [assumption|]). exact Hend.
Qed.

End EngineSpec.

(** ** The orchestrator *)

Module DownloadSpec.

Import MediaDownloader Trace Jobs.

Lemma catch_spec id m w :
  (catch id m w).1 = Throw m
  /\ activeDownloads (catch id m w).2 !! id = failed m <$> (activeDownloads w !! id)
  /\ exists notes,
       log (catch id m w).2 = (log w ++ notes)%list
       /\ (forall p, In (Notify p) notes -> status p = error)
       /\ downloading_percents notes = []
       /\ requests notes = [].
Proof.
  unfold catch. destruct (activeDownloads w !! id) as [p|] eqn:Hp; simpl.
  - split; [reflexivity|]. split; [apply lookup_insert_eq|].
    exists [Notify (failed m p)]. split; [reflexivity|].
    split; [|split; reflexivity].
    intros q [[= <-]|[]]. reflexivity.
  - split; [reflexivity|]. split; [rewrite Hp; reflexivity|].
    exists []. rewrite app_nil_r. split; [reflexivity|].
    split; [|split; reflexivity].
    intros q [].
Qed.

Lemma complete_spec id p path w :
  (complete id p path w).1 = Ok path
  /\ activeDownloads (complete id p path w).2 !! id = None
  /\ log (complete id p path w).2
     = (log w ++ [Notify (set_progress 100 (set_status completed p))])%list.
Proof.
  unfold complete. simpl. split; [reflexivity|]. split; [|reflexivity].
  apply lookup_delete_eq.
Qed.

Lemma audio_effects_silent l :
  downloading_percents (map audio_effect l) = []
  /\ requests (map audio_effect l) = []
  /\ forall p, ~ In (Notify p) (map audio_effect l).
Proof.
  induction l as [|[c|z] l (IH1 & IH2 & IH3)]; simpl; auto;
    (split; [exact IH1|]; split; [exact IH2|];
     intros p [H|H]; [discriminate | exact (IH3 p H)]).
Qed.

Lemma finish_spec env options id filePath p w r w' :
  finish env options id filePath p w = Some (r, w') ->
  exists notes,
    log w' = (log w ++ notes)%list
    /\ downloading_percents notes = []
    /\ requests notes = []
    /\ (forall q, In (Notify q) notes -> status q = completed -> progress q = 100%Z)
    /\ ended r (activeDownloads w !! id) (activeDownloads w' !! id) notes.
Proof.
  assert (forall path w0,
             activeDownloads w0 !! id = activeDownloads w !! id ->
             forall pre,
               log w0 = (log w ++ pre)%list ->
               downloading_percents pre = [] ->
               requests pre = [] ->
               (forall q, ~ In (Notify q) pre) ->
               exists notes,
                 log (complete id p path w0).2 = (log w ++ notes)%list
                 /\ downloading_percents notes = []
                 /\ requests notes = []
                 /\ (forall q, In (Notify q) notes -> status q = completed ->
                               progress q = 100%Z)
                 /\ ended (complete id p path w0).1 (activeDownloads w !! id)
                          (activeDownloads (complete id p path w0).2 !! id) notes)
    as Hcomplete.
  { intros path w0 Hact pre Hlog Hpre Hreq Hno.
    destruct (complete_spec id p path w0) as (Hr & Hgone & Hl).
    exists (pre ++ [Notify (set_progress 100 (set_status completed p))])%list.
    split; [rewrite Hl, Hlog, <- app_assoc; reflexivity|].
    split; [rewrite EngineSpec.downloading_percents_app, Hpre; reflexivity|].
    split; [rewrite EngineSpec.requests_app, Hreq; reflexivity|].
    split.
    - intros q Hq _. apply in_app_or in Hq as [Hq|[[= <-]|[]]].
      + exfalso. exact (Hno q Hq).
      + reflexivity.
    - rewrite Hr. simpl. split; [exact Hgone|].
      eexists. split; [apply last_snoc|]. split; reflexivity. }
  assert (forall m w0,
             activeDownloads w0 !! id = activeDownloads w !! id ->
             forall pre,
               log w0 = (log w ++ pre)%list ->
               downloading_percents pre = [] ->
               requests pre = [] ->
               (forall q, ~ In (Notify q) pre) ->
               exists notes,
                 log (catch id m w0).2 = (log w ++ notes)%list
                 /\ downloading_percents notes = []
                 /\ requests notes = []
                 /\ (forall q, In (Notify q) notes -> status q = completed ->
                               progress q = 100%Z)
                 /\ ended (catch id m w0).1 (activeDownloads w !! id)
                          (activeDownloads (catch id m w0).2 !! id) notes)
    as Hcatch.
  { intros m w0 Hact pre Hlog Hpre Hreq Hno.
    destruct (catch_spec id m w0) as (Hr & Hmark & notes & Hl & Hst & Hdp & Hrq).
    exists (pre ++ notes)%list.
    split; [rewrite Hl, Hlog, <- app_assoc; reflexivity|].
    split; [rewrite EngineSpec.downloading_percents_app, Hpre, Hdp; reflexivity|].
    split; [rewrite EngineSpec.requests_app, Hreq, Hrq; reflexivity|].
    split.
    - intros q Hq Hc. apply in_app_or in Hq as [Hq|Hq].
      + exfalso. exact (Hno q Hq).
      + rewrite (Hst q Hq) in Hc. discriminate.
    - rewrite Hr. simpl. rewrite Hmark, Hact. reflexivity. }
  assert (forall x : result string * World,
             Some x = Some (r, w') -> r = x.1 /\ w' = x.2) as Hsome.
  { intros x [= ->]. auto. }
  unfold finish. intros Hrun.
  destruct (opt_format options) as [f|].
  2:{ apply Hsome in Hrun as [-> ->].
      apply (Hcomplete filePath w eq_refl []); auto using app_nil_r. }
  destruct (Js.truthy f && AudioProcessor.isAudioFormat f).
  2:{ apply Hsome in Hrun as [-> ->].
      apply (Hcomplete filePath w eq_refl []); auto using app_nil_r. }
  cbv zeta in Hrun.
  match type of Hrun with
  | context [map audio_effect ?l] =>
      destruct (audio_effects_silent l) as (Hsil & Hsrq & Hnon)
  end.
  match type of Hrun with
  | match ?a with Some _ => _ | None => _ end = _ =>
      destruct a as [conversionResult|]; [|discriminate]
  end.
  match type of Hrun with
  | (if ?c then _ else _) = _ => destruct c
  end; apply Hsome in Hrun as [-> ->].
  - eapply Hcomplete;
      [reflexivity | reflexivity | exact Hsil | exact Hsrq | exact Hnon].
  - eapply Hcatch;
      [reflexivity | reflexivity | exact Hsil | exact Hsrq | exact Hnon].
Qed.

(** [download] once a stream is chosen: the call of the engine, and
    what follows it. *)
Lemma download_unfold env extractors url options w er sel :
  extract extractors url = Ok er ->
  selectBestStream (streams er) options = Some sel ->
  download env extractors url options w
  = match Vocabulary.engine_call env url options er sel w with
    | None => None
    | Some (settled, st) =>
        let w3 :=
          {| activeDownloads :=
               <[generateId env := HttpClient.job st]>
                 (<[generateId env
                    := set_status downloading (Vocabulary.registered env url er)]>
                    (<[generateId env := Vocabulary.registered env url er]>
                       (activeDownloads w)));
             fs := HttpClient.fs st;
             log := HttpClient.log st |} in
        match settled with
        | HttpClient.Rejected e =>
            Some (catch (generateId env) (HttpClient.message e) w3)
        | HttpClient.Resolved _ =>
            finish env options (generateId env)
              (Vocabulary.target_path options er sel) (HttpClient.job st) w3
        | HttpClient.Pending => None
        end
    end.
Proof.
  intros Hex Hsel. unfold download. rewrite Hex. cbv zeta. rewrite Hsel.
  reflexivity.
Qed.

(** The whole of one call of [download]. *)
Lemma download_spec env extractors url options w r w' :
  download env extractors url options w = Some (r, w') ->
  exists tail n,
    log w' = (log w ++ tail)%list
    /\ (n <= 3)%nat
    /\ (requests tail = seq 0 n
        /\ match extract extractors url with
           | Ok er =>
               match selectBestStream (streams er) options with
               | Some sel =>
                   (1 <= n)%nat
                   /\ (forall i,
                          (S i < n)%nat ->
                          caught (bool_decide
                                    (Path.dirname
                                       (Vocabulary.target_path options er sel)
                                     ∈ fs w))
                                 (net env i) <> None)
                   /\ ((n < 3)%nat ->
                       caught (bool_decide
                                 (Path.dirname
                                    (Vocabulary.target_path options er sel)
                                  ∈ fs w))
                              (net env (pred n)) = None)
                   /\ downloading_percents tail = reported env n
               | None => n = O /\ downloading_percents tail = []
               end
           | Throw _ => n = O /\ downloading_percents tail = []
           end)
    /\ (forall q, In (Notify q) tail -> status q = completed -> progress q = 100%Z)
    /\ match extract extractors url with
       | Throw m =>
           r = Throw m
           /\ activeDownloads w' !! generateId env
              = failed m <$> (activeDownloads w !! generateId env)
       | Ok _ =>
           match r with
           | Ok _ =>
               activeDownloads w' !! generateId env = None
               /\ downloading_percents tail = reported env n
               /\ exists q, last tail = Some (Notify q)
                            /\ status q = completed /\ progress q = 100%Z
           | Throw m =>
               exists q, activeDownloads w' !! generateId env = Some (failed m q)
           end
       end.
Proof.
  unfold download. intros H.
  destruct (extract extractors url) as [er|m] eqn:Hex.
  2:{ injection H as H.
      destruct (catch_spec (generateId env) m w)
        as (Hr & Hmark & notes & Hl & Hst & Hdp & Hrq).
      rewrite H in Hr, Hmark, Hl. simpl in Hr, Hmark, Hl.
      exists notes, O. split; [exact Hl|]. split; [lia|].
      split; [split; [exact Hrq | split; [reflexivity | exact Hdp]]|].
      split; [|split; assumption].
      intros q Hq Hc. rewrite (Hst q Hq) in Hc. discriminate. }
  cbv zeta in H.
  set (id := generateId env) in *.
  set (p0 := {| downloadId := id; job_url := url; job_title := title er;
                progress := 0; downloadedBytes := 0; totalBytes := 0;
                speed := 0; status := pending; job_error := None |}) in *.
  destruct (selectBestStream (streams er) options) as [sel|].
  2:{ injection H as H.
      destruct (catch_spec id "No suitable stream found" (emit (Notify p0) (set_job id p0 w)))
        as (Hr & Hmark & notes & Hl & Hst & Hdp & Hrq).
      rewrite H in Hr, Hmark, Hl. simpl in Hr, Hmark, Hl.
      rewrite lookup_insert_eq in Hmark.
      exists (Notify p0 :: notes), O.
      split; [rewrite Hl, <- app_assoc; reflexivity|]. split; [lia|].
      split; [split; [exact Hrq | split; [reflexivity | exact Hdp]]|]. split.
      - intros q [[= <-]|Hq] Hc; [discriminate|].
        rewrite (Hst q Hq) in Hc. discriminate.
      - subst r. eexists. exact Hmark. }
  set (p1 := set_status downloading p0) in *.
  fold (Vocabulary.target_path options er sel) in H.
  set (filePath := Vocabulary.target_path options er sel) in *.
  set (w2 := emit (Notify p1) (set_job id p1 (emit (Notify p0) (set_job id p0 w)))) in *.
  destruct (HttpClient.downloadFile (net env) filePath 3 _) as [[settled st]|] eqn:Hdl;
    [|discriminate].
  pose proof (EngineSpec.downloadFile_last _ _ _ _ _ _ Hdl)
    as (n' & etail' & Hlog' & Hreq' & _ & Hall & Hlast).
  apply EngineSpec.downloadFile_inv in Hdl
    as (n & etail & Hlog & Hreq & Hn & Hnote & Hstat & Hpct & _).
  assert (etail' = etail) as ->
    by (rewrite Hlog in Hlog'; eapply app_inv_head; eauto).
  assert (n' = n) as ->.
  { rewrite Hreq in Hreq'. apply (f_equal List.length) in Hreq'.
    rewrite !length_seq in Hreq'. congruence. }
  clear Hlog' Hreq'.
  unfold dir_exists in Hall, Hlast.
  simpl in Hlog, Hnote, Hstat, Hpct, Hall, Hlast. specialize (Hpct eq_refl).
  set (w3 := {| activeDownloads := <[id := HttpClient.job st]> (activeDownloads w2);
                fs := HttpClient.fs st; log := HttpClient.log st |}) in *.
  assert (forall notes,
             downloading_percents notes = [] ->
             downloading_percents (Notify p0 :: Notify p1 :: etail ++ notes)
             = reported env n) as Hrep.
  { intros notes Hno.
    change (downloading_percents (Notify p0 :: Notify p1 :: etail ++ notes))
      with (0%Z :: downloading_percents (etail ++ notes)).
    rewrite EngineSpec.downloading_percents_app, Hpct, Hno, app_nil_r. reflexivity. }
  assert (forall notes,
             requests notes = [] ->
             requests (Notify p0 :: Notify p1 :: etail ++ notes) = seq 0 n) as Hrqs.
  { intros notes Hno.
    change (requests (Notify p0 :: Notify p1 :: etail ++ notes))
      with (requests (etail ++ notes)).
    rewrite EngineSpec.requests_app, Hreq, Hno, app_nil_r. reflexivity. }
  assert ((1 <= n)%nat
          /\ (forall i,
                 (S i < n)%nat ->
                 caught (bool_decide (Path.dirname filePath ∈ fs w)) (net env i)
                 <> None)
          /\ ((n < 3)%nat ->
              caught (bool_decide (Path.dirname filePath ∈ fs w))
                     (net env (pred n)) = None)) as (Hn1 & Hn2 & Hn3).
  { destruct n as [|k]; [destruct Hlast as [? _]; discriminate|].
    split; [lia|]. split; [exact Hall|]. intros Hk. simpl.
    destruct (caught _ (net env k)); [|reflexivity].
    destruct Hlast as [Hlast _]. lia. }
  assert (forall notes,
             (forall q, In (Notify q) notes -> status q = completed ->
                        progress q = 100%Z) ->
             forall q, In (Notify q) (Notify p0 :: Notify p1 :: etail ++ notes) ->
                       status q = completed -> progress q = 100%Z) as Hdone.
  { intros notes Hnotes q [[= <-]|[[= <-]|Hq]] Hc; try discriminate.
    apply in_app_or in Hq as [Hq|Hq]; [|auto].
    rewrite (Hnote q Hq) in Hc. discriminate. }
  assert (forall notes,
             log w3 ++ notes
             = (log w ++ Notify p0 :: Notify p1 :: etail ++ notes))%list as Hcat.
  { intros notes. simpl. rewrite Hlog. simpl.
    rewrite <- !app_assoc. reflexivity. }
  destruct settled as [path|e|]; [|injection H as H|discriminate].
  - destruct (finish_spec env options id filePath (HttpClient.job st) w3 r w' H)
      as (notes & Hl & Hdp & Hrq & Hcompl & Hend).
    exists (Notify p0 :: Notify p1 :: etail ++ notes)%list, n.
    split; [rewrite Hl; apply Hcat|]. split; [exact Hn|].
    split; [split; [apply Hrqs; exact Hrq|];
            split; [exact Hn1|]; split; [exact Hn2|]; split; [exact Hn3|];
            apply Hrep; exact Hdp|].
    split; [apply Hdone; exact Hcompl|].
    destruct r as [out|m]; simpl in Hend.
    + destruct Hend as (Hgone & q & Hlast' & Hq).
      split; [exact Hgone|]. split; [apply Hrep; exact Hdp|].
      exists q. split; [|exact Hq].
      change (Notify p0 :: Notify p1 :: etail ++ notes)%list
        with ([Notify p0; Notify p1] ++ (etail ++ notes))%list.
      rewrite !last_app, Hlast'. reflexivity.
    + rewrite lookup_insert_eq in Hend. eexists. exact Hend.
  - destruct (catch_spec id (HttpClient.message e) w3)
      as (Hr & Hmark & notes & Hl & Hst & Hdp & Hrq).
    rewrite H in Hr, Hmark, Hl. simpl in Hr, Hmark, Hl.
    rewrite lookup_insert_eq in Hmark.
    exists (Notify p0 :: Notify p1 :: etail ++ notes)%list, n.
    split; [rewrite Hl; apply Hcat|]. split; [exact Hn|].
    split; [split; [apply Hrqs; exact Hrq|];
            split; [exact Hn1|]; split; [exact Hn2|]; split; [exact Hn3|];
            apply Hrep; exact Hdp|].
    split.
    + apply Hdone. intros q Hq Hc. rewrite (Hst q Hq) in Hc. discriminate.
    + subst r. eexists. exact Hmark.
Qed.

Ltac settle_pair :=
  match goal with
  | |- exists _ _, Some ?x = Some (_, _) => destruct x; eauto
  end.

Lemma finish_total env options id filePath p w :
  answers env -> exists r w', finish env options id filePath p w = Some (r, w').
Proof.
  intros [_ Hexit]. unfold finish.
  destruct (opt_format options) as [f|]; [|settle_pair].
  destruct (Js.truthy f && AudioProcessor.isAudioFormat f); [|settle_pair].
  cbv zeta. unfold AudioProcessor.convertToAudio. cbv zeta.
  match goal with
  | |- context [AudioProcessor.ending (transcoder env ?c)] =>
      pose proof (Hexit c) as Hc;
      destruct (AudioProcessor.ending (transcoder env c))
  end; cbn [fst]; try contradiction;
    match goal with |- context [if ?c then _ else _] => destruct c end;
    settle_pair.
Qed.

(** [download] returns or throws when its environment settles every
    promise it awaits. *)
Lemma download_total env extractors url options w :
  answers env ->
  exists r w', download env extractors url options w = Some (r, w').
Proof.
  intros Henv. unfold download.
  destruct (extract extractors url) as [er|m]; [|settle_pair].
  cbv zeta.
  destruct (selectBestStream (streams er) options) as [sel|]; [|settle_pair].
  match goal with
  | |- context [HttpClient.downloadFile ?n ?f ?k ?st] =>
      destruct (EngineSpec.downloadFile_total n f k st) as (s & st' & Hrun);
      rewrite Hrun
  end.
  destruct s; [apply finish_total, Henv | settle_pair |].
  apply EngineSpec.downloadFile_pending in Hrun as (i & mk & _ & Ho).
  destruct (proj1 Henv i mk Ho).
Qed.

Lemma scenario_answers net :
  (forall i mk, HttpClient.outcome (net i)
                <> HttpClient.Responds mk HttpClient.BodyAborted) ->
  answers (Scenario.env_of net).
Proof. intros H. split; [exact H | discriminate]. Qed.







(** ** The job table *)

(** A completed job is gone from the table when [download] returns. *)
Lemma completed_job_is_removed env extractors url options w path w' :
  download env extractors url options w = Some (Ok path, w') ->
  activeDownloads w' !! generateId env = None.
Proof.
  intros Hrun.
  destruct (download_spec _ _ _ _ _ _ _ Hrun) as (tail & n & _ & _ & _ & _ & Hend).
  destruct (extract extractors url) as [er|m].
  - exact (proj1 Hend).
  - destruct Hend as [Hr _]. discriminate.
Qed.

(** A job that fails after it was registered is still in the table,
    marked as failed, when [download] rethrows. *)
Lemma failed_job_stays_listed env extractors url options w m w' er :
  download env extractors url options w = Some (Throw m, w') ->
  extract extractors url = Ok er ->
  exists q,
    activeDownloads w' !! generateId env = Some q
    /\ status q = error /\ job_error q = Some m
    /\ In q (getActiveDownloads w').
Proof.
  intros Hrun Hex.
  destruct (download_spec _ _ _ _ _ _ _ Hrun) as (tail & n & _ & _ & _ & _ & Hend).
  rewrite Hex in Hend. destruct Hend as [q Hq].
  exists (failed m q). split; [exact Hq|]. split; [reflexivity|].
  split; [reflexivity|].
  unfold getActiveDownloads. apply list_elem_of_In.
  apply list_elem_of_fmap. exists (generateId env, failed m q).
  split; [reflexivity|]. apply elem_of_map_to_list. exact Hq.
Qed.

(** A job whose extraction fails was never registered: the table keeps
    whatever it held under that identifier, marked as failed if there
    was such an entry. *)
Lemma unregistered_job_is_absent env extractors url options w m w' :
  download env extractors url options w = Some (Throw m, w') ->
  extract extractors url = Throw m ->
  activeDownloads w !! generateId env = None ->
  activeDownloads w' !! generateId env = None.
Proof.
  intros Hrun Hex Hfresh.
  destruct (download_spec _ _ _ _ _ _ _ Hrun) as (tail & n & _ & _ & _ & _ & Hend).
  rewrite Hex in Hend. destruct Hend as [_ ->]. rewrite Hfresh. reflexivity.
Qed.

(** C1 at a failing input.  With a server that refuses all three
    requests, [download] rethrows the download-failed error and the
    job is still in the table of active downloads, with status error:
    the entry is removed where the job completes, and not where it
    fails. *)
Theorem failed_download_stays_in_table :
  exists w' q,
    download (Scenario.env_of Scenario.unreachable) Scenario.registry
             Scenario.video_url Scenario.options0 Scenario.w0
    = Some (Throw "Download failed after 3 attempts: connect ECONNREFUSED", w')
    /\ activeDownloads w' !! "1700000000000_k3j9x2m1q" = Some q
    /\ status q = error
    /\ job_error q = Some "Download failed after 3 attempts: connect ECONNREFUSED"
    /\ getActiveDownloads w' = [q]
    /\ activeDownloads Scenario.w0 !! "1700000000000_k3j9x2m1q" = None.
Proof.
  destruct (download_total (Scenario.env_of Scenario.unreachable) Scenario.registry
              Scenario.video_url Scenario.options0 Scenario.w0) as (r & w' & Hrun).
  { apply scenario_answers. intros i mk. destruct i; discriminate. }
  assert (Some (r, getActiveDownloads w')
          = Some (Throw "Download failed after 3 attempts: connect ECONNREFUSED",
                  [failed "Download failed after 3 attempts: connect ECONNREFUSED"
                     (set_status downloading
                        {| downloadId := "1700000000000_k3j9x2m1q";
                           job_url := Scenario.video_url; job_title := "video";
                           progress := 0; downloadedBytes := 0; totalBytes := 0;
                           speed := 0; status := pending; job_error := None |})]))
    as E.
  { change (Some (r, getActiveDownloads w'))
      with ((fun x => (x.1, getActiveDownloads x.2)) <$> Some (r, w')).
    rewrite <- Hrun. vm_compute. reflexivity. }
  injection E as -> Hlist.
  destruct (failed_job_stays_listed _ _ _ _ _ _ _ _ Hrun eq_refl)
    as (q & Hq & Hstatus & Herr & Hin).
  exists w', q. split; [exact Hrun|]. split; [exact Hq|].
  split; [exact Hstatus|]. split; [exact Herr|]. split; [|reflexivity].
  rewrite Hlist in Hin |- *. destruct Hin as [<-|[]]. reflexivity.
Qed.




End DownloadSpec.

(** ** Strings and regular expressions *)

Module TextSpec.

Import Text.

Lemma length_app (a b : string) :
  String.length (a +:+ b) = (String.length a + String.length b)%nat.
Proof.
  induction a as [|c a IH]; [reflexivity|]. change (String c a +:+ b) with (String c (a +:+ b)).
  simpl. rewrite IH. reflexivity.
Qed.

Lemma app_cons (x : ascii) (a b : string) : String x a +:+ b = String x (a +:+ b).
Proof. reflexivity. Qed.

Lemma app_assoc (a b c : string) : (a +:+ b) +:+ c = a +:+ (b +:+ c).
Proof.
  induction a as [|x a IH]; [reflexivity|]. rewrite !app_cons. f_equal. exact IH.
Qed.

Lemma app_empty_r (a : string) : a +:+ "" = a.
Proof.
  induction a as [|x a IH]; [reflexivity|]. rewrite app_cons. f_equal. exact IH.
Qed.

Lemma take_app (a b : string) : take (String.length a) (a +:+ b) = a.
Proof.
  induction a as [|c a IH]; [reflexivity|]. rewrite app_cons. simpl. f_equal. exact IH.
Qed.

Lemma drop_app (a b : string) : Js.drop (String.length a) (a +:+ b) = b.
Proof.
  induction a as [|c a IH]; [reflexivity|]. rewrite app_cons. simpl. exact IH.
Qed.

Lemma ascii_eqb_eq (a b : ascii) : Js.ascii_eqb a b = true <-> a = b.
Proof. apply Ascii.eqb_eq. Qed.

(** [startsWith] is being a prefix. *)
Lemma startsWith_app (p s : string) :
  Js.startsWith p s = true <-> exists rest, s = p +:+ rest.
Proof.
  revert s. induction p as [|a p IH]; intros s; simpl.
  - split; [eauto | reflexivity].
  - destruct s as [|b s].
    + split; [discriminate | intros [rest H]; discriminate].
    + rewrite andb_true_iff, ascii_eqb_eq, IH. split.
      * intros [-> [rest ->]]. eauto.
      * intros [rest [= -> ->]]. eauto.
Qed.

Lemma startsWith_drop (p s : string) :
  Js.startsWith p s = true -> s = p +:+ Js.drop (String.length p) s.
Proof.
  intros H. apply startsWith_app in H as [rest ->]. rewrite drop_app. reflexivity.
Qed.

(** [includes] is occurring somewhere. *)
Lemma includes_app (p a b : string) : includes p (a +:+ p +:+ b) = true.
Proof.
  induction a as [|c a IH]; simpl.
  - destruct (p +:+ b) eqn:E; simpl;
      (apply orb_true_iff; left; apply startsWith_app; exists b; congruence).
  - rewrite IH. apply orb_true_r.
Qed.

Lemma includes_inv (p s : string) :
  includes p s = true -> exists a b, s = a +:+ p +:+ b.
Proof.
  induction s as [|c s IH]; simpl.
  - rewrite orb_false_r. intros H. apply startsWith_app in H as [rest ->].
    exists "", rest. reflexivity.
  - intros H. apply orb_true_iff in H as [H|H].
    + apply startsWith_app in H as [rest ->]. exists "", rest. reflexivity.
    + destruct (IH H) as (a & b & ->). exists (String c a), b. reflexivity.
Qed.

End TextSpec.

Module RegexSpec.

Import Text Regex TextSpec Vocabulary.

Lemma taken_app (a b : string) : taken (a +:+ b) b = a.
Proof.
  unfold taken. rewrite length_app.
  replace (String.length a + String.length b - String.length b)%nat
    with (String.length a) by lia.
  apply take_app.
Qed.

(** What [[cls]{n}] consumes. *)
Lemma rep_inv {R : Type} n cls : forall s (k : string -> option R) x,
  rep n cls s k = Some x ->
  exists run rest,
    s = run +:+ rest /\ String.length run = n /\ all cls run = true
    /\ k rest = Some x.
Proof.
  induction n as [|n IH]; intros s k x H; simpl in H.
  - exists "", s. auto.
  - destruct s as [|c s]; [discriminate|].
    destruct (cls c) eqn:Hc; [|discriminate].
    destruct (IH _ _ _ H) as (run & rest & -> & Hlen & Hall & Hk).
    exists (String c run), rest. simpl. rewrite Hc, Hall, Hlen. auto.
Qed.

(** What [[cls]+] consumes: at least one character. *)
Lemma plus_inv {R : Type} cls : forall s (k : string -> option R) x,
  plus cls s k = Some x ->
  exists run rest,
    s = run +:+ rest /\ run <> "" /\ all cls run = true /\ k rest = Some x.
Proof.
  induction s as [|c s IH]; intros k x H; simpl in H; [discriminate|].
  destruct (cls c) eqn:Hc; [|discriminate].
  destruct (plus cls s k) as [y|] eqn:Hp.
  - injection H as <-. destruct (IH _ _ Hp) as (run & rest & -> & _ & Hall & Hk).
    exists (String c run), rest. simpl. rewrite Hc, Hall.
    repeat split; auto; discriminate.
  - exists (String c ""), s. simpl. rewrite Hc.
    repeat split; auto; discriminate.
Qed.


Lemma suffix_refl s : suffix s s.
Proof. exists "". reflexivity. Qed.

Lemma suffix_trans a b c : suffix a b -> suffix b c -> suffix a c.
Proof. intros [p ->] [q ->]. exists (q +:+ p). rewrite app_assoc. reflexivity. Qed.

Lemma suffix_cons c a b : suffix a b -> suffix a (String c b).
Proof. intros [p ->]. exists (String c p). reflexivity. Qed.

(** A successful match hands a suffix of the subject to its
    continuation. *)
Lemma run_continues {R : Type} (r : re) :
  forall s cap (k : string -> option string -> option R) x,
    run r s cap k = Some x ->
    exists rest cap', suffix rest s /\ k rest cap' = Some x.
Proof.
  induction r as [p|a IHa b IHb|a IHa b IHb|a IHa|cls|n cls|a IHa];
    intros s cap k x H; simpl in H.
  - destruct (Js.startsWith p s) eqn:Hp; [|discriminate].
    exists (Js.drop (String.length p) s), cap. split; [|exact H].
    exists p. apply startsWith_drop. exact Hp.
  - destruct (IHa _ _ _ _ H) as (s1 & c1 & Hs1 & H1).
    destruct (IHb _ _ _ _ H1) as (s2 & c2 & Hs2 & H2).
    exists s2, c2. split; [eapply suffix_trans; eassumption | exact H2].
  - destruct (run a s cap k) as [y|] eqn:Ha.
    + injection H as <-. eauto.
    + eauto.
  - destruct (run a s cap k) as [y|] eqn:Ha.
    + injection H as <-. eauto.
    + exists s, cap. split; [apply suffix_refl | exact H].
  - apply plus_inv in H as (run & rest & -> & _ & _ & Hk).
    exists rest, cap. split; [exists run; reflexivity | exact Hk].
  - apply rep_inv in H as (run & rest & -> & _ & _ & Hk).
    exists rest, cap. split; [exists run; reflexivity | exact Hk].
  - destruct (IHa _ _ _ _ H) as (s1 & c1 & Hs1 & H1). eauto.
Qed.


Lemma includes_suffix g s t : suffix s t -> includes g s = true -> includes g t = true.
Proof.
  intros [pre ->] H. apply includes_inv in H as (a & b & ->).
  rewrite <- app_assoc. apply includes_app.
Qed.

Lemma captures_rep pre n cls :
  n <> O ->
  captures (fun g => String.length g = n /\ all cls g = true)
           (Seq pre (Cap (Rep n cls))).
Proof.
  intros Hn s m H. unfold match_here in H. simpl in H.
  apply run_continues in H as (s1 & c1 & Hs1 & H).
  apply rep_inv in H as (g & rest & -> & Hlen & Hall & Hk).
  rewrite taken_app in Hk. injection Hk as <-.
  exists g. split; [reflexivity|]. split; [|split; [auto|]].
  - intros ->. simpl in Hlen. congruence.
  - eapply includes_suffix; [exact Hs1|]. apply (includes_app g "" rest).
Qed.

Lemma captures_plus pre cls :
  captures (fun g => all cls g = true) (Seq pre (Cap (Plus cls))).
Proof.
  intros s m H. unfold match_here in H. simpl in H.
  apply run_continues in H as (s1 & c1 & Hs1 & H).
  apply plus_inv in H as (g & rest & -> & Hne & Hall & Hk).
  rewrite taken_app in Hk. injection Hk as <-.
  exists g. split; [reflexivity|]. split; [exact Hne|]. split; [exact Hall|].
  eapply includes_suffix; [exact Hs1|]. apply (includes_app g "" rest).
Qed.

Lemma search_inv r : forall s m,
  search r s = Some m -> exists t, suffix t s /\ match_here r t = Some m.
Proof.
  induction s as [|c s IH]; intros m H; simpl in H.
  - destruct (match_here r "") as [y|] eqn:E; [|discriminate].
    injection H as <-. exists "". split; [apply suffix_refl | exact E].
  - destruct (match_here r (String c s)) as [y|] eqn:E.
    + injection H as <-. exists (String c s). split; [apply suffix_refl | exact E].
    + destruct (IH _ H) as (t & Ht & Hm). exists t.
      split; [apply suffix_cons; exact Ht | exact Hm].
Qed.

(** For such a pattern [test] and a usable group 1 go together. *)
Lemma captures_group1 P r s :
  captures P r ->
  (test r s = true <-> exists g, group1 r s = Some g)
  /\ (forall g, group1 r s = Some g -> g <> "" /\ P g /\ includes g s = true).
Proof.
  intros Hcap. unfold test, group1.
  destruct (search r s) as [m|] eqn:Hs.
  - destruct (search_inv _ _ _ Hs) as (t & Ht & Hm).
    destruct (Hcap _ _ Hm) as (g & -> & Hne & HP & Hin).
    assert (Js.truthy g = true) as Htr.
    { unfold Js.truthy. destruct (String.eqb_spec g ""); [contradiction | reflexivity]. }
    rewrite Htr. split; [split; eauto|].
    intros g' [= <-]. split; [exact Hne|]. split; [exact HP|].
    eapply includes_suffix; eassumption.
  - split; [split; [discriminate | intros [g H]; discriminate]|].
    intros g H. discriminate.
Qed.

(** The loop over the patterns finds an identifier exactly when some
    pattern matches. *)
Lemma first_group_spec P patterns s :
  Forall (captures P) patterns ->
  (existsb (fun r => test r s) patterns = true
   <-> exists g, first_group patterns s = Some g)
  /\ (forall g, first_group patterns s = Some g ->
                g <> "" /\ P g /\ includes g s = true).
Proof.
  induction 1 as [|r rest Hr Hrest [IH1 IH2]]; simpl.
  - split; [split; [discriminate | intros [g H]; discriminate]|].
    intros g H. discriminate.
  - destruct (captures_group1 P r s Hr) as [Ht Hg].
    destruct (group1 r s) as [g|] eqn:Eg.
    + split.
      * split; [eauto|]. intros _. apply orb_true_iff. left. apply Ht. eauto.
      * intros g' [= <-]. apply Hg. reflexivity.
    + split; [|exact IH2].
      rewrite orb_true_iff, IH1. split; [|auto].
      intros [H|H]; [|exact H]. apply Ht in H as [g H]. discriminate.
Qed.

End RegexSpec.

(** ** The platform extractors *)

Module ExtractorSpec.

Import Text Regex TextSpec RegexSpec Vocabulary.

Lemma captures_weaken (P Q : string -> Prop) r :
  (forall g, P g -> Q g) -> captures P r -> captures Q r.
Proof.
  intros HPQ Hc s m H. destruct (Hc s m H) as (g & -> & Hne & HP & Hin).
  exists g. auto.
Qed.

Lemma all_weaken (p q : ascii -> bool) s :
  (forall c, p c = true -> q c = true) -> all p s = true -> all q s = true.
Proof.
  intros Hpq. induction s as [|c s IH]; simpl; [reflexivity|].
  intros H. apply andb_prop in H as [Hc Hs]. rewrite (Hpq c Hc), (IH Hs). reflexivity.
Qed.

(** A URL is accepted by the YouTube extractor exactly when a video
    identifier can be extracted from it, and the identifier then has
    eleven characters, all letters, digits, underscores or hyphens, and
    occurs in the URL: [extract] never rejects an accepted URL as
    invalid. *)
Theorem youtube_accepts_iff_video_id (url : string) :
  (YouTube.test url = true <-> exists id, YouTube.extractVideoId url = Some id)
  /\ (forall id,
        YouTube.extractVideoId url = Some id ->
        String.length id = 11%nat
        /\ all YouTube.idchar id = true
        /\ includes id url = true).
Proof.
  assert (Forall (captures (fun g => String.length g = 11%nat
                                     /\ all YouTube.idchar g = true))
                 YouTube.patterns) as Hpat.
  { unfold YouTube.patterns, YouTube.id.
    repeat (constructor; [apply captures_rep; discriminate|]). constructor. }
  destruct (first_group_spec _ _ url Hpat) as [Hiff Hid].
  split; [exact Hiff|].
  intros id H. destruct (Hid id H) as (_ & [Hlen Hall] & Hin). auto.
Qed.

Lemma tiktok_patterns_capture :
  Forall (captures (fun g => all word g = true)) TikTok.patterns.
Proof.
  assert (forall c, digit c = true -> word c = true) as Hdw.
  { intros c H. unfold word, digit in *. rewrite H. apply orb_true_iff. left.
    apply orb_true_r. }
  assert (forall c, TikTok.token c = true -> word c = true) as Htw.
  { intros c H. unfold TikTok.token in H. apply orb_true_iff in H as [H|H]; auto. }
  assert (Forall (captures (fun g => all word g = true)) TikTok.patterns) as Hpat.
  { unfold TikTok.patterns.
    constructor; [eapply captures_weaken; [|apply captures_plus];
                  intros g; apply all_weaken; exact Hdw|].
    constructor; [eapply captures_weaken; [|apply captures_plus];
                  intros g; apply all_weaken; exact Htw|].
    constructor; [eapply captures_weaken; [|apply captures_plus];
                  intros g; apply all_weaken; exact Htw|].
    constructor; [eapply captures_weaken; [|apply captures_plus];
                  intros g; apply all_weaken; exact Hdw|].
    constructor. }
  exact Hpat.
Qed.

(** A URL is accepted by the TikTok extractor exactly when an
    identifier can be extracted from it; the identifier is then a
    non-empty run of word characters that occurs in the URL. *)
Theorem tiktok_accepts_iff_video_id (url : string) :
  (TikTok.test url = true <-> exists id, TikTok.extractVideoId url = Some id)
  /\ (forall id,
        TikTok.extractVideoId url = Some id ->
        id <> "" /\ all word id = true /\ includes id url = true).
Proof.
  destruct (first_group_spec _ _ url tiktok_patterns_capture) as [Hiff Hid].
  split; [exact Hiff | exact Hid].
Qed.


Lemma youtube_mapQuality_range label : In (YouTube.mapQuality label) youtube_labels.
Proof.
  unfold YouTube.mapQuality, youtube_labels.
  repeat match goal with
         | |- context [if ?c then _ else _] => destruct c
         end; simpl; tauto.
Qed.



Lemma tiktok_mapQuality_range quality : In (TikTok.mapQuality quality) tiktok_labels.
Proof.
  unfold TikTok.mapQuality, tiktok_labels.
  repeat match goal with
         | |- context [if ?c then _ else _] => destruct c
         end; simpl; tauto.
Qed.



Lemma plus_stops {R : Type} cls rest (k : string -> option R) :
  stops cls rest -> plus cls rest k = None.
Proof. destruct rest as [|c r]; simpl; [reflexivity | intros ->; reflexivity]. Qed.

(** A greedy run takes all of a maximal run when the continuation
    accepts what follows. *)
Lemma plus_greedy {R : Type} cls rest (k : string -> option R) x : forall body,
  body <> "" -> all cls body = true -> stops cls rest -> k rest = Some x ->
  plus cls (body +:+ rest) k = Some x.
Proof.
  induction body as [|c body IH]; intros Hne Hall Hstop Hk; [congruence|].
  simpl in Hall. apply andb_prop in Hall as [Hc Hall].
  rewrite app_cons. simpl. rewrite Hc.
  destruct body as [|d body].
  - change ("" +:+ rest) with rest.
    rewrite (plus_stops cls rest k Hstop). exact Hk.
  - rewrite IH by (auto; discriminate). reflexivity.
Qed.

Lemma search_skip r t s :
  (forall c u, In c (list_ascii_of_string t) -> match_here r (String c u) = None) ->
  search r (t +:+ s) = search r s.
Proof.
  induction t as [|c t IH]; intros H; [reflexivity|].
  rewrite app_cons. simpl. rewrite (H c (t +:+ s)) by (left; reflexivity).
  apply IH. intros d u Hd. apply H. right. exact Hd.
Qed.

(** For a MIME type [type/subtype...] whose type holds no slash, the
    YouTube extractor's format is the subtype up to its first character
    that is not a letter, a digit or an underscore. *)
Theorem youtube_extractFormat_subtype (type sub rest : string) :
  all (fun c => negb (Js.ascii_eqb c "/")) type = true ->
  sub <> "" -> all word sub = true -> stops word rest ->
  YouTube.extractFormat (type +:+ "/" +:+ sub +:+ rest) = sub.
Proof.
  intros Htype Hne Hsub Hstop. unfold YouTube.extractFormat, group1.
  rewrite search_skip.
  - assert (match_here YouTube.subtype ("/" +:+ sub +:+ rest) = Some (Some sub)) as Hm.
    { unfold match_here, YouTube.subtype. cbn [run].
      rewrite (proj2 (startsWith_app "/" ("/" +:+ sub +:+ rest)))
        by (exists (sub +:+ rest); reflexivity).
      rewrite (drop_app "/" (sub +:+ rest)).
      apply (plus_greedy word rest _ _ sub); auto.
      rewrite taken_app. reflexivity. }
    change ("/" +:+ sub +:+ rest) with (String "/" (sub +:+ rest)) in *.
    simpl. rewrite Hm.
    rewrite (proj2 (SelectionSpec.truthy_nonempty sub) Hne). reflexivity.
  - intros c u Hc.
    assert (Js.ascii_eqb "/" c = false) as Hslash.
    { clear - Htype Hc. induction type as [|d t IH]; simpl in Hc; [contradiction|].
      cbn [all] in Htype. apply andb_prop in Htype as [Hd Ht].
      destruct Hc as [<-|Hc]; [|auto].
      apply negb_true_iff in Hd. unfold Js.ascii_eqb in *.
      rewrite Ascii.eqb_sym. exact Hd. }
    unfold match_here, YouTube.subtype. cbn [run Js.startsWith].
    rewrite Hslash. reflexivity.
Qed.

Lemma youtube_extractFormat_subtype_witness :
  YouTube.extractFormat ("video" +:+ "/" +:+ "mp4" +:+ "; codecs=avc1.64001F") = "mp4".
Proof.
  apply (youtube_extractFormat_subtype "video" "mp4" "; codecs=avc1.64001F");
    [reflexivity | discriminate | reflexivity | reflexivity].
Defined.

End ExtractorSpec.

(** ** Helpers of the extractors and of the command line *)

Module HelperSpec.

Import Vocabulary.

Section RetrySpec.

Variable A : Type.
Variable fn : nat -> result A.
Variable maxRetries : nat.
Variable baseDelay : Z.

Lemma retry_loop_fails fuel attempt last trace m :
  (attempt < maxRetries)%nat -> fn attempt = Throw m ->
  BaseExtractor.retry_loop A fn maxRetries baseDelay (S fuel) attempt last trace
  = BaseExtractor.retry_loop A fn maxRetries baseDelay fuel (S attempt) m
      (trace ++ [BaseExtractor.Called attempt;
                 BaseExtractor.Slept (baseDelay * 2 ^ Z.of_nat attempt)])%list.
Proof.
  intros Hlt Hm. simpl. rewrite Hm.
  destruct (Nat.leb_spec attempt maxRetries); [|lia].
  destruct (Nat.eqb_spec attempt maxRetries); [lia|].
  rewrite <- List.app_assoc. reflexivity.
Qed.

Lemma retry_loop_ends fuel attempt last trace :
  (attempt <= maxRetries)%nat ->
  match fn attempt with Ok _ => True | Throw _ => attempt = maxRetries end ->
  BaseExtractor.retry_loop A fn maxRetries baseDelay (S fuel) attempt last trace
  = Some (fn attempt, (trace ++ [BaseExtractor.Called attempt])%list).
Proof.
  intros Hle Hend. simpl.
  destruct (Nat.leb_spec attempt maxRetries); [|lia].
  destruct (fn attempt) as [a|m]; [reflexivity|].
  subst attempt. rewrite Nat.eqb_refl. reflexivity.
Qed.

Lemma retry_loop_skip d : forall fuel attempt last trace,
  (attempt + d <= maxRetries)%nat ->
  (forall i, (attempt <= i < attempt + d)%nat -> exists m, fn i = Throw m) ->
  exists last',
    BaseExtractor.retry_loop A fn maxRetries baseDelay (d + fuel) attempt last trace
    = BaseExtractor.retry_loop A fn maxRetries baseDelay fuel (attempt + d) last'
        (trace ++ flat_map (fun i => [BaseExtractor.Called i;
                                      BaseExtractor.Slept (baseDelay * 2 ^ Z.of_nat i)])
                           (seq attempt d))%list.
Proof.
  induction d as [|d IH]; intros fuel attempt last trace Hle Hfail.
  - exists last. rewrite Nat.add_0_r, app_nil_r. reflexivity.
  - destruct (Hfail attempt ltac:(lia)) as [m Hm].
    change (S d + fuel)%nat with (S (d + fuel)).
    rewrite (retry_loop_fails (d + fuel) attempt last trace m ltac:(lia) Hm).
    destruct (IH fuel (S attempt) m
                (trace ++ [BaseExtractor.Called attempt;
                           BaseExtractor.Slept (baseDelay * 2 ^ Z.of_nat attempt)])%list)
      as [last' Hrun]; [lia | intros i Hi; apply Hfail; lia |].
    exists last'. rewrite Hrun. rewrite <- List.app_assoc.
    replace (S attempt + d)%nat with (attempt + S d)%nat by lia. reflexivity.
Qed.

Lemma slept_backoff k :
  slept (backoff baseDelay k) = (baseDelay * (2 ^ Z.of_nat k - 1))%Z.
Proof.
  unfold backoff.
  assert (forall a rest,
             slept (flat_map (fun i => [BaseExtractor.Called i;
                                        BaseExtractor.Slept (baseDelay * 2 ^ Z.of_nat i)])
                             (seq a k) ++ rest)
             = (baseDelay * 2 ^ Z.of_nat a * (2 ^ Z.of_nat k - 1) + slept rest)%Z) as H.
  { induction k as [|n IH]; intros a rest.
    - simpl. lia.
    - simpl. rewrite IH. rewrite !Nat2Z.inj_succ, !Z.pow_succ_r by lia. lia. }
  rewrite H. simpl. lia.
Qed.

Lemma length_backoff k : List.length (backoff baseDelay k) = (2 * k + 1)%nat.
Proof.
  unfold backoff. rewrite List.length_app. simpl.
  assert (forall a, List.length
                      (flat_map (fun i => [BaseExtractor.Called i;
                                           BaseExtractor.Slept (baseDelay * 2 ^ Z.of_nat i)])
                                (seq a k)) = (2 * k)%nat) as H.
  { induction k as [|n IH]; intros a; simpl; [reflexivity|]. rewrite IH. lia. }
  rewrite H. lia.
Qed.

(** [retry] calls [fn] until a call succeeds or [maxRetries + 1] calls
    have failed, and waits [baseDelay * 2 ^ i] after the failure of
    call [i]: when call [k] is the first that succeeds, or the last
    allowed one, its outcome is returned as it is (a failure is
    rethrown unchanged) after [k + 1] calls and a total wait of
    [baseDelay * (2 ^ k - 1)]. *)
Theorem retry_exponential_backoff (k : nat) :
  (k <= maxRetries)%nat ->
  (forall i, (i < k)%nat -> exists m, fn i = Throw m) ->
  match fn k with Ok _ => True | Throw _ => k = maxRetries end ->
  BaseExtractor.retry A fn maxRetries baseDelay
  = Some (fn k, backoff baseDelay k)
  /\ slept (backoff baseDelay k) = (baseDelay * (2 ^ Z.of_nat k - 1))%Z
  /\ List.length (backoff baseDelay k) = (2 * k + 1)%nat.
Proof.
  intros Hk Hfail Hend. split; [|split; [apply slept_backoff|]].
  - unfold BaseExtractor.retry.
    destruct (retry_loop_skip k (S (S maxRetries - k)) 0 "undefined" [])
      as [last' Hrun]; [lia | intros i Hi; apply Hfail; lia |].
    replace (S (S maxRetries)) with (k + S (S maxRetries - k))%nat by lia.
    rewrite Hrun. simpl (0 + k)%nat.
    rewrite retry_loop_ends by assumption. reflexivity.
  - apply length_backoff.
Qed.

End RetrySpec.

Lemma retry_exponential_backoff_witness :
  BaseExtractor.retry nat (fun i => if (i <? 2)%nat then Throw "busy" else Ok i) 3 1000
  = Some (Ok 2%nat, backoff 1000 2)
  /\ slept (backoff 1000 2) = 3000%Z
  /\ BaseExtractor.retry nat (fun i => Throw (pretty i)) 3 1000
     = Some (Throw "3", backoff 1000 3)
  /\ slept (backoff 1000 3) = 7000%Z.
Proof.
  destruct (retry_exponential_backoff nat
              (fun i => if (i <? 2)%nat then Throw "busy" else Ok i) 3 1000 2)
    as (H1 & H2 & _).
  { lia. }
  { intros i Hi. exists "busy". destruct i as [|[|i]]; [reflexivity | reflexivity | lia]. }
  { exact I. }
  destruct (retry_exponential_backoff nat (fun i => Throw (pretty i)) 3 1000 3)
    as (H3 & H4 & _).
  { lia. }
  { intros i Hi. eexists. reflexivity. }
  { reflexivity. }
  split; [exact H1|]. split; [exact H2|]. split; [exact H3 | exact H4].
Defined.

(** [normalizeUrl] is idempotent: its result starts with one of the
    two schemes, is either the URL itself or the URL behind [https://],
    and is left alone by a second pass. *)
Theorem normalizeUrl_idempotent (url : string) :
  let n := BaseExtractor.normalizeUrl url in
  (Js.startsWith "http://" n || Js.startsWith "https://" n = true)
  /\ (n = url \/ n = "https://" +:+ url)
  /\ BaseExtractor.normalizeUrl n = n.
Proof.
  assert (Js.startsWith "http://" (BaseExtractor.normalizeUrl url)
          || Js.startsWith "https://" (BaseExtractor.normalizeUrl url) = true) as H.
  { unfold BaseExtractor.normalizeUrl.
    destruct (Js.startsWith "http://" url) eqn:H1; cbn [negb andb];
      [rewrite H1; reflexivity|].
    destruct (Js.startsWith "https://" url) eqn:H2; cbn [negb andb].
    - rewrite H1, H2. reflexivity.
    - apply orb_true_iff. right. apply TextSpec.startsWith_app. eauto. }
  cbv zeta. split; [exact H|]. split.
  - unfold BaseExtractor.normalizeUrl.
    destruct (negb _ && negb _); auto.
  - apply orb_true_iff in H.
    unfold BaseExtractor.normalizeUrl at 1.
    destruct H as [-> | ->]; [reflexivity | rewrite andb_false_r; reflexivity].
Qed.

(** *** The progress bar *)

Section Cells.

Import Double DoubleSpec.

Local Open Scope Q_scope.

Lemma filled_cells_range progress width :
  (0 <= progress <= 100)%Z -> (0 <= width < 2 ^ 53)%Z ->
  (0 <= Cli.filled_cells progress width <= width)%Z.
Proof.
  intros [Hp0 Hp1] [Hw0 Hw1]. unfold Cli.filled_cells, mul, div.
  pose proof (of_Z_exact width ltac:(lia)) as Ew.
  pose proof (of_Z_nonneg progress Hp0) as P0.
  assert (of_Z progress <= 100) as P1.
  { rewrite <- (of_Z_exact 100 eq_refl). apply of_Z_mono. exact Hp1. }
  assert (0 <= inject_Z width) as W0
    by (change 0 with (inject_Z 0); rewrite <- Zle_Qle; exact Hw0).
  assert (0 <= round (of_Z progress / 100) <= 1) as [R0 R1].
  { split.
    - apply round_nonneg. apply Qle_shift_div_l; [reflexivity|]. lra.
    - rewrite <- round_1. apply round_mono.
      apply Qle_shift_div_r; [reflexivity|]. lra. }
  set (r := round (of_Z progress / 100)) in *.
  split.
  - change 0%Z with (Math_round 0). apply Math_round_mono, round_nonneg.
    rewrite Ew. apply Qmult_le_0_compat; assumption.
  - apply Z.le_trans with (Math_round (inject_Z width));
      [|rewrite Math_round_inject; lia].
    apply Math_round_mono.
    apply Qle_trans with (round (inject_Z width)); [|fold (of_Z width); lra].
    apply round_mono. rewrite Ew.
    apply Qle_trans with (1 * inject_Z width); [|lra].
    apply Qmult_le_compat_r; assumption.
Qed.

Lemma filled_cells_mono p q width :
  (0 <= width)%Z -> (p <= q)%Z -> (Cli.filled_cells p width <= Cli.filled_cells q width)%Z.
Proof.
  intros Hw Hpq. unfold Cli.filled_cells, mul, div.
  apply Math_round_mono, round_mono.
  apply Qmult_le_compat_r; [|apply of_Z_nonneg, Hw].
  apply round_mono.
  apply Qmult_le_compat_r; [apply of_Z_mono, Hpq|discriminate].
Qed.

Lemma filled_cells_overrun p : (102 <= p)%Z -> (31 <= Cli.filled_cells p 30)%Z.
Proof.
  intros H. change 31%Z with (Cli.filled_cells 102 30). apply filled_cells_mono; [lia|exact H].
Qed.

End Cells.

(** The bar has exactly [width] cells, the filled ones first, whenever
    it is drawn at all; it is drawn for every percentage between 0 and
    100, with a number of filled cells that grows with the percentage,
    and [createProgressBar] throws exactly when the rounded number of
    filled cells is negative or exceeds the width.  The number of
    filled cells is the one double precision gives; the width is at
    most 2^24, well below the longest string of the engine. *)
Theorem createProgressBar_width (progress width : Z) :
  (0 <= width <= 2 ^ 24)%Z ->
  match Cli.createProgressBar progress width with
  | Ok bar =>
      List.length bar = Z.to_nat width
      /\ bar = (replicate (Z.to_nat (Cli.filled_cells progress width)) Cli.Filled
                ++ replicate (Z.to_nat (width - Cli.filled_cells progress width))
                     Cli.Blank)%list
      /\ (0 <= Cli.filled_cells progress width <= width)%Z
  | Throw _ =>
      (Cli.filled_cells progress width < 0
       \/ width < Cli.filled_cells progress width)%Z
  end
  /\ ((0 <= progress <= 100)%Z ->
      exists bar, Cli.createProgressBar progress width = Ok bar)
  /\ (forall p q, (p <= q)%Z ->
                  (Cli.filled_cells p width <= Cli.filled_cells q width)%Z).
Proof.
  intros [Hw Hw'].
  assert (forall f : Z,
             (0 <= f <= width)%Z ->
             (let filled := f in
              match Cli.repeat_cell Cli.Filled filled with
              | Throw m => Throw m
              | Ok a =>
                  match Cli.repeat_cell Cli.Blank (width - filled) with
                  | Throw m => Throw m
                  | Ok b => Ok (a ++ b)%list
                  end
              end)
             = Ok (replicate (Z.to_nat f) Cli.Filled
                   ++ replicate (Z.to_nat (width - f)) Cli.Blank)%list) as Hok.
  { intros f Hf. cbv zeta. unfold Cli.repeat_cell.
    destruct (Z.ltb_spec f 0); [lia|].
    destruct (Z.ltb_spec (width - f) 0); [lia|]. reflexivity. }
  split; [|split].
  - unfold Cli.createProgressBar. cbv zeta.
    set (f := Cli.filled_cells progress width).
    destruct (Z.ltb_spec f 0) as [Hneg|Hpos].
    { unfold Cli.repeat_cell. destruct (Z.ltb_spec f 0); [|lia]. left. assumption. }
    destruct (Z.ltb_spec width f) as [Hover|Hin].
    { unfold Cli.repeat_cell. destruct (Z.ltb_spec f 0); [lia|].
      destruct (Z.ltb_spec (width - f) 0); [|lia]. right. assumption. }
    specialize (Hok f ltac:(lia)). cbv zeta in Hok. rewrite Hok.
    split; [|split; [reflexivity | lia]].
    rewrite List.length_app, !length_replicate. lia.
  - intros Hp. unfold Cli.createProgressBar.
    pose proof (filled_cells_range progress width Hp ltac:(lia)) as Hf.
    specialize (Hok _ Hf). cbv zeta in Hok |- *. rewrite Hok. eauto.
  - intros p q. apply filled_cells_mono. exact Hw.
Qed.

Lemma createProgressBar_width_witness :
  exists bar, Cli.createProgressBar 50 30 = Ok bar /\ List.length bar = 30%nat.
Proof.
  destruct (createProgressBar_width 50 30 ltac:(vm_compute; split; discriminate))
    as (Hbar & Hdraw & _).
  destruct (Hdraw ltac:(lia)) as [bar Hb]. rewrite Hb in Hbar.
  exists bar. split; [exact Hb | exact (proj1 Hbar)].
Defined.

(** *** The request headers *)

(** In the headers of a GET the caller's entries win over the
    platform's and the defaults; a header the caller leaves out comes
    from the platform headers, else from the defaults, so a User-Agent
    is always sent; and a URL that mentions tiktok.com gets the TikTok
    referer even when it mentions youtube.com too. *)
Theorem caller_headers_win (userAgent url : string) (headers : Headers) :
  (forall k v, headers !! k = Some v ->
               RequestHeaders.requestHeaders userAgent url headers !! k = Some v)
  /\ (forall k, headers !! k = None ->
                RequestHeaders.requestHeaders userAgent url headers !! k
                = (RequestHeaders.platformHeaders url
                   ∪ RequestHeaders.defaults userAgent) !! k)
  /\ is_Some (RequestHeaders.requestHeaders userAgent url headers !! "User-Agent")
  /\ (headers !! "User-Agent" = None ->
      RequestHeaders.requestHeaders userAgent url headers !! "User-Agent"
      = Some userAgent)
  /\ (headers !! "Referer" = None ->
      RequestHeaders.requestHeaders userAgent url headers !! "Referer"
      = if Text.includes "tiktok.com" url then Some "https://www.tiktok.com/"
        else if Text.includes "youtube.com" url
                || Text.includes "googlevideo.com" url
             then Some "https://www.youtube.com/"
             else None).
Proof.
  assert (forall k v, headers !! k = Some v ->
                      RequestHeaders.requestHeaders userAgent url headers !! k = Some v)
    as Hwin.
  { intros k v H. unfold RequestHeaders.requestHeaders.
    apply lookup_union_Some_l. exact H. }
  assert (forall k, headers !! k = None ->
                    RequestHeaders.requestHeaders userAgent url headers !! k
                    = (RequestHeaders.platformHeaders url
                       ∪ RequestHeaders.defaults userAgent) !! k) as Hrest.
  { intros k H. unfold RequestHeaders.requestHeaders.
    apply lookup_union_r. exact H. }
  assert ((RequestHeaders.platformHeaders url ∪ RequestHeaders.defaults userAgent)
            !! "User-Agent" = Some userAgent) as Hua.
  { unfold RequestHeaders.platformHeaders.
    destruct (Text.includes "tiktok.com" url);
      [|destruct (Text.includes "youtube.com" url || Text.includes "googlevideo.com" url)];
      (rewrite lookup_union_r by reflexivity); reflexivity. }
  split; [exact Hwin|]. split; [exact Hrest|]. split; [|split].
  - destruct (headers !! "User-Agent") as [v|] eqn:E.
    + rewrite (Hwin _ _ E). eauto.
    + rewrite (Hrest _ E), Hua. eauto.
  - intros E. rewrite (Hrest _ E). exact Hua.
  - intros E. rewrite (Hrest _ E). unfold RequestHeaders.platformHeaders.
    destruct (Text.includes "tiktok.com" url);
      [|destruct (Text.includes "youtube.com" url || Text.includes "googlevideo.com" url)].
    + apply lookup_union_Some_l. reflexivity.
    + apply lookup_union_Some_l. reflexivity.
    + rewrite lookup_union_r by reflexivity. reflexivity.
Qed.

(** *** The URL signature *)

Lemma to_int32_spec z :
  (exists q, Signature.to_int32 z = z + q * 4294967296)%Z
  /\ (-2147483648 <= Signature.to_int32 z < 2147483648)%Z.
Proof.
  unfold Signature.to_int32. change (2 ^ 32)%Z with 4294967296%Z.
  change (2 ^ 31)%Z with 2147483648%Z.
  pose proof (Z.mod_pos_bound z 4294967296 ltac:(lia)) as Hb.
  pose proof (Z.div_mod z 4294967296 ltac:(lia)) as Hd.
  destruct (Z.ltb_spec (z mod 4294967296) 2147483648); split; try lia.
  - exists (- (z / 4294967296))%Z. lia.
  - exists (- (z / 4294967296) - 1)%Z. lia.
Qed.

Lemma int32_unique x y k :
  (-2147483648 <= x < 2147483648)%Z -> (-2147483648 <= y < 2147483648)%Z ->
  (x = y + k * 4294967296)%Z -> x = y.
Proof. intros Hx Hy H. lia. Qed.

(** One round of the loop multiplies by 31 and adds the character
    code, modulo 2 ^ 32. *)
Lemma round_poly H c :
  Signature.round (Signature.to_int32 H) c
  = Signature.to_int32 (31 * H + Signature.charCode c).
Proof.
  unfold Signature.round.
  destruct (to_int32_spec H) as [[q1 E1] _].
  destruct (to_int32_spec (Signature.to_int32 H * 32)) as [[q2 E2] _].
  destruct (to_int32_spec (Signature.to_int32 (Signature.to_int32 H * 32)
                           - Signature.to_int32 H + Signature.charCode c))
    as [[q3 E3] R3].
  destruct (to_int32_spec (31 * H + Signature.charCode c)) as [[q4 E4] R4].
  apply (int32_unique _ _ (q3 + q2 + 31 * q1 - q4) R3 R4). lia.
Qed.

Lemma hash_poly l : forall H,
  fold_left Signature.round l (Signature.to_int32 H)
  = Signature.to_int32
      (fold_left (fun h c => 31 * h + Signature.charCode c)%Z l H).
Proof.
  induction l as [|c l IH]; intros H; simpl; [reflexivity|].
  rewrite round_poly. apply IH.
Qed.

(** The signature is the hexadecimal spelling of the absolute value of
    the 32-bit polynomial hash (base 31) of the URL followed by the
    timestamp; read back as hexadecimal it gives that value, which is
    at most 2 ^ 31. *)
Theorem signature_is_polynomial_hash (url : string) (timestamp : Z) :
  let base := url +:+ pretty timestamp in
  Signature.hash_of base = Signature.to_int32 (poly base)
  /\ (-2147483648 <= Signature.hash_of base < 2147483648)%Z
  /\ HexString.Raw.to_N (Signature.generateUrlSignature url timestamp) 0
     = Z.to_N (Z.abs (Signature.hash_of base))
  /\ (Z.abs (Signature.hash_of base) <= 2147483648)%Z.
Proof.
  cbv zeta. set (base := url +:+ pretty timestamp).
  assert (Signature.hash_of base = Signature.to_int32 (poly base)) as Hh.
  { unfold Signature.hash_of, poly.
    change 0%Z with (Signature.to_int32 0) at 1. apply hash_poly. }
  pose proof (proj2 (to_int32_spec (poly base))) as Hr. rewrite <- Hh in Hr.
  split; [exact Hh|]. split; [exact Hr|]. split; [|lia].
  unfold Signature.generateUrlSignature. fold base. unfold Signature.hex.
  destruct (Z.abs (Signature.hash_of base)) as [|p|p] eqn:E.
  - reflexivity.
  - rewrite HexString.Raw.to_N_of_pos. reflexivity.
  - lia.
Qed.

End HelperSpec.

(** ** The retry schedule of the download engine *)

Module ScheduleSpec.

Import HttpClient Trace Vocabulary.

Lemma waited_app l1 l2 : waited (l1 ++ l2) = (waited l1 + waited l2)%Z.
Proof.
  induction l1 as [|e l1 IH]; simpl; [reflexivity|].
  rewrite IH. destruct e; lia.
Qed.

(** Only the sleeps count. *)
Lemma waited_schedule l : waited (schedule l) = waited l.
Proof.
  induction l as [|e l IH]; [reflexivity|].
  destruct e; simpl; rewrite ?IH; reflexivity.
Qed.

Lemma waited_retried k : forall attempt,
  waited (retried attempt k)
  = (500 * Z.of_nat k * (2 * Z.of_nat attempt + Z.of_nat k + 1))%Z.
Proof.
  induction k as [|k IH]; intros attempt; [reflexivity|].
  unfold retried in *. simpl. rewrite IH. lia.
Qed.

(** A download that gets through at the request numbered [k], after
    [k] failed iterations, resolves with the output path: the file and
    its directory exist afterwards, the requests were numbered 0 to
    [k], the wait after the failure numbered [i] was [1000 * (i + 1)]
    ms, and the call waited [500 * k * (k + 1)] ms in all. *)
Theorem retry_then_success
        (net : nat -> Attempt) (outputPath : string) (retries : nat)
        (st : EngineState) (k : nat) (mk : option string) :
  (k < retries)%nat ->
  (forall i, (i < k)%nat ->
             caught (bool_decide (Path.dirname outputPath ∈ fs st)) (net i) <> None) ->
  outcome (net k) = Responds mk Finish ->
  Path.dirname outputPath ∈ fs st \/ mk = None ->
  exists st' tail,
    downloadFile net outputPath retries st = Some (Resolved outputPath, st')
    /\ fs st' = {[outputPath]} ∪ ({[Path.dirname outputPath]} ∪ fs st)
    /\ log st' = (log st ++ tail)%list
    /\ requests tail = seq 0 (S k)
    /\ schedule tail = (retried 0 k ++ [Request k])%list
    /\ waited tail = (500 * Z.of_nat k * (Z.of_nat k + 1))%Z.
Proof.
  intros Hk Hcaught Hout Hdir.
  destruct (EngineSpec.loop_skip net outputPath retries k (S (retries - k)) 0 st
              ltac:(lia))
    as (stk & tail & Hrun & Hfs & Hlog & Hreq & Hsch).
  { intros i Hi. apply Hcaught. lia. }
  destruct (EngineSpec.requested_frame net k stk)
    as (Hfs' & _ & notes & Hlog' & Hreq' & Hsch' & _).
  assert (caught (dir_exists outputPath (requested net k stk)) (net k) = None) as Hnone.
  { unfold caught, dir_exists. rewrite Hout, Hfs', Hfs.
    destruct mk as [m'|]; [|reflexivity].
    destruct Hdir as [Hdir|Hdir]; [|discriminate].
    rewrite bool_decide_eq_true_2 by assumption. reflexivity. }
  destruct (EngineSpec.with_dir_frame outputPath (requested net k stk)) as [Hl' _].
  exists (settle outputPath Finish (with_dir outputPath (requested net k stk))).2,
         (tail ++ Request k :: notes)%list.
  assert (schedule (tail ++ Request k :: notes)
          = (retried 0 k ++ [Request k])%list) as Hschedule.
  { rewrite EngineSpec.schedule_app, Hsch. simpl schedule. rewrite Hsch'.
    reflexivity. }
  split.
  { unfold downloadFile.
    replace (S retries) with (k + S (retries - k))%nat by lia.
    rewrite Hrun. simpl (0 + k)%nat.
    rewrite (EngineSpec.loop_settled net outputPath retries (retries - k) k stk mk _
               Hk Hout Hnone).
    reflexivity. }
  split.
  { simpl. unfold with_dir. rewrite Hfs', Hfs.
    destruct (decide (Path.dirname outputPath ∈ fs st)) as [Hin|Hin]; simpl.
    - rewrite Hfs', Hfs.
      apply set_eq. intros x. rewrite !elem_of_union, !elem_of_singleton.
      split; [tauto|]. intros [->|[->|H]]; auto.
    - reflexivity. }
  split; [simpl; rewrite Hl', Hlog', Hlog, <- app_assoc; reflexivity|].
  split.
  { rewrite EngineSpec.requests_app, Hreq. simpl requests. rewrite Hreq'.
    rewrite seq_S. reflexivity. }
  split; [exact Hschedule|].
  rewrite <- waited_schedule, Hschedule, waited_app, waited_retried.
  simpl. lia.
Qed.

Lemma retry_then_success_witness :
  exists st' tail,
    downloadFile Scenario.restarted Scenario.target 3 Scenario.st0
    = Some (Resolved Scenario.target, st')
    /\ fs st' = {[Scenario.target]}
                ∪ ({[Path.dirname Scenario.target]} ∪ fs Scenario.st0)
    /\ log st' = (log Scenario.st0 ++ tail)%list
    /\ requests tail = seq 0 2
    /\ schedule tail = (retried 0 1 ++ [Request 1])%list
    /\ waited tail = (500 * Z.of_nat 1 * (Z.of_nat 1 + 1))%Z.
Proof.
  apply (retry_then_success Scenario.restarted Scenario.target 3 Scenario.st0 1 None).
  - lia.
  - intros i Hi. assert (i = 0)%nat as -> by lia. discriminate.
  - reflexivity.
  - right. reflexivity.
Defined.

(** When every iteration of the budget fails (the request is rejected
    or the output directory cannot be created), the engine makes
    exactly [retries] requests, waits [1000 * i] ms after the [i]-th
    failure except the last, [500 * retries * (retries - 1)] ms in all,
    and rejects with the download-failed error that carries [retries]
    and the last failure's message, leaving the file system as it was.
    With a budget of zero it makes no request and rejects with the bare
    error. *)
Theorem retries_exhausted
        (net : nat -> Attempt) (outputPath : string) (retries : nat)
        (st : EngineState) :
  (forall i, (i < retries)%nat ->
             caught (bool_decide (Path.dirname outputPath ∈ fs st)) (net i) <> None) ->
  exists e st' tail,
    downloadFile net outputPath retries st = Some (Rejected e, st')
    /\ fs st' = fs st
    /\ log st' = (log st ++ tail)%list
    /\ requests tail = seq 0 retries
    /\ waited tail = (500 * Z.of_nat retries * (Z.of_nat retries - 1))%Z
    /\ match retries with
       | O => e = DownloadFailedBare /\ tail = []
       | S n =>
           exists m,
             caught (bool_decide (Path.dirname outputPath ∈ fs st)) (net n) = Some m
             /\ e = DownloadFailed retries m
             /\ schedule tail = (retried 0 n ++ [Request n])%list
       end.
Proof.
  intros Hall. destruct retries as [|n].
  { exists DownloadFailedBare, st, []. rewrite app_nil_r.
    repeat split; reflexivity. }
  destruct (EngineSpec.loop_skip net outputPath (S n) n 2 0 st ltac:(lia))
    as (stn & tail & Hrun & Hfs & Hlog & Hreq & Hsch).
  { intros i Hi. apply Hall. lia. }
  destruct (EngineSpec.requested_frame net n stn)
    as (Hfs' & _ & notes & Hlog' & Hreq' & Hsch' & _).
  destruct (caught (bool_decide (Path.dirname outputPath ∈ fs st)) (net n))
    as [m|] eqn:Hm; [|exfalso; exact (Hall n ltac:(lia) Hm)].
  assert (schedule (tail ++ Request n :: notes)
          = (retried 0 n ++ [Request n])%list) as Hschedule.
  { rewrite EngineSpec.schedule_app, Hsch. simpl schedule. rewrite Hsch'.
    reflexivity. }
  exists (DownloadFailed (S n) m), (requested net n stn),
         (tail ++ Request n :: notes)%list.
  split.
  { unfold downloadFile.
    replace (S (S n)) with (n + 2)%nat by lia. rewrite Hrun. simpl (0 + n)%nat.
    apply EngineSpec.loop_caught_last; [reflexivity|].
    unfold dir_exists. rewrite Hfs', Hfs. exact Hm. }
  split; [congruence|].
  split; [rewrite Hlog', Hlog, <- app_assoc; reflexivity|].
  split.
  { rewrite EngineSpec.requests_app, Hreq. simpl requests. rewrite Hreq'.
    rewrite seq_S. reflexivity. }
  split.
  { rewrite <- waited_schedule, Hschedule, waited_app, waited_retried.
    simpl. lia. }
  exists m. auto.
Qed.

Lemma retries_exhausted_witness :
  exists e st' tail,
    downloadFile Scenario.unreachable Scenario.target 5 Scenario.st0
    = Some (Rejected e, st')
    /\ fs st' = fs Scenario.st0
    /\ log st' = (log Scenario.st0 ++ tail)%list
    /\ requests tail = seq 0 5
    /\ waited tail = (500 * Z.of_nat 5 * (Z.of_nat 5 - 1))%Z
    /\ exists m,
         caught (bool_decide (Path.dirname Scenario.target ∈ fs Scenario.st0))
                (Scenario.unreachable 4%nat) = Some m
         /\ e = DownloadFailed 5 m
         /\ schedule tail = (retried 0 4 ++ [Request 4])%list.
Proof.
  apply (retries_exhausted Scenario.unreachable Scenario.target 5 Scenario.st0).
  intros i _. discriminate.
Defined.

End ScheduleSpec.

(** ** What a call of [download] returns, throws and leaves alone *)

Module OutcomeSpec.

Import MediaDownloader Trace Jobs Vocabulary.

Lemma catch_frame id m w k :
  k <> id -> activeDownloads (catch id m w).2 !! k = activeDownloads w !! k.
Proof.
  intros Hk. unfold catch. destruct (activeDownloads w !! id); simpl; [|reflexivity].
  apply lookup_insert_ne. congruence.
Qed.

Lemma catch_spec_result id m w : (catch id m w).1 = Throw m.
Proof. unfold catch. destruct (activeDownloads w !! id); reflexivity. Qed.

Lemma catch_fs id m w : fs (catch id m w).2 = fs w.
Proof. unfold catch. destruct (activeDownloads w !! id); reflexivity. Qed.

Lemma complete_frame id p path w k :
  k <> id -> activeDownloads (complete id p path w).2 !! k = activeDownloads w !! k.
Proof.
  intros Hk. unfold complete. simpl.
  rewrite lookup_delete_ne, lookup_insert_ne by congruence. reflexivity.
Qed.

Lemma append_nonempty a b : b <> "" -> a +:+ b <> "".
Proof. destruct a; simpl; [auto | discriminate]. Qed.

Lemma append_nonempty_l a b : a <> "" -> a +:+ b <> "".
Proof. destruct a; simpl; [congruence | discriminate]. Qed.

Lemma normalize_nonempty p : Path.normalize p <> "".
Proof.
  unfold Path.normalize. destruct (String.eqb p ""); [discriminate|]. cbv zeta.
  destruct (String.eqb_spec
              (Path.normalizeString p (negb (Js.startsWith "/" p))) "") as [_|Hq].
  - destruct (Js.startsWith "/" p); [discriminate|].
    destruct (Js.endsWith "/" p); discriminate.
  - destruct (Js.startsWith "/" p); [discriminate|].
    destruct (Js.endsWith "/" p); [apply append_nonempty_l|]; exact Hq.
Qed.

Lemma join_nonempty d f : Path.join d f <> "".
Proof.
  unfold Path.join. cbv zeta.
  match goal with |- context [if ?c then "." else _] => destruct c end;
    [discriminate | apply normalize_nonempty].
Qed.

(** The audio path is never the empty string. *)
Lemma generateAudioFilename_truthy originalPath targetFormat :
  Js.truthy (AudioProcessor.generateAudioFilename originalPath targetFormat) = true.
Proof. apply SelectionSpec.truthy_nonempty, join_nonempty. Qed.

Lemma finish_frame env options id filePath p w r w' :
  finish env options id filePath p w = Some (r, w') ->
  forall k, k <> id -> activeDownloads w' !! k = activeDownloads w !! k.
Proof.
  assert (forall x : result string * World,
             Some x = Some (r, w') -> w' = x.2) as Hsome
    by (intros x [= ->]; reflexivity).
  unfold finish. intros Hrun k Hk.
  destruct (opt_format options) as [f|];
    [|apply Hsome in Hrun as ->; apply complete_frame; exact Hk].
  destruct (Js.truthy f && AudioProcessor.isAudioFormat f);
    [|apply Hsome in Hrun as ->; apply complete_frame; exact Hk].
  cbv zeta in Hrun.
  match type of Hrun with
  | match ?a with Some _ => _ | None => _ end = _ =>
      destruct a as [conversionResult|]; [|discriminate]
  end.
  match type of Hrun with
  | (if ?c then _ else _) = _ => destruct c
  end; apply Hsome in Hrun as ->.
  - rewrite complete_frame by exact Hk. reflexivity.
  - rewrite catch_frame by exact Hk. reflexivity.
Qed.

Lemma finish_outcome env options id filePath p w :
  match audio_target options with
  | None =>
      exists w', finish env options id filePath p w = Some (Ok filePath, w')
                 /\ fs w' = fs w
  | Some f =>
      match AudioProcessor.ending
              (transcoder env (AudioProcessor.command (conversion options filePath f)))
      with
      | AudioProcessor.End =>
          exists w', finish env options id filePath p w
                     = Some (Ok (AudioProcessor.generateAudioFilename filePath f), w')
      | AudioProcessor.Failed e | AudioProcessor.Thrown e =>
          exists w', finish env options id filePath p w
                     = Some (Throw ("Audio conversion failed: " +:+ e), w')
      | AudioProcessor.NeverExits => finish env options id filePath p w = None
      end
  end.
Proof.
  assert (forall i m x, exists w', Some (catch i m x) = Some (Throw m, w')) as Hcatch.
  { intros i m x. pose proof (catch_spec_result i m x) as H.
    destruct (catch i m x) as [r' w'']. simpl in H. subst r'.
    eexists. reflexivity. }
  unfold finish, audio_target.
  destruct (opt_format options) as [f|]; [|eexists; split; reflexivity].
  destruct (Js.truthy f && AudioProcessor.isAudioFormat f);
    [|eexists; split; reflexivity].
  cbv zeta. unfold AudioProcessor.convertToAudio. cbv zeta.
  fold (conversion options filePath f).
  destruct (AudioProcessor.ending
              (transcoder env (AudioProcessor.command (conversion options filePath f))))
    as [|e|e|]; cbn [fst AudioProcessor.success AudioProcessor.res_outputPath
                     AudioProcessor.res_error Js.truthy_opt andb default].
  - cbn [AudioProcessor.outputPath conversion].
    rewrite generateAudioFilename_truthy. eexists. reflexivity.
  - apply Hcatch.
  - apply Hcatch.
  - reflexivity.
Qed.

Lemma selectBestStream_empty options : selectBestStream [] options = None.
Proof.
  unfold selectBestStream.
  destruct (opt_quality options) as [q|]; [destruct (Js.truthy q)|];
    (destruct (opt_format options) as [f|]; [destruct (Js.truthy f)|]); reflexivity.
Qed.

(** A call of [download] that returns or throws has changed no entry
    of the job table but the one under its own identifier: the jobs of
    other calls are as they were. *)
Theorem download_touches_only_its_job
        (env : Env) (extractors : list Extractor.t) (url : string)
        (options : DownloadOptions) (w w' : World) (r : result string) :
  download env extractors url options w = Some (r, w') ->
  forall k, k <> generateId env ->
            activeDownloads w' !! k = activeDownloads w !! k.
Proof.
  assert (forall x : result string * World,
             Some x = Some (r, w') -> w' = x.2) as Hsome
    by (intros x [= ->]; reflexivity).
  intros Hrun k Hk.
  destruct (extract extractors url) as [er|m] eqn:Hex.
  2:{ unfold download in Hrun. rewrite Hex in Hrun.
      apply Hsome in Hrun as ->. apply catch_frame. exact Hk. }
  destruct (selectBestStream (streams er) options) as [sel|] eqn:Hsel.
  2:{ unfold download in Hrun. rewrite Hex in Hrun. cbv zeta in Hrun.
      rewrite Hsel in Hrun. apply Hsome in Hrun as ->.
      rewrite catch_frame by exact Hk. simpl.
      apply lookup_insert_ne. congruence. }
  rewrite (DownloadSpec.download_unfold _ _ _ _ _ _ _ Hex Hsel) in Hrun.
  destruct (engine_call env url options er sel w) as [[[path|e|] st]|];
    try discriminate; cbv zeta in Hrun.
  - rewrite (finish_frame _ _ _ _ _ _ _ _ Hrun k Hk). simpl.
    rewrite !lookup_insert_ne by congruence. reflexivity.
  - apply Hsome in Hrun as ->. rewrite catch_frame by exact Hk. simpl.
    rewrite !lookup_insert_ne by congruence. reflexivity.
Qed.

Lemma download_touches_only_its_job_witness :
  exists r w',
    download (Scenario.env_of Scenario.smooth) Scenario.registry
             Scenario.video_url Scenario.options0 Scenario.busy
    = Some (r, w')
    /\ activeDownloads w' !! "1699999999999_a1b2c3d4e" = Some Scenario.other_job.
Proof.
  destruct (DownloadSpec.download_total
              (Scenario.env_of Scenario.smooth) Scenario.registry
              Scenario.video_url Scenario.options0 Scenario.busy)
    as (r & w' & Hrun).
  { apply DownloadSpec.scenario_answers. intros i mk. discriminate. }
  exists r, w'. split; [exact Hrun|].
  rewrite (download_touches_only_its_job _ _ _ _ _ _ _ Hrun
             "1699999999999_a1b2c3d4e" ltac:(discriminate)).
  reflexivity.
Defined.

(** What [download] returns and throws.  It rethrows the extraction
    error; it throws the no-suitable-stream error exactly when the
    extractor returned no stream; otherwise a stream of the result is
    chosen and the engine is asked for
    [outputPath/sanitized-title.format], in the state [engine_call]
    describes.  When the engine rejects, [download] rethrows that very
    error, which is never the bare one and carries the attempt count 3
    when it is the download-failed error.  When the engine resolves, a
    file exists at that path, and [download] returns the path when no
    audio format is asked for; when one is, it returns the audio path
    if the transcoder ends well, throws the conversion error with the
    transcoder's message if it does not, and never settles if the
    transcoder never exits.  When the engine's promise stays pending,
    [download] never settles. *)
Theorem download_outcome
        (env : Env) (extractors : list Extractor.t) (url : string)
        (options : DownloadOptions) (w : World) :
  match extract extractors url with
  | Throw m =>
      exists w', download env extractors url options w = Some (Throw m, w')
  | Ok er =>
      match selectBestStream (streams er) options with
      | None =>
          streams er = []
          /\ exists w', download env extractors url options w
                        = Some (Throw "No suitable stream found", w')
      | Some sel =>
          In sel (streams er)
          /\ match engine_call env url options er sel w with
             | None => False
             | Some (HttpClient.Pending, _) =>
                 download env extractors url options w = None
             | Some (HttpClient.Rejected e, _) =>
                 e <> HttpClient.DownloadFailedBare
                 /\ (forall k x, e = HttpClient.DownloadFailed k x -> k = 3%nat)
                 /\ exists w', download env extractors url options w
                               = Some (Throw (HttpClient.message e), w')
             | Some (HttpClient.Resolved path, st) =>
                 path = target_path options er sel
                 /\ (target_path options er sel ∈ HttpClient.fs st)
                 /\ match audio_target options with
                    | None =>
                        exists w',
                          download env extractors url options w
                          = Some (Ok (target_path options er sel), w')
                          /\ fs w' = HttpClient.fs st
                    | Some f =>
                        match AudioProcessor.ending
                                (transcoder env
                                   (AudioProcessor.command
                                      (conversion options
                                         (target_path options er sel) f)))
                        with
                        | AudioProcessor.End =>
                            exists w',
                              download env extractors url options w
                              = Some (Ok (AudioProcessor.generateAudioFilename
                                            (target_path options er sel) f), w')
                        | AudioProcessor.Failed e | AudioProcessor.Thrown e =>
                            exists w',
                              download env extractors url options w
                              = Some (Throw ("Audio conversion failed: " +:+ e), w')
                        | AudioProcessor.NeverExits =>
                            download env extractors url options w = None
                        end
                    end
             end
      end
  end.
Proof.
  assert (forall i m x, exists w', Some (catch i m x) = Some (Throw m, w')) as Hcatch.
  { intros i m x. pose proof (catch_spec_result i m x) as H.
    destruct (catch i m x) as [r' w'']. simpl in H. subst r'.
    eexists. reflexivity. }
  destruct (extract extractors url) as [er|m] eqn:Hex.
  2:{ unfold download. rewrite Hex. apply Hcatch. }
  destruct (selectBestStream (streams er) options) as [sel|] eqn:Hsel.
  2:{ split.
      - destruct (streams er) as [|x l] eqn:Hs; [reflexivity|].
        destruct (SelectionSpec.selectBestStream_Selects (x :: l) options
                    ltac:(discriminate)) as (s & Hs' & _).
        congruence.
      - unfold download. rewrite Hex. cbv zeta. rewrite Hsel. apply Hcatch. }
  assert (In sel (streams er)) as Hin.
  { destruct (streams er) as [|x l] eqn:Hs.
    - rewrite selectBestStream_empty in Hsel. discriminate.
    - destruct (SelectionSpec.selectBestStream_Selects (x :: l) options
                  ltac:(discriminate)) as (s & Hs' & Hpol).
      rewrite Hsel in Hs'. injection Hs' as <-.
      eapply SelectionSpec.Selects_In. exact Hpol. }
  split; [exact Hin|].
  rewrite (DownloadSpec.download_unfold _ _ _ _ _ _ _ Hex Hsel).
  unfold engine_call.
  match goal with
  | |- context [HttpClient.downloadFile ?n ?f ?j ?st] =>
      destruct (EngineSpec.downloadFile_total n f j st) as (s & st' & Hrun);
      rewrite Hrun;
      apply EngineSpec.downloadFile_inv in Hrun
        as (n' & etail & _ & _ & _ & _ & _ & _ & Hset)
  end.
  destruct s as [path|e|]; cbv zeta.
  - simpl in Hset. destruct Hset as [Hpath Hfile].
    split; [exact Hpath|]. split; [exact Hfile|].
    match goal with
    | |- context [finish ?a ?b ?c ?d ?e ?f] =>
        pose proof (finish_outcome a b c d e f) as Hout
    end.
    destruct (audio_target options) as [f|]; exact Hout.
  - destruct e as [k x| |x]; simpl in Hset.
    + split; [discriminate|]. split; [|apply Hcatch].
      intros k' x' [= <- <-]. exact (proj1 Hset).
    + destruct Hset as [Hzero _]. discriminate.
    + split; [discriminate|]. split; [|apply Hcatch]. intros k' x' [=].
  - reflexivity.
Qed.

End OutcomeSpec.

(** ** File names *)

Module FilenameSpec.

Import Vocabulary.

Lemma all_app (p : ascii -> bool) (a b : string) :
  Text.all p (a +:+ b) = Text.all p a && Text.all p b.
Proof.
  induction a as [|c a IH]; [reflexivity|].
  rewrite TextSpec.app_cons. cbn [Text.all]. rewrite IH, andb_assoc. reflexivity.
Qed.

Lemma keeps_underscore : Common.keeps "_" = true.
Proof. reflexivity. Qed.

Lemma keeps_no_slash c : Common.keeps c = true -> negb (Js.ascii_eqb c "/") = true.
Proof.
  intros H. destruct (Js.ascii_eqb c "/") eqn:E; [|reflexivity].
  apply TextSpec.ascii_eqb_eq in E. subst c. vm_compute in H. discriminate.
Qed.

Lemma sanitizeFilename_keeps s : Text.all Common.keeps (Common.sanitizeFilename s) = true.
Proof.
  induction s as [|c s IH]; [reflexivity|]. cbn [Common.sanitizeFilename Text.all].
  rewrite IH, andb_true_r.
  destruct (Common.keeps c) eqn:E; [exact E | exact keeps_underscore].
Qed.

Lemma sanitizeFilename_fixed s :
  Text.all Common.keeps s = true <-> Common.sanitizeFilename s = s.
Proof.
  induction s as [|c s IH]; [split; reflexivity|].
  cbn [Common.sanitizeFilename Text.all]. split.
  - intros H. apply andb_prop in H as [Hc Hs]. rewrite Hc, (proj1 IH Hs). reflexivity.
  - intros H. injection H as Hc Hs. apply IH in Hs. rewrite Hs, andb_true_r.
    destruct (Common.keeps c) eqn:E; [reflexivity|].
    rewrite <- Hc in E. rewrite keeps_underscore in E. discriminate.
Qed.

Lemma sanitizeFilename_no_slash s :
  Text.all (fun x => negb (Js.ascii_eqb x "/")) (Common.sanitizeFilename s) = true.
Proof.
  eapply ExtractorSpec.all_weaken; [|apply sanitizeFilename_keeps].
  exact keeps_no_slash.
Qed.

(** [sanitizeFilename] keeps the length of the name and leaves only
    letters, digits, dots, underscores and hyphens in it, so no path
    separator; names made of such characters, and only those, are left
    as they are, so sanitizing twice changes nothing more. *)
Theorem sanitizeFilename_safe (filename : string) :
  Text.all Common.keeps (Common.sanitizeFilename filename) = true
  /\ String.length (Common.sanitizeFilename filename) = String.length filename
  /\ Common.sanitizeFilename (Common.sanitizeFilename filename)
     = Common.sanitizeFilename filename
  /\ (Text.all Common.keeps filename = true
      <-> Common.sanitizeFilename filename = filename)
  /\ free_of "/" (Common.sanitizeFilename filename) = true.
Proof.
  split; [apply sanitizeFilename_keeps|]. split.
  { induction filename as [|c s IH]; [reflexivity|]. simpl. rewrite IH. reflexivity. }
  split; [apply sanitizeFilename_fixed, sanitizeFilename_keeps|].
  split; [apply sanitizeFilename_fixed|].
  apply sanitizeFilename_no_slash.
Qed.

Lemma split_pop_from_free sep s : forall cur,
  free_of sep s = true -> Js.split_pop_from sep cur s = cur.
Proof.
  unfold free_of. induction s as [|c s IH]; intros cur H; [reflexivity|].
  cbn [Text.all] in H. apply andb_prop in H as [Hc Hs].
  cbn [Js.split_pop_from]. apply negb_true_iff in Hc. rewrite Hc. apply IH, Hs.
Qed.

Lemma split_pop_from_app sep a b : forall cur,
  Js.split_pop_from sep cur (a +:+ String sep b) = Js.split_pop sep b.
Proof.
  induction a as [|c a IH]; intros cur.
  - change ("" +:+ String sep b) with (String sep b). cbn [Js.split_pop_from].
    unfold Js.ascii_eqb. rewrite Ascii.eqb_refl. reflexivity.
  - rewrite TextSpec.app_cons. cbn [Js.split_pop_from].
    destruct (Js.ascii_eqb c sep); apply IH.
Qed.

(** The text after the last separator. *)
Lemma split_pop_last sep a b :
  free_of sep b = true -> Js.split_pop sep (a +:+ String sep b) = b.
Proof.
  intros H. unfold Js.split_pop at 1. rewrite split_pop_from_app.
  apply split_pop_from_free. exact H.
Qed.

(** The file [download] writes is named by the sanitized title and the
    format of the chosen stream; the title adds no directory level, so
    the name has a path separator exactly when the format has one, and
    when it has none the file is the entry of that name under the
    output path. *)
Theorem download_file_name
        (options : DownloadOptions) (er : ExtractResult) (sel : StreamInfo) :
  free_of "/" (format sel) = true ->
  Path.basename (target_path options er sel)
  = Common.sanitizeFilename (title er) +:+ "." +:+ format sel
  /\ free_of "/" (MediaDownloader.generateFilename (title er) (format sel)) = true
  /\ forall title' format',
       free_of "/" (MediaDownloader.generateFilename title' format')
       = free_of "/" format'.
Proof.
  intros Hfmt.
  assert (forall title' format',
             free_of "/" (MediaDownloader.generateFilename title' format')
             = free_of "/" format') as Hgen.
  { intros t f. unfold MediaDownloader.generateFilename, free_of.
    rewrite !all_app, sanitizeFilename_no_slash. reflexivity. }
  split; [|split; [rewrite Hgen; exact Hfmt | exact Hgen]].
  unfold target_path, Path.basename.
  change (outputPath options +:+ "/" +:+ MediaDownloader.generateFilename (title er) (format sel))
    with (outputPath options
          +:+ String "/" (MediaDownloader.generateFilename (title er) (format sel))).
  rewrite split_pop_last; [reflexivity|]. rewrite Hgen. exact Hfmt.
Qed.

Lemma download_file_name_witness :
  Path.basename
    (target_path Scenario.options0
       {| title := "My clip: part 1/2"; description := None; duration := None;
          thumbnail := None; streams := []; subtitles := None;
          originalUrl := Scenario.video_url |}
       (Selection.stream_of "720p" "mp4"))
  = "My_clip__part_1_2.mp4".
Proof.
  exact (proj1 (download_file_name Scenario.options0
                  {| title := "My clip: part 1/2"; description := None;
                     duration := None; thumbnail := None; streams := [];
                     subtitles := None; originalUrl := Scenario.video_url |}
                  (Selection.stream_of "720p" "mp4") eq_refl)).
Defined.

Lemma split_pop_from_shape sep s : forall cur,
  (free_of sep s = true /\ Js.split_pop_from sep cur s = cur)
  \/ (free_of sep (Js.split_pop_from sep cur s) = true
      /\ suffix (Js.split_pop_from sep cur s) s).
Proof.
  induction s as [|c s IH]; intros cur; [left; split; reflexivity|].
  cbn [Js.split_pop_from]. destruct (Js.ascii_eqb c sep) eqn:E.
  - right. destruct (IH s) as [[Hf ->]|[Hf Hs]].
    + split; [exact Hf|]. apply RegexSpec.suffix_cons, RegexSpec.suffix_refl.
    + split; [exact Hf|]. apply RegexSpec.suffix_cons, Hs.
  - destruct (IH cur) as [[Hf ->]|[Hf Hs]].
    + left. split; [|reflexivity]. unfold free_of in *. cbn [Text.all].
      rewrite E, Hf. reflexivity.
    + right. split; [exact Hf|]. apply RegexSpec.suffix_cons, Hs.
Qed.

Lemma split_pop_shape sep s :
  free_of sep (Js.split_pop sep s) = true /\ suffix (Js.split_pop sep s) s.
Proof.
  unfold Js.split_pop. destruct (split_pop_from_shape sep s s) as [[Hf ->]|H].
  - split; [exact Hf | apply RegexSpec.suffix_refl].
  - exact H.
Qed.

(** The extension [getFileExtension] reports is never empty and never
    contains a dot: it is what follows the last dot of the path of a
    URL, or of the argument when that is not a URL, and the word
    unknown when nothing follows. *)
Theorem getFileExtension_shape (urlOrFilename : string) :
  Common.getFileExtension urlOrFilename <> ""
  /\ free_of "." (Common.getFileExtension urlOrFilename) = true
  /\ (Common.getFileExtension urlOrFilename = "unknown"
      \/ suffix (Common.getFileExtension urlOrFilename)
                (default urlOrFilename (Url.pathname urlOrFilename))).
Proof.
  unfold Common.getFileExtension.
  assert (forall subject,
             Js.or_else (Js.split_pop "." subject) "unknown" <> ""
             /\ free_of "." (Js.or_else (Js.split_pop "." subject) "unknown") = true
             /\ (Js.or_else (Js.split_pop "." subject) "unknown" = "unknown"
                 \/ suffix (Js.or_else (Js.split_pop "." subject) "unknown") subject))
    as H.
  { intros subject. unfold Js.or_else.
    destruct (split_pop_shape "." subject) as [Hf Hs].
    destruct (Js.truthy (Js.split_pop "." subject)) eqn:Ht.
    - split; [apply SelectionSpec.truthy_nonempty, Ht|]. split; [exact Hf | right; exact Hs].
    - split; [discriminate|]. split; [reflexivity | left; reflexivity]. }
  destruct (Url.pathname urlOrFilename) as [pathname|]; apply H.
Qed.

End FilenameSpec.

(** ** The metadata probe *)

Module ProbeSpec.

Import Vocabulary.

Lemma span_spec (p : ascii -> bool) (s : string) :
  s = (Js.span p s).1 +:+ (Js.span p s).2
  /\ Text.all p (Js.span p s).1 = true
  /\ stops p (Js.span p s).2.
Proof.
  induction s as [|c s (IH1 & IH2 & IH3)]; [repeat split|].
  cbn [Js.span]. destruct (p c) eqn:Hc.
  - destruct (Js.span p s) as [a b]. simpl in *.
    split; [rewrite TextSpec.app_cons; f_equal; exact IH1|].
    split; [rewrite Hc, IH2; reflexivity | exact IH3].
  - simpl. repeat split. exact Hc.
Qed.

(** What a match of the pattern at the start of [s] captures. *)
Lemma filename_here_spec s g :
  Probe.filename_here s = Some g ->
  g <> "" /\ free_of Probe.dquote g = true
  /\ exists post,
       (s = "filename=" +:+ g +:+ post
        \/ s = "filename=" +:+ String Probe.dquote (g +:+ post))
       /\ stops (fun c => negb (Js.ascii_eqb c Probe.dquote)) post.
Proof.
  unfold Probe.filename_here.
  destruct (Js.startsWith "filename=" s) eqn:Hs; [|discriminate].
  apply TextSpec.startsWith_drop in Hs. change (String.length "filename=") with 9%nat in Hs.
  set (r := Js.drop 9 s) in *.
  set (r' := match r with
             | String c t => if Js.ascii_eqb c Probe.dquote then t else r
             | EmptyString => r
             end).
  destruct (span_spec (fun c => negb (Js.ascii_eqb c Probe.dquote)) r')
    as (Happ & Hall & Hstop).
  destruct (Js.span (fun c => negb (Js.ascii_eqb c Probe.dquote)) r') as [a b].
  simpl in Happ, Hall, Hstop.
  destruct (Js.truthy a) eqn:Ht; [|discriminate]. intros [= <-].
  split; [apply SelectionSpec.truthy_nonempty, Ht|]. split; [exact Hall|].
  exists b. split; [|exact Hstop].
  subst r'. destruct r as [|c t].
  - left. rewrite Hs, Happ. reflexivity.
  - destruct (Js.ascii_eqb c Probe.dquote) eqn:E.
    + right. apply TextSpec.ascii_eqb_eq in E. subst c. rewrite Hs, Happ. reflexivity.
    + left. rewrite Hs, Happ. reflexivity.
Qed.

Lemma match_filename_spec cd g :
  Probe.match_filename cd = Some g ->
  g <> "" /\ free_of Probe.dquote g = true
  /\ exists pre post,
       (cd = pre +:+ "filename=" +:+ g +:+ post
        \/ cd = pre +:+ "filename=" +:+ String Probe.dquote (g +:+ post))
       /\ stops (fun c => negb (Js.ascii_eqb c Probe.dquote)) post.
Proof.
  induction cd as [|c cd IH]; cbn [Probe.match_filename].
  - destruct (Probe.filename_here "") as [g'|] eqn:E; [|discriminate].
    intros [= ->]. destruct (filename_here_spec _ _ E) as (Hne & Hfree & post & Hs & Hp).
    split; [exact Hne|]. split; [exact Hfree|]. exists "", post. auto.
  - destruct (Probe.filename_here (String c cd)) as [g'|] eqn:E.
    + intros [= ->]. destruct (filename_here_spec _ _ E) as (Hne & Hfree & post & Hs & Hp).
      split; [exact Hne|]. split; [exact Hfree|]. exists "", post. auto.
    + intros H. destruct (IH H) as (Hne & Hfree & pre & post & Hs & Hp).
      split; [exact Hne|]. split; [exact Hfree|].
      exists (String c pre), post. split; [|exact Hp].
      rewrite !TextSpec.app_cons. destruct Hs as [->| ->]; auto.
Qed.

(** The word filename, an equals sign and a character other than the
    double quote always give a match. *)
Lemma filename_here_complete c rest :
  c <> Probe.dquote ->
  exists g, Probe.filename_here ("filename=" +:+ String c rest) = Some g.
Proof.
  intros Hc. unfold Probe.filename_here.
  change ("filename=" +:+ String c rest)
    with (String "f" (String "i" (String "l" (String "e" (String "n" (String "a"
            (String "m" (String "e" (String "=" (String c rest)))))))))).
  cbn [Js.startsWith Js.drop]. unfold Js.ascii_eqb at 1 2 3 4 5 6 7 8 9.
  rewrite !Ascii.eqb_refl. cbn [andb].
  destruct (Js.ascii_eqb c Probe.dquote) eqn:E.
  { apply TextSpec.ascii_eqb_eq in E. contradiction. }
  cbn [Js.span]. rewrite E. cbn [negb].
  destruct (Js.span (fun c0 => negb (Js.ascii_eqb c0 Probe.dquote)) rest) as [a b].
  cbn [Js.truthy]. eauto.
Qed.

Lemma match_filename_complete pre c rest :
  c <> Probe.dquote ->
  exists g, Probe.match_filename (pre +:+ "filename=" +:+ String c rest) = Some g.
Proof.
  intros Hc. induction pre as [|x pre IH].
  - change ("" +:+ "filename=" +:+ String c rest) with ("filename=" +:+ String c rest).
    destruct (filename_here_complete c rest Hc) as [g Hg].
    exists g. destruct ("filename=" +:+ String c rest) eqn:E;
      cbn [Probe.match_filename]; rewrite Hg; reflexivity.
  - rewrite TextSpec.app_cons. cbn [Probe.match_filename].
    destruct (Probe.filename_here _) as [g|]; eauto.
Qed.

(** What [getFileInfo] reports.  A failed HEAD request is rethrown
    with the prefix of [head] and that of [getFileInfo], and once more
    prefixed by the generic-file extractor.  Otherwise the content type
    is the header's, and the file name, when one is reported, is a
    non-empty run of characters other than the double quote that
    follows the word filename and an equals sign (and an opening quote,
    if there is one) in the Content-Disposition header, and that cannot
    be extended; a name is reported whenever that header has the word
    filename, an equals sign and then a character other than the double
    quote. *)
Theorem getFileInfo_reports (answer : result Headers) (url : string) :
  match answer with
  | Throw m =>
      Probe.getFileInfo answer
      = Throw ("Failed to get file info: " +:+ "Failed to get file info: " +:+ m)
      /\ HttpExtractor.extract answer url
         = Throw ("Failed to extract HTTP file info: "
                  +:+ "Failed to get file info: " +:+ "Failed to get file info: " +:+ m)
  | Ok h =>
      exists fi,
        Probe.getFileInfo answer = Ok fi
        /\ Probe.contentType fi = h !! "content-type"
        /\ match Probe.filename fi with
           | Some g =>
               g <> "" /\ free_of Probe.dquote g = true
               /\ exists cd pre post,
                    h !! "content-disposition" = Some cd
                    /\ (cd = pre +:+ "filename=" +:+ g +:+ post
                        \/ cd = pre +:+ "filename=" +:+ String Probe.dquote (g +:+ post))
                    /\ stops (fun c => negb (Js.ascii_eqb c Probe.dquote)) post
           | None =>
               forall pre c rest,
                 h !! "content-disposition"
                 = Some (pre +:+ "filename=" +:+ String c rest) ->
                 c = Probe.dquote
           end
  end.
Proof.
  destruct answer as [h|m]; [|split; reflexivity].
  unfold Probe.getFileInfo. cbn [Probe.head]. cbv zeta.
  eexists. split; [reflexivity|]. split; [reflexivity|].
  cbn [Probe.filename].
  destruct (h !! "content-disposition") as [cd|] eqn:Hcd; [|intros; discriminate].
  destruct (Js.truthy cd) eqn:Ht.
  - destruct (Probe.match_filename cd) as [g|] eqn:Hm.
    + destruct (match_filename_spec cd g Hm) as (Hne & Hfree & pre & post & Hs & Hp).
      split; [exact Hne|]. split; [exact Hfree|]. exists cd, pre, post. auto.
    + intros pre c rest [= ->].
      destruct (ascii_dec c Probe.dquote) as [E|E]; [exact E|].
      destruct (match_filename_complete pre c rest E) as [g Hg]. congruence.
  - intros pre c rest [= ->]. exfalso.
    apply negb_false_iff, String.eqb_eq in Ht.
    destruct pre; discriminate.
Qed.

End ProbeSpec.

(** ** The YouTube extractor *)

Module YouTubeApiSpec.

Import YouTubeApi Vocabulary.

Lemma word_no_slash c : Text.word c = true -> negb (Js.ascii_eqb c "/") = true.
Proof.
  intros H. destruct (Js.ascii_eqb c "/") eqn:E; [|reflexivity].
  apply TextSpec.ascii_eqb_eq in E. subst c. vm_compute in H. discriminate.
Qed.

(** The format the extractor reports is a non-empty run of word
    characters. *)
Lemma extractFormat_word mimeType :
  YouTube.extractFormat mimeType <> ""
  /\ Text.all Text.word (YouTube.extractFormat mimeType) = true.
Proof.
  unfold YouTube.extractFormat.
  destruct (Regex.group1 YouTube.subtype mimeType) as [g|] eqn:E.
  - destruct (RegexSpec.captures_group1 _ _ mimeType
                (RegexSpec.captures_plus (Regex.Lit "/") Text.word)) as [_ H].
    destruct (H g E) as (Hne & Hall & _). auto.
  - split; [discriminate | reflexivity].
Qed.

Lemma stream_of_format_spec adaptive f s :
  stream_of_format adaptive f = Some s ->
  Format.url f = Some (Stream.url s)
  /\ Stream.url s <> ""
  /\ Stream.itag s = Format.itag f
  /\ In (Stream.quality s) youtube_labels
  /\ Stream.format s = YouTube.extractFormat (Format.mimeType f)
  /\ (adaptive = false -> Stream.hasVideo s = true /\ Stream.hasAudio s = true).
Proof.
  unfold stream_of_format. destruct (Format.url f) as [u|]; [|discriminate].
  destruct (Js.truthy u) eqn:Ht; [|discriminate]. intros [= <-]. simpl.
  split; [reflexivity|]. split; [apply SelectionSpec.truthy_nonempty, Ht|].
  split; [reflexivity|]. split; [apply ExtractorSpec.youtube_mapQuality_range|].
  split; [reflexivity|]. intros ->. split; reflexivity.
Qed.

Lemma omap_stream_urls adaptive l :
  map Stream.url (omap (stream_of_format adaptive) l)
  = List.filter Js.truthy (omap Format.url l).
Proof.
  induction l as [|f l IH]; [reflexivity|].
  rewrite !EngineSpec.omap_cons. unfold stream_of_format at 1.
  destruct (Format.url f) as [u|]; [|exact IH].
  cbn [List.filter]. destruct (Js.truthy u); [|exact IH].
  cbn [map Stream.url]. rewrite IH. reflexivity.
Qed.

Lemma omap_stream_Forall adaptive (P : Stream.t -> Prop) l :
  (forall f s, stream_of_format adaptive f = Some s -> P s) ->
  Forall P (omap (stream_of_format adaptive) l).
Proof.
  intros H. induction l as [|f l IH]; [constructor|].
  rewrite EngineSpec.omap_cons.
  destruct (stream_of_format adaptive f) as [s|] eqn:E; [|exact IH].
  constructor; [eapply H; exact E | exact IH].
Qed.

(** [parseStreamingData] yields one stream for each format entry that
    has a URL, the combined formats before the adaptive ones and each
    group in the order of the response; every stream has a non-empty
    URL, a quality among the twelve labels and a format that is a
    non-empty run of word characters, so without a path separator. *)
Theorem parseStreamingData_streams (streamingData : option StreamingData) :
  Forall (fun s => Stream.url s <> ""
                   /\ In (Stream.quality s) youtube_labels
                   /\ Stream.format s <> ""
                   /\ Text.all Text.word (Stream.format s) = true
                   /\ free_of "/" (Stream.format s) = true)
         (parseStreamingData streamingData)
  /\ map Stream.url (parseStreamingData streamingData)
     = match streamingData with
       | None => []
       | Some sd =>
           List.filter Js.truthy
             (omap Format.url (default [] (formats sd)
                               ++ default [] (adaptiveFormats sd))%list)
       end.
Proof.
  assert (forall adaptive f s,
             stream_of_format adaptive f = Some s ->
             Stream.url s <> ""
             /\ In (Stream.quality s) youtube_labels
             /\ Stream.format s <> ""
             /\ Text.all Text.word (Stream.format s) = true
             /\ free_of "/" (Stream.format s) = true) as Hone.
  { intros adaptive f s H.
    destruct (stream_of_format_spec _ _ _ H) as (_ & Hu & _ & Hq & Hf & _).
    destruct (extractFormat_word (Format.mimeType f)) as [Hne Hw].
    rewrite <- Hf in Hne, Hw. repeat split; auto.
    unfold free_of. eapply ExtractorSpec.all_weaken; [|exact Hw].
    exact word_no_slash. }
  destruct streamingData as [sd|]; [|split; [constructor | reflexivity]].
  unfold parseStreamingData. split.
  - apply Forall_app. split; apply omap_stream_Forall; apply Hone.
  - rewrite map_app, !omap_stream_urls, omap_app, List.filter_app. reflexivity.
Qed.

Lemma attempt_streams net videoId url c info :
  attempt net videoId url c = Ok info ->
  MediaInfo.streams info <> []
  /\ MediaInfo.id info = videoId
  /\ MediaInfo.originalUrl info = url
  /\ exists r vd,
       net c = Json r /\ videoDetails r = Some vd
       /\ MediaInfo.title info = vd_title vd
       /\ MediaInfo.streams info = parseStreamingData (streamingData r).
Proof.
  unfold attempt, callInnerTubeAPI.
  destruct (existsb (String.eqb c) INNERTUBE_CLIENTS); [|discriminate].
  destruct (net c) as [t|st t|t|r]; try discriminate.
  destruct (videoDetails r) as [vd|] eqn:Hvd; [|discriminate]. cbv zeta.
  destruct (parseStreamingData (streamingData r)) as [|s l] eqn:Hs; [discriminate|].
  cbn [List.length Nat.eqb]. intros [= <-]. simpl.
  split; [discriminate|]. split; [reflexivity|]. split; [reflexivity|].
  exists r, vd. auto.
Qed.

Lemma try_clients_spec net videoId url clients : forall lastError,
  match try_clients net videoId url clients lastError with
  | Ok info =>
      exists c,
        first_with (fun c => exists i, attempt net videoId url c = Ok i) clients c
        /\ attempt net videoId url c = Ok info
  | Throw m =>
      Forall (fun c => exists e, attempt net videoId url c = Throw e) clients
      /\ exists e,
           m = "Failed to extract video with all clients. Last error: " +:+ e
           /\ match last clients with
              | Some c => attempt net videoId url c = Throw e
              | None => e = default "undefined" lastError
              end
  end.
Proof.
  induction clients as [|c rest IH]; intros lastError.
  - simpl. split; [constructor|]. eexists. split; reflexivity.
  - cbn [try_clients]. destruct (attempt net videoId url c) as [info|m] eqn:E.
    + exists c. split; [|exact E]. exists [], rest.
      split; [reflexivity|]. split; [eauto | constructor].
    + specialize (IH (Some m)).
      destruct (try_clients net videoId url rest (Some m)) as [info|m'].
      * destruct IH as (c' & (b & a & Heq & Hc' & Hb) & Hinfo).
        exists c'. split; [|exact Hinfo]. exists (c :: b), a.
        split; [simpl; rewrite Heq; reflexivity|]. split; [exact Hc'|].
        constructor; [|exact Hb]. intros [i Hi]. congruence.
      * destruct IH as (Hall & e & -> & Hlast).
        split; [constructor; eauto|]. exists e. split; [reflexivity|].
        destruct rest as [|c2 rest']; [simpl in *; congruence|].
        change (last (c :: c2 :: rest')) with (last (c2 :: rest')).
        destruct (last (c2 :: rest')) as [x|] eqn:El; [exact Hlast|].
        apply last_None in El. discriminate.
Qed.

(** [extract] rejects a URL without a video identifier as invalid.
    Otherwise it asks the clients web, android, ios and mweb in that
    order and returns what the first of them that answers with video
    details and at least one stream with a URL gives: the result
    carries the identifier and the URL, its stream list is not empty,
    and the orchestrator's selection therefore always finds a stream in
    it, whatever the options.  When all four clients fail, it throws
    the all-clients error with the message of the mweb client's
    failure. *)
Theorem youtube_extract_fallback (net : string -> Fetch) (url : string) :
  match YouTube.extractVideoId url with
  | None => extract net url = Throw "Invalid YouTube URL: Could not extract video ID"
  | Some videoId =>
      match extract net url with
      | Ok info =>
          (exists c,
              first_with (fun c => exists i, attempt net videoId url c = Ok i)
                         clientOrder c
              /\ attempt net videoId url c = Ok info)
          /\ MediaInfo.id info = videoId
          /\ MediaInfo.originalUrl info = url
          /\ MediaInfo.streams info <> []
          /\ forall options,
               exists s,
                 MediaDownloader.selectBestStream
                   (streams (as_ExtractResult info)) options = Some s
                 /\ In s (streams (as_ExtractResult info))
      | Throw m =>
          Forall (fun c => exists e, attempt net videoId url c = Throw e) clientOrder
          /\ exists e,
               attempt net videoId url "mweb" = Throw e
               /\ m = "Failed to extract video with all clients. Last error: " +:+ e
      end
  end.
Proof.
  unfold extract. destruct (YouTube.extractVideoId url) as [videoId|]; [|reflexivity].
  pose proof (try_clients_spec net videoId url clientOrder None) as H.
  destruct (try_clients net videoId url clientOrder None) as [info|m].
  - destruct H as (c & Hfirst & Hinfo).
    destruct (attempt_streams _ _ _ _ _ Hinfo) as (Hne & Hid & Hurl & _).
    split; [eauto|]. split; [exact Hid|]. split; [exact Hurl|]. split; [exact Hne|].
    intros options.
    destruct (SelectionSpec.selectBestStream_Selects
                (streams (as_ExtractResult info)) options) as (s & Hs & Hsel).
    { simpl. destruct (MediaInfo.streams info); [congruence | discriminate]. }
    exists s. split; [exact Hs|]. eapply SelectionSpec.Selects_In. exact Hsel.
  - destruct H as (Hall & e & -> & Hlast). split; [exact Hall|].
    exists e. split; [exact Hlast | reflexivity].
Qed.

Lemma attempt_extractWithClient net videoId url c :
  YouTube.extractVideoId url = Some videoId ->
  forall info,
    attempt net videoId url c = Ok info
    <-> (extractWithClient net url c = Ok info /\ MediaInfo.streams info <> []).
Proof.
  intros Hid info. unfold attempt, extractWithClient. rewrite Hid.
  destruct (callInnerTubeAPI net c) as [r|m]; [|split; [discriminate | intros [H _]; discriminate]].
  destruct (videoDetails r) as [vd|]; [|split; [discriminate | intros [H _]; discriminate]].
  cbv zeta.
  destruct (parseStreamingData (streamingData r)) as [|s l] eqn:Hs; cbn [List.length Nat.eqb].
  - split; [discriminate|]. intros [[= <-] Hne]. simpl in Hne. congruence.
  - split.
    + intros [= <-]. split; [reflexivity | discriminate].
    + intros [H _]. exact H.
Qed.

(** [extract] against [extractWithClient]: what [extract] returns is
    what [extractWithClient] returns for the first of the clients web,
    android, ios, mweb for which it returns a result with at least one
    stream; [extractWithClient] itself returns whatever the client it
    is given answers with video details, for every client of the table
    and even when no stream has a URL. *)
Theorem extract_is_first_usable_client (net : string -> Fetch) (url : string) :
  (forall info,
      extract net url = Ok info
      <-> exists c,
            first_with (fun c => exists i, extractWithClient net url c = Ok i
                                           /\ MediaInfo.streams i <> [])
                       clientOrder c
            /\ extractWithClient net url c = Ok info
            /\ MediaInfo.streams info <> [])
  /\ (forall c r vd,
        In c INNERTUBE_CLIENTS -> net c = Json r -> videoDetails r = Some vd ->
        forall videoId,
          YouTube.extractVideoId url = Some videoId ->
          extractWithClient net url c
          = Ok (info_of videoId url vd (parseStreamingData (streamingData r)))).
Proof.
  split.
  - intros info. unfold extract.
    destruct (YouTube.extractVideoId url) as [videoId|] eqn:Hid.
    2:{ split; [discriminate|]. intros (c & _ & H & _).
        unfold extractWithClient in H. rewrite Hid in H. discriminate. }
    pose proof (try_clients_spec net videoId url clientOrder None) as H.
    assert (forall c,
               (exists i, attempt net videoId url c = Ok i)
               <-> (exists i, extractWithClient net url c = Ok i
                              /\ MediaInfo.streams i <> [])) as Hsame.
    { intros c. split; intros [i Hi]; exists i;
        apply (attempt_extractWithClient net videoId url c Hid i); exact Hi. }
    destruct (try_clients net videoId url clientOrder None) as [info'|m].
    + destruct H as (c & Hfirst & Hinfo). split.
      * intros [= <-]. exists c.
        split; [eapply SelectionSpec.first_with_ext; [exact Hsame | exact Hfirst]|].
        apply (attempt_extractWithClient net videoId url c Hid info'). exact Hinfo.
      * intros (c' & Hfirst' & Hinfo' & Hne).
        assert (c' = c) as ->.
        { eapply SelectionSpec.first_with_unique; [|exact Hfirst].
          eapply SelectionSpec.first_with_ext; [|exact Hfirst'].
          intros y. symmetry. apply Hsame. }
        apply (attempt_extractWithClient net videoId url c Hid info') in Hinfo.
        destruct Hinfo as [Hinfo _]. congruence.
    + destruct H as (Hall & _). split; [discriminate|].
      intros (c & (b & a & Heq & [i [Hi Hne]] & _) & _).
      rewrite Forall_forall in Hall.
      destruct (Hall c) as [e He].
      { apply list_elem_of_In. rewrite Heq. apply in_or_app. right. left. reflexivity. }
      pose proof (proj2 (attempt_extractWithClient net videoId url c Hid i)
                        (conj Hi Hne)) as Hok.
      congruence.
  - intros c r vd Hc Hr Hvd videoId Hid.
    unfold extractWithClient, callInnerTubeAPI. rewrite Hid.
    assert (existsb (String.eqb c) INNERTUBE_CLIENTS = true) as ->.
    { apply existsb_exists. exists c. split; [exact Hc | apply String.eqb_refl]. }
    rewrite Hr, Hvd. reflexivity.
Qed.

End YouTubeApiSpec.

(** ** The TikTok extractor *)

Module TikTokApiSpec.

Import TikTokApi Vocabulary.

Lemma In_insert x y l : In y (MediaDownloader.insert x l) -> y = x \/ In y l.
Proof.
  induction l as [|z l IH]; simpl.
  - intros [<-|[]]. left. reflexivity.
  - destruct (MediaDownloader.compare x z <=? 0)%Z; simpl.
    + intros [<-|H]; auto.
    + intros [<-|H]; [auto|]. destruct (IH H); auto.
Qed.

Lemma In_sort y l : In y (MediaDownloader.sort l) -> In y l.
Proof.
  induction l as [|x l IH]; simpl; [auto|].
  intros H. apply In_insert in H as [->|H]; auto.
Qed.

(** A stream that ranks no worse than those after it stays at the
    head. *)
Lemma hd_sort_head x l :
  (forall t, In t l -> (MediaDownloader.rank x <= MediaDownloader.rank t)%Z) ->
  hd_error (MediaDownloader.sort (x :: l)) = Some x.
Proof.
  intros H. unfold MediaDownloader.sort. simpl. fold (MediaDownloader.sort l).
  rewrite SelectionSpec.hd_insert.
  destruct (hd_error (MediaDownloader.sort l)) as [y|] eqn:E; [|reflexivity].
  assert (In y l) as Hy.
  { apply In_sort. destruct (MediaDownloader.sort l); [discriminate|].
    injection E as ->. left. reflexivity. }
  specialize (H y Hy). unfold MediaDownloader.compare.
  destruct (Z.leb_spec (MediaDownloader.rank x - MediaDownloader.rank y) 0);
    [reflexivity | lia].
Qed.

Lemma rank_video net v a b d e :
  MediaDownloader.rank (as_StreamInfo (video_stream net v a d))
  = MediaDownloader.rank (as_StreamInfo (video_stream net v b e)).
Proof. reflexivity. Qed.

Lemma rank_music net m :
  MediaDownloader.rank (as_StreamInfo (music_stream net m)) = 999%Z.
Proof. reflexivity. Qed.

Lemma downloadHeaders_agent cookies :
  downloadHeaders cookies !! "User-Agent" = Some chrome
  /\ downloadHeaders cookies !! "Range" = Some "bytes=0-"
  /\ downloadHeaders cookies !! "Referer" = Some "https://www.tiktok.com/".
Proof. repeat split; reflexivity. Qed.

(** What [parseVideoData] yields: the stream of the play address when
    the video has one, then the stream of the download address when the
    video has one that differs from the play address, then the stream
    of the music when its URL is not empty; these and no others, in
    that order, the two video streams under the signed form of their
    address and the music under its own URL.  Each stream has one of
    the nine quality labels and a format, and each asks for its own
    request headers, so that the engine fetches it with the fixed
    desktop browser agent, whatever agent is configured.  With neither
    a quality nor a format hint the orchestrator picks the first of
    them. *)
Theorem tiktok_streams_selection
        (net : Net) (videoData : VideoData) (options : DownloadOptions) :
  opt_quality options = None -> opt_format options = None ->
  MediaDownloader.selectBestStream
    (map as_StreamInfo (parseVideoData net videoData)) options
  = hd_error (map as_StreamInfo (parseVideoData net videoData))
  /\ (List.length (parseVideoData net videoData) <= 3)%nat
  /\ Forall (fun s =>
               In (Stream.quality s) tiktok_labels
               /\ Stream.format s <> ""
               /\ forall userAgent,
                    RequestHeaders.requestHeaders userAgent (Stream.url s)
                      (Stream.headers s) !! "User-Agent" = Some chrome)
            (parseVideoData net videoData)
  /\ map (fun s => (Stream.url s, Stream.isDownloadUrl s, Stream.isAudioOnly s))
         (parseVideoData net videoData)
     = (match video videoData with
        | Some v =>
            (if Js.truthy (playAddr v)
             then [(processVideoUrl net (playAddr v), false, false)]
             else [])
            ++ (if Js.truthy (downloadAddr v)
                   && negb (String.eqb (downloadAddr v) (playAddr v))
                then [(processVideoUrl net (downloadAddr v), true, false)]
                else [])
        | None => []
        end
        ++ match music videoData with
           | Some m =>
               if Js.truthy (playUrl m) then [(playUrl m, false, true)] else []
           | None => []
           end)%list.
Proof.
  intros Hq Hf.
  assert (forall l, MediaDownloader.selectBestStream l options
                    = hd_error (MediaDownloader.sort l)) as Hsel.
  { intros l. unfold MediaDownloader.selectBestStream. rewrite Hq, Hf. reflexivity. }
  assert (forall v a d,
             In (Stream.quality (video_stream net v a d)) tiktok_labels
             /\ Stream.format (video_stream net v a d) <> ""
             /\ forall userAgent,
                  RequestHeaders.requestHeaders userAgent
                    (Stream.url (video_stream net v a d))
                    (Stream.headers (video_stream net v a d)) !! "User-Agent"
                  = Some chrome) as Hvideo.
  { intros v a d. split; [|split].
    - simpl. apply ExtractorSpec.tiktok_mapQuality_range.
    - simpl. unfold Js.or_else. destruct (Js.truthy (v_format v)) eqn:E.
      + apply SelectionSpec.truthy_nonempty, E.
      + discriminate.
    - intros ua. unfold RequestHeaders.requestHeaders.
      apply lookup_union_Some_l. reflexivity. }
  assert (forall m,
             In (Stream.quality (music_stream net m)) tiktok_labels
             /\ Stream.format (music_stream net m) <> ""
             /\ forall userAgent,
                  RequestHeaders.requestHeaders userAgent
                    (Stream.url (music_stream net m))
                    (Stream.headers (music_stream net m)) !! "User-Agent"
                  = Some chrome) as Hmusic.
  { intros m. split; [|split].
    - simpl. tauto.
    - discriminate.
    - intros ua. unfold RequestHeaders.requestHeaders.
      apply lookup_union_Some_l. reflexivity. }
  rewrite Hsel. unfold parseVideoData.
  destruct (video videoData) as [v|];
    [destruct (Js.truthy (playAddr v));
     destruct (Js.truthy (downloadAddr v)
               && negb (String.eqb (downloadAddr v) (playAddr v)))|];
    (destruct (music videoData) as [m|]; [destruct (Js.truthy (playUrl m))|]);
    cbn [app map hd_error List.length];
    (split;
     [|split; [lia|];
       split; [repeat (constructor; [first [apply Hvideo | apply Hmusic]|]);
               constructor
              |reflexivity]]);
    lazymatch goal with
    | |- hd_error (MediaDownloader.sort []) = None => reflexivity
    | |- _ =>
        apply hd_sort_head; intros t Ht; cbn [In] in Ht;
        repeat (destruct Ht as [<-|Ht];
                [first [ rewrite rank_music; apply SelectionSpec.rank_range
                       | apply Z.eq_le_incl, rank_video ]|]);
        destruct Ht
    end.
Qed.

Lemma tiktok_streams_selection_witness :
  MediaDownloader.selectBestStream
    (map as_StreamInfo (parseVideoData Samples.tiktok_net Samples.clip))
    Selection.no_hints
  = hd_error (map as_StreamInfo (parseVideoData Samples.tiktok_net Samples.clip))
  /\ List.length (parseVideoData Samples.tiktok_net Samples.clip) = 3%nat.
Proof.
  split; [|reflexivity].
  exact (proj1 (tiktok_streams_selection Samples.tiktok_net Samples.clip
                  Selection.no_hints eq_refl eq_refl)).
Defined.



End TikTokApiSpec.

(** ** Start-up, the progress display and the transcoder command *)

Module FrontEndSpec.

Import Vocabulary.

Lemma registerAll_app extractors : forall registry,
  Startup.registerAll extractors registry = (registry ++ extractors)%list.
Proof.
  unfold Startup.registerAll, MediaDownloader.registerExtractor.
  induction extractors as [|e es IH]; intros registry; simpl.
  - rewrite app_nil_r. reflexivity.
  - rewrite IH, <- List.app_assoc. reflexivity.
Qed.

Lemma findExtractor_app a b url :
  MediaDownloader.findExtractor (a ++ b) url
  = match MediaDownloader.findExtractor a url with
    | Some x => Some x
    | None => MediaDownloader.findExtractor b url
    end.
Proof.
  induction a as [|x a IH]; simpl; [reflexivity|].
  destruct (Extractor.test x url); [reflexivity | exact IH].
Qed.

(** The extractors are registered twice on the command line's
    orchestrator, so each stands twice in the registry; dispatch and
    extraction are what they are after one registration. *)
Theorem registering_twice_keeps_dispatch
        (extractors : list Extractor.t) (url : string) :
  Startup.registerAll extractors (Startup.registerAll extractors [])
  = (extractors ++ extractors)%list
  /\ MediaDownloader.findExtractor
       (Startup.registerAll extractors (Startup.registerAll extractors [])) url
     = MediaDownloader.findExtractor (Startup.registerAll extractors []) url
  /\ MediaDownloader.extract
       (Startup.registerAll extractors (Startup.registerAll extractors [])) url
     = MediaDownloader.extract (Startup.registerAll extractors []) url.
Proof.
  rewrite !registerAll_app. simpl.
  assert (MediaDownloader.findExtractor (extractors ++ extractors) url
          = MediaDownloader.findExtractor extractors url) as H.
  { rewrite findExtractor_app.
    destruct (MediaDownloader.findExtractor extractors url); reflexivity. }
  split; [reflexivity|]. split; [exact H|].
  unfold MediaDownloader.extract. rewrite H. reflexivity.
Qed.

(** The bar the command line draws for a progress event.  As long as
    the transport has loaded no more than the announced total, the bar
    is drawn with thirty cells; once it has loaded 1.02 times the total
    or more (byte counts below 2^53), the number of blank cells is
    negative and [displayProgress] throws inside the progress
    callback. *)
Theorem displayed_progress_is_drawn
        (ev : HttpClient.ProgressEvent) (st : HttpClient.EngineState) (T : Z) :
  HttpClient.total ev = Some T -> (0 < T)%Z -> (0 <= HttpClient.loaded ev)%Z ->
  ((HttpClient.loaded ev <= T)%Z ->
   exists bar,
     Cli.displayProgress_bar
       (HttpClient.job (HttpClient.onDownloadProgress ev st)) = Ok bar
     /\ List.length bar = 30%nat)
  /\ ((T < 2 ^ 53)%Z -> (HttpClient.loaded ev < 2 ^ 53)%Z ->
      (51 * T <= 50 * HttpClient.loaded ev)%Z ->
      exists m,
        Cli.displayProgress_bar
          (HttpClient.job (HttpClient.onDownloadProgress ev st)) = Throw m).
Proof.
  intros Htot HT Hl.
  assert (progress (HttpClient.job (HttpClient.onDownloadProgress ev st))
          = HttpClient.percent (HttpClient.loaded ev) T) as Hp.
  { unfold HttpClient.onDownloadProgress. rewrite Htot.
    destruct (Z.eqb_spec T 0); [lia | reflexivity]. }
  unfold Cli.displayProgress_bar. rewrite Hp. clear Hp.
  set (p := HttpClient.percent (HttpClient.loaded ev) T).
  unfold Cli.createProgressBar, Cli.repeat_cell. cbv zeta.
  split.
  - intros Hle.
    assert (0 <= p <= 100)%Z as Hp.
    { pose proof (EngineSpec.percent_mono T _ _ HT Hl) as A.
      pose proof (EngineSpec.percent_mono T _ _ HT Hle) as B.
      rewrite (EngineSpec.percent_zero T HT) in A.
      rewrite (EngineSpec.percent_full T HT) in B. subst p. lia. }
    destruct (HelperSpec.filled_cells_range p 30 Hp
                ltac:(split; [lia | reflexivity]))
      as [Hf0 Hf1].
    destruct (Z.ltb_spec (Cli.filled_cells p 30) 0); [lia|].
    destruct (Z.ltb_spec (30 - Cli.filled_cells p 30) 0); [lia|].
    eexists. split; [reflexivity|].
    rewrite List.length_app, !length_replicate. lia.
  - intros HT' Hl' Hge.
    pose proof (EngineSpec.percent_overrun (HttpClient.loaded ev) T
                  ltac:(lia) Hl' Hge) as Hp2.
    fold p in Hp2.
    pose proof (HelperSpec.filled_cells_overrun p Hp2) as Hf.
    destruct (Z.ltb_spec (Cli.filled_cells p 30) 0); [lia|].
    destruct (Z.ltb_spec (30 - Cli.filled_cells p 30) 0); [|lia].
    eexists. reflexivity.
Qed.

Lemma displayed_progress_is_drawn_witness :
  exists bar,
    Cli.displayProgress_bar
      (HttpClient.job
         (HttpClient.onDownloadProgress (Scenario.bytes 512 1024) Scenario.st0))
    = Ok bar
    /\ List.length bar = 30%nat.
Proof.
  apply (displayed_progress_is_drawn (Scenario.bytes 512 1024) Scenario.st0 1024
           eq_refl ltac:(lia) ltac:(simpl; lia)).
  simpl. lia.
Defined.

(** The command handed to the transcoder: it always drops the video,
    reads the input and writes the output of the request, and names a
    codec and a container, adts for aac and the format itself
    otherwise.  It carries a bitrate exactly for mp3, aac and m4a; any
    other format, the ogg and flac that [isAudioFormat] accepts
    included, is encoded with the mp3 codec unless it is wav. *)
Theorem conversion_command_shape (options : AudioProcessor.AudioConversionOptions) :
  AudioProcessor.cmd_noVideo (AudioProcessor.command options) = true
  /\ AudioProcessor.cmd_input (AudioProcessor.command options)
     = AudioProcessor.inputPath options
  /\ AudioProcessor.cmd_output (AudioProcessor.command options)
     = Some (AudioProcessor.outputPath options)
  /\ AudioProcessor.cmd_audioCodec (AudioProcessor.command options)
     = Some (AudioProcessor.getAudioCodec (AudioProcessor.format options))
  /\ AudioProcessor.cmd_format (AudioProcessor.command options)
     = Some (if String.eqb (AudioProcessor.format options) "aac" then "adts"
             else AudioProcessor.format options)
  /\ (In (AudioProcessor.format options) ["mp3"; "aac"; "m4a"]
      <-> exists b, AudioProcessor.cmd_audioBitrate (AudioProcessor.command options)
                    = Some b)
  /\ (~ In (AudioProcessor.format options) ["mp3"; "wav"; "aac"; "m4a"] ->
      AudioProcessor.cmd_audioCodec (AudioProcessor.command options)
      = Some "libmp3lame"
      /\ AudioProcessor.cmd_audioBitrate (AudioProcessor.command options) = None)
  /\ AudioProcessor.isAudioFormat "ogg" = true
  /\ AudioProcessor.isAudioFormat "flac" = true.
Proof.
  unfold AudioProcessor.command, AudioProcessor.getQualitySettings,
    AudioProcessor.getAudioCodec.
  destruct (String.eqb_spec (AudioProcessor.format options) "mp3") as [Hmp3|Hmp3];
    [|destruct (String.eqb_spec (AudioProcessor.format options) "wav") as [Hwav|Hwav];
      [|destruct (String.eqb_spec (AudioProcessor.format options) "aac") as [Haac|Haac];
        [|destruct (String.eqb_spec (AudioProcessor.format options) "m4a")
            as [Hm4a|Hm4a]]]];
    try rewrite Hmp3; try rewrite Hwav; try rewrite Haac; try rewrite Hm4a;
    cbn [orb String.eqb Ascii.eqb Bool.eqb andb];
    repeat match goal with
           | |- context [String.eqb ?a ?b] => destruct (String.eqb a b)
           end;
    cbn;
    repeat split; auto; try tauto; try (eexists; reflexivity);
    try (intros [b Hb]; discriminate Hb);
    try (intros H; repeat (destruct H as [H|H]; [congruence|]); destruct H);
    try (intros H; exfalso; apply H; simpl; auto).
Qed.

End FrontEndSpec.

(** ** The format of a generic file *)

Module HttpFormatSpec.

Import Vocabulary.

Ltac each_ascii c :=
  destruct c as [[|] [|] [|] [|] [|] [|] [|] [|]].

Lemma lower_dot c : Js.lower_ascii c = "."%char -> c = "."%char.
Proof. each_ascii c; intros H; vm_compute in H; first [discriminate H | reflexivity]. Qed.

Lemma lower_alnum c : alnum (Js.lower_ascii c) = true -> alnum c = true.
Proof. each_ascii c; intros H; vm_compute in H |- *; first [discriminate H | reflexivity]. Qed.

Lemma alnum_plain c :
  alnum c = true ->
  negb (Js.ascii_eqb c "/") = true /\ negb (Js.ascii_eqb c ".") = true
  /\ negb (Js.ascii_eqb c ":") = true /\ negb (Url.ends_path c) = true.
Proof.
  each_ascii c; intros H; vm_compute in H |- *;
    first [discriminate H | repeat split].
Qed.

Lemma lower_length s : String.length (Js.toLowerCase s) = String.length s.
Proof. induction s as [|c s IH]; simpl; [reflexivity | rewrite IH; reflexivity]. Qed.

Lemma lower_drop s : forall n, Js.drop n (Js.toLowerCase s) = Js.toLowerCase (Js.drop n s).
Proof.
  induction s as [|c s IH]; intros [|n]; simpl; try reflexivity. apply IH.
Qed.

Lemma take_drop s : forall n, s = Text.take n s +:+ Js.drop n s.
Proof.
  induction s as [|c s IH]; intros [|n]; simpl; try reflexivity.
  rewrite TextSpec.app_cons. f_equal. apply IH.
Qed.

(** Ending with [ext] up to the case of the letters. *)
Lemma endsWith_lower_inv ext s :
  Js.endsWith ext (Js.toLowerCase s) = true ->
  exists pre x, s = pre +:+ x /\ Js.toLowerCase x = ext.
Proof.
  unfold Js.endsWith, Js.length. rewrite lower_length, lower_drop.
  intros H. apply andb_prop in H as [_ H]. apply String.eqb_eq in H.
  eexists _, _. split; [apply take_drop | exact H].
Qed.

Lemma media_extension_shape ext :
  In ext HttpExtractor.mediaExtensions ->
  exists x, ext = String "." x /\ Text.all alnum x = true /\ x <> "".
Proof.
  unfold HttpExtractor.mediaExtensions. simpl.
  intros H. repeat (destruct H as [<-|H]; [eexists; repeat split; discriminate|]).
  destruct H.
Qed.

Lemma lower_all_alnum y :
  Text.all alnum (Js.toLowerCase y) = true -> Text.all alnum y = true.
Proof.
  induction y as [|c y IH]; [reflexivity|]. cbn [Js.toLowerCase Text.all].
  intros H. apply andb_prop in H as [Hc Hy].
  rewrite (lower_alnum c Hc), (IH Hy). reflexivity.
Qed.

(** The path ends with a dot and a run of letters and digits that is
    the extension up to case. *)
Lemma media_suffix ext s :
  In ext HttpExtractor.mediaExtensions ->
  Js.endsWith ext (Js.toLowerCase s) = true ->
  exists pre y,
    s = pre +:+ String "." y
    /\ ext = String "." (Js.toLowerCase y)
    /\ Text.all alnum y = true /\ y <> "".
Proof.
  intros Hin Hends.
  destruct (media_extension_shape ext Hin) as (x & -> & Hx & Hne).
  destruct (endsWith_lower_inv _ _ Hends) as (pre & x' & -> & Hlow).
  destruct x' as [|c y]; [discriminate|]. cbn [Js.toLowerCase] in Hlow.
  injection Hlow as Hc Hy. apply lower_dot in Hc. subst c.
  exists pre, y. split; [reflexivity|]. split; [rewrite Hy; reflexivity|].
  split; [apply lower_all_alnum; rewrite Hy; exact Hx|].
  intros ->. apply Hne. symmetry. exact Hy.
Qed.

Lemma span_all (p : ascii -> bool) s :
  Text.all p s = true -> Js.span p s = (s, "").
Proof.
  induction s as [|c s IH]; [reflexivity|]. cbn [Text.all Js.span].
  intros H. apply andb_prop in H as [Hc Hs]. rewrite Hc, (IH Hs). reflexivity.
Qed.

Lemma split_pop_from_suffix sep b : free_of sep b = true -> forall a cur,
  Js.split_pop_from sep (cur +:+ b) (a +:+ b) = Js.split_pop_from sep cur a +:+ b.
Proof.
  intros Hb. induction a as [|c a IH]; intros cur.
  - change ("" +:+ b) with b. cbn [Js.split_pop_from].
    apply FilenameSpec.split_pop_from_free. exact Hb.
  - rewrite TextSpec.app_cons. cbn [Js.split_pop_from].
    destruct (Js.ascii_eqb c sep); apply IH.
Qed.

(** The last segment of a path keeps a suffix without separator. *)
Lemma split_pop_suffix sep a b :
  free_of sep b = true ->
  Js.split_pop sep (a +:+ b) = Js.split_pop sep a +:+ b.
Proof. intros Hb. unfold Js.split_pop. apply split_pop_from_suffix. exact Hb. Qed.

Lemma pathname_unfold s :
  Url.pathname s =
  match Url.after_scheme s with
  | None => None
  | Some r =>
      if Js.startsWith "//" r then
        let '(authority, r') :=
          Js.span (fun c => negb (Url.ends_authority c)) (Js.drop 2 r) in
        if Js.truthy authority then
          let '(path, _) := Js.span (fun c => negb (Url.ends_path c)) r' in
          Some (Js.or_else path "/")
        else None
      else
        let '(path, _) := Js.span (fun c => negb (Url.ends_path c)) r in
        Some path
  end.
Proof.
  unfold Url.pathname. destruct (Url.after_scheme s) as [r|]; [|reflexivity].
  destruct r as [|c r]; [reflexivity|].
  each_ascii c; try reflexivity.
  destruct r as [|d r]; [reflexivity|].
  each_ascii d; reflexivity.
Qed.

Lemma pathname_plain url p :
  Url.pathname url = Some p ->
  Text.all (fun c => negb (Url.ends_path c)) p = true.
Proof.
  rewrite pathname_unfold. destruct (Url.after_scheme url) as [r|]; [|discriminate].
  destruct (Js.startsWith "//" r).
  - destruct (Js.span (fun c => negb (Url.ends_authority c)) (Js.drop 2 r))
      as [authority r'].
    destruct (Js.truthy authority); [|discriminate].
    pose proof (ProbeSpec.span_spec (fun c => negb (Url.ends_path c)) r')
      as (_ & Hall & _).
    destruct (Js.span (fun c => negb (Url.ends_path c)) r') as [path rest].
    intros [= <-]. unfold Js.or_else. destruct (Js.truthy path); [exact Hall | reflexivity].
  - pose proof (ProbeSpec.span_spec (fun c => negb (Url.ends_path c)) r)
      as (_ & Hall & _).
    destruct (Js.span (fun c => negb (Url.ends_path c)) r) as [path rest].
    intros [= <-]. exact Hall.
Qed.

Lemma after_colon_inv s : forall r,
  Url.after_colon s = Some r -> exists sch, s = sch +:+ String ":" r.
Proof.
  induction s as [|c s IH]; intros r; simpl; [discriminate|].
  destruct (Js.ascii_eqb c ":") eqn:E.
  - apply TextSpec.ascii_eqb_eq in E. subst c. intros [= <-]. exists "". reflexivity.
  - destruct (Url.is_scheme_char c); [|discriminate].
    intros H. destruct (IH r H) as [sch ->]. exists (String c sch). reflexivity.
Qed.

Lemma after_scheme_inv s r :
  Url.after_scheme s = Some r -> exists sch, s = sch +:+ String ":" r.
Proof.
  unfold Url.after_scheme. destruct s as [|c s]; [discriminate|].
  destruct (Url.is_alpha c); [|discriminate].
  intros H. destruct (after_colon_inv s r H) as [sch ->].
  exists (String c sch). reflexivity.
Qed.

Lemma free_of_app c a b : free_of c (a +:+ b) = free_of c a && free_of c b.
Proof. apply FilenameSpec.all_app. Qed.

Lemma free_of_self c a b : free_of c (a +:+ String c b) = false.
Proof.
  rewrite free_of_app. unfold free_of at 2. cbn [Text.all].
  unfold Js.ascii_eqb. rewrite Ascii.eqb_refl. cbn [negb andb]. apply andb_false_r.
Qed.

(** A suffix without colon lies after the first colon. *)
Lemma colon_split B R : free_of ":" B = true -> forall C A,
  A +:+ B = C +:+ String ":" R -> exists R0, R = R0 +:+ B.
Proof.
  intros HB. induction C as [|c C IH]; intros A H.
  - change ("" +:+ String ":" R) with (String ":" R) in H.
    destruct A as [|a A].
    + change ("" +:+ B) with B in H. subst B.
      pose proof (free_of_self ":" "" R) as F.
      change ("" +:+ String ":" R) with (String ":" R) in F. congruence.
    + rewrite TextSpec.app_cons in H. injection H as _ H. exists A. symmetry. exact H.
  - rewrite TextSpec.app_cons in H. destruct A as [|a A].
    + change ("" +:+ B) with B in H. subst B.
      pose proof (free_of_self ":" (String c C) R) as F.
      rewrite TextSpec.app_cons in F. congruence.
    + rewrite TextSpec.app_cons in H. injection H as _ H. exact (IH A H).
Qed.

Lemma no_slashes r : free_of "/" r = true -> Js.startsWith "//" r = false.
Proof.
  destruct r as [|c r]; [reflexivity|]. unfold free_of. cbn [Text.all Js.startsWith].
  intros H. apply andb_prop in H as [Hc _]. apply negb_true_iff in Hc.
  unfold Js.ascii_eqb in *. rewrite Ascii.eqb_sym, Hc. reflexivity.
Qed.

Lemma all_alnum_plain y :
  Text.all alnum y = true ->
  free_of "/" y = true /\ free_of "." y = true /\ free_of ":" y = true
  /\ Text.all (fun c => negb (Url.ends_path c)) y = true.
Proof.
  intros H. unfold free_of.
  repeat split; (eapply ExtractorSpec.all_weaken; [|exact H]);
    intros c Hc; apply alnum_plain in Hc; tauto.
Qed.

(** The extension of a name without slash, question mark or hash that
    ends with a dot and letters or digits is what follows that dot,
    whether or not the name reads as a URL. *)
Lemma getFileExtension_segment seg0 y :
  free_of "/" seg0 = true ->
  Text.all (fun c => negb (Url.ends_path c)) seg0 = true ->
  Text.all alnum y = true -> y <> "" ->
  Common.getFileExtension (seg0 +:+ String "." y) = y.
Proof.
  intros Hslash Hplain Hy Hne.
  destruct (all_alnum_plain y Hy) as (Hy1 & Hy2 & Hy3 & Hy4).
  assert (forall a, Js.or_else (Js.split_pop "." (a +:+ String "." y)) "unknown" = y)
    as Hpop.
  { intros a. rewrite FilenameSpec.split_pop_last by exact Hy2.
    unfold Js.or_else. rewrite (proj2 (SelectionSpec.truthy_nonempty y) Hne).
    reflexivity. }
  unfold Common.getFileExtension. rewrite pathname_unfold.
  destruct (Url.after_scheme (seg0 +:+ String "." y)) as [r|] eqn:Hr; [|apply Hpop].
  destruct (after_scheme_inv _ _ Hr) as [sch Hsch].
  destruct (colon_split (String "." y) r) with (C := sch) (A := seg0) as [R0 ->].
  { unfold free_of in *. cbn [Text.all]. rewrite Hy3. reflexivity. }
  { exact Hsch. }
  assert (free_of "/" (seg0 +:+ String "." y) = true) as Hs1.
  { rewrite free_of_app, Hslash. unfold free_of in *. cbn [Text.all]. rewrite Hy1.
    reflexivity. }
  assert (Text.all (fun c => negb (Url.ends_path c)) (seg0 +:+ String "." y) = true)
    as Hs2.
  { rewrite FilenameSpec.all_app, Hplain. cbn [Text.all]. rewrite Hy4. reflexivity. }
  rewrite Hsch in Hs1, Hs2.
  rewrite free_of_app in Hs1. apply andb_prop in Hs1 as [_ Hs1].
  unfold free_of in Hs1. cbn [Text.all] in Hs1. apply andb_prop in Hs1 as [_ Hs1].
  rewrite FilenameSpec.all_app in Hs2. apply andb_prop in Hs2 as [_ Hs2].
  cbn [Text.all] in Hs2. apply andb_prop in Hs2 as [_ Hs2].
  rewrite (no_slashes _ Hs1), (span_all _ _ Hs2). apply Hpop.
Qed.

Lemma all_suffix (p : ascii -> bool) rest s :
  suffix rest s -> Text.all p s = true -> Text.all p rest = true.
Proof.
  intros [pre ->]. rewrite FilenameSpec.all_app. intros H.
  apply andb_prop in H as [_ H]. exact H.
Qed.

(** For a URL the generic-file extractor accepts and a response that
    suggests no file name, [extract] returns one stream for the URL
    itself whose format is the extension of the URL's path as it is
    written there: a run of letters and digits that is, up to case, one
    of the eight media extensions, and the text after the last dot of
    the last segment of the path.  (The last segment is taken without
    colon: with one, the platform reads the name as a URL of its own.) *)
Theorem http_format_is_media_extension
        (h : Headers) (link pathname : string) :
  Url.pathname link = Some pathname ->
  HttpExtractor.test link = true ->
  free_of ":" (Js.split_pop "/" pathname) = true ->
  h !! "content-disposition" = None ->
  exists er s stem,
    HttpExtractor.extract (Ok h) link = Ok er
    /\ streams er = [s]
    /\ url s = link
    /\ Js.split_pop "/" pathname = stem +:+ "." +:+ format s
    /\ In ("." +:+ Js.toLowerCase (format s)) HttpExtractor.mediaExtensions
    /\ Text.all alnum (format s) = true
    /\ free_of "/" (format s) = true.
Proof.
  intros Hp Htest _ Hdisp.
  unfold HttpExtractor.test in Htest. rewrite Hp in Htest.
  apply existsb_exists in Htest as (ext & Hin & Hends).
  destruct (media_suffix ext pathname Hin Hends) as (pre & y & -> & -> & Hy & Hne).
  destruct (all_alnum_plain y Hy) as (Hy1 & Hy2 & Hy3 & Hy4).
  pose proof (pathname_plain _ _ Hp) as Hplain.
  rewrite FilenameSpec.all_app in Hplain. apply andb_prop in Hplain as [Hpre _].
  destruct (FilenameSpec.split_pop_shape "/" pre) as [Hseg1 Hseg2].
  pose proof (all_suffix _ _ _ Hseg2 Hpre) as Hseg3.
  assert (Js.split_pop "/" (pre +:+ String "." y)
          = Js.split_pop "/" pre +:+ String "." y) as Hpop.
  { apply split_pop_suffix. unfold free_of in *. cbn [Text.all]. rewrite Hy1.
    reflexivity. }
  assert (Js.or_else (Js.split_pop "/" pre +:+ String "." y) "download"
          = Js.split_pop "/" pre +:+ String "." y) as Hname.
  { unfold Js.or_else.
    rewrite (proj2 (SelectionSpec.truthy_nonempty _)); [reflexivity|].
    apply OutcomeSpec.append_nonempty. discriminate. }
  unfold HttpExtractor.extract, Probe.getFileInfo. cbn [Probe.head]. cbv zeta.
  rewrite Hdisp, Hp. cbn [Probe.filename]. rewrite Hpop, Hname.
  rewrite (getFileExtension_segment _ y Hseg1 Hseg3 Hy Hne).
  eexists _, _, (Js.split_pop "/" pre).
  split; [reflexivity|]. split; [reflexivity|]. split; [reflexivity|].
  cbn [format].
  split; [reflexivity|]. split; [exact Hin|]. split; [exact Hy | exact Hy1].
Qed.

Lemma http_format_is_media_extension_witness :
  exists er s,
    HttpExtractor.extract (Ok ∅) "https://example.com/clips/Holiday.2024.MP4?dl=1"
    = Ok er
    /\ streams er = [s]
    /\ format s = "MP4".
Proof.
  destruct (http_format_is_media_extension
              ∅ "https://example.com/clips/Holiday.2024.MP4?dl=1"
              "/clips/Holiday.2024.MP4"
              ltac:(reflexivity) ltac:(reflexivity) ltac:(reflexivity)
              ltac:(reflexivity))
    as (er & s & stem & Hex & Hs & _).
  exists er, s. split; [exact Hex|]. split; [exact Hs|].
  vm_compute in Hex. injection Hex as <-. injection Hs as <-. reflexivity.
Defined.

End HttpFormatSpec.

(** ** The progress of the audio conversion *)

Module ConversionSpec.

Import MediaDownloader Trace Vocabulary.

Lemma audio_of_app l1 l2 : audio_of (l1 ++ l2) = (audio_of l1 ++ audio_of l2)%list.
Proof. unfold audio_of. apply List.filter_app. Qed.

Lemma deliver_audio evs : forall st,
  exists t, HttpClient.log (HttpClient.deliver evs st) = (HttpClient.log st ++ t)%list
            /\ audio_of t = [].
Proof.
  unfold HttpClient.deliver.
  induction evs as [|ev evs IH]; intros st; simpl.
  - exists []. rewrite app_nil_r. auto.
  - destruct (IH (HttpClient.onDownloadProgress ev st)) as (t & Hlog & Ht).
    unfold HttpClient.onDownloadProgress in *.
    destruct (HttpClient.total ev) as [T|]; [destruct (T =? 0)%Z|]; eauto.
    simpl in Hlog. eexists. split; [rewrite Hlog, <- List.app_assoc; reflexivity|].
    simpl. exact Ht.
Qed.

Lemma requested_audio net attempt st :
  exists t, HttpClient.log (requested net attempt st) = (HttpClient.log st ++ t)%list
            /\ audio_of t = [].
Proof.
  unfold requested.
  destruct (deliver_audio (HttpClient.events (net attempt))
              (HttpClient.emit (Request attempt) st)) as (t & Hlog & Ht).
  simpl in Hlog. eexists. split; [rewrite Hlog, <- List.app_assoc; reflexivity|].
  simpl. exact Ht.
Qed.

(** The engine starts no transcoder and reports no conversion
    progress. *)
Lemma loop_audio net outputPath retries fuel : forall attempt st r st',
  HttpClient.loop net outputPath retries fuel attempt st = Some (r, st') ->
  exists t, HttpClient.log st' = (HttpClient.log st ++ t)%list /\ audio_of t = [].
Proof.
  induction fuel as [|fuel IH]; intros attempt st r st' Hrun; [discriminate|].
  destruct (le_lt_dec retries attempt) as [Hge|Hlt].
  { rewrite EngineSpec.loop_exhausted in Hrun by assumption. injection Hrun as <- <-.
    exists []. rewrite app_nil_r. auto. }
  destruct (requested_audio net attempt st) as (t & Hlog & Ht).
  destruct (caught (dir_exists outputPath (requested net attempt st)) (net attempt))
    as [m|] eqn:Hc.
  - destruct (Nat.eq_dec (S attempt) retries) as [Hlast|Hnot].
    + rewrite (EngineSpec.loop_caught_last _ _ _ _ _ _ _ Hlast Hc) in Hrun.
      injection Hrun as <- <-. eauto.
    + rewrite (EngineSpec.loop_caught_more net outputPath retries fuel attempt st m
                 ltac:(lia) Hc) in Hrun.
      apply IH in Hrun as (t' & Hlog' & Ht'). simpl in Hlog'.
      eexists. split; [rewrite Hlog', Hlog, <- !List.app_assoc; reflexivity|].
      rewrite audio_of_app, Ht. simpl. exact Ht'.
  - destruct (HttpClient.outcome (net attempt)) as [m|mk w] eqn:Ho.
    { unfold caught in Hc. rewrite Ho in Hc. discriminate. }
    rewrite (EngineSpec.loop_settled _ _ _ _ _ _ _ _ Hlt Ho Hc) in Hrun.
    injection Hrun as Hrun.
    destruct (EngineSpec.settle_spec outputPath w
                (with_dir outputPath (requested net attempt st))) as (Hl & _ & _ & _).
    destruct (EngineSpec.with_dir_frame outputPath (requested net attempt st))
      as [Hl' _].
    rewrite Hrun in Hl. simpl in Hl. exists t. split; [congruence | exact Ht].
Qed.

Lemma catch_quiet id m w :
  exists t, log (catch id m w).2 = (log w ++ t)%list /\ quiet t.
Proof.
  unfold catch. destruct (activeDownloads w !! id) as [p|]; simpl.
  - eexists. split; [reflexivity|]. repeat split.
  - exists []. rewrite app_nil_r. repeat split.
Qed.

Lemma complete_quiet id p path w :
  exists t, log (complete id p path w).2 = (log w ++ t)%list /\ quiet t.
Proof. unfold complete. simpl. eexists. split; [reflexivity|]. repeat split. Qed.

(** The events of the audio processor, as effects. *)
Lemma convertToAudio_effects env options filePath f :
  audio_target options = Some f ->
  map audio_effect
      (AudioProcessor.convertToAudio (transcoder env)
         (conversion options filePath f)).2
  = conversion_effects env options filePath.
Proof.
  intros Hf. unfold conversion_effects. rewrite Hf. cbv zeta.
  unfold AudioProcessor.convertToAudio. cbv zeta.
  assert (forall l,
             map audio_effect (omap AudioProcessor.onProgress l)
             = omap (fun percent =>
                       match percent with
                       | Some q =>
                           if Qeq_bool q 0 then None
                           else Some (AudioProgress (Double.Math_round q))
                       | None => None
                       end) l) as Hmap.
  { induction l as [|[q|] l IH]; simpl; [reflexivity | | exact IH].
    destruct (Qeq_bool q 0); simpl; [exact IH | f_equal; exact IH]. }
  destruct (AudioProcessor.ending _); cbn [snd map audio_effect];
    rewrite ?Hmap; reflexivity.
Qed.

Lemma audio_of_progress z l :
  audio_of (AudioProgress z :: l) = AudioProgress z :: audio_of l.
Proof. reflexivity. Qed.

Lemma audio_of_transcode c l :
  audio_of (Transcode c :: l) = Transcode c :: audio_of l.
Proof. reflexivity. Qed.

Lemma conversion_effects_audio env options filePath :
  audio_of (conversion_effects env options filePath)
  = conversion_effects env options filePath
  /\ schedule (conversion_effects env options filePath) = []
  /\ downloading_percents (conversion_effects env options filePath) = [].
Proof.
  unfold conversion_effects.
  destruct (audio_target options) as [f|]; [|auto]. cbv zeta.
  match goal with
  | |- context [omap ?g ?l] =>
      assert (audio_of (omap g l) = omap g l /\ schedule (omap g l) = []
              /\ downloading_percents (omap g l) = []) as (H1 & H2 & H3)
  end.
  { induction (AudioProcessor.percents _) as [|[q|] l IH];
      [auto | | rewrite EngineSpec.omap_cons; exact IH].
    rewrite EngineSpec.omap_cons.
    destruct (Qeq_bool q 0); [exact IH|].
    destruct IH as (H1 & H2 & H3).
    rewrite audio_of_progress, H1. split; [reflexivity|]. split; assumption. }
  destruct (AudioProcessor.ending _); auto;
    (rewrite audio_of_transcode, H1; split; [reflexivity|]; split; assumption).
Qed.

(** The conversion phase: the effects of the conversion, then effects
    that are quiet. *)
Lemma finish_block env options id filePath p w r w' :
  finish env options id filePath p w = Some (r, w') ->
  exists after,
    log w' = (log w ++ conversion_effects env options filePath ++ after)%list
    /\ quiet after.
Proof.
  assert (forall x : result string * World,
             Some x = Some (r, w') -> w' = x.2) as Hsome
    by (intros x [= ->]; reflexivity).
  unfold finish. intros Hrun.
  pose proof (convertToAudio_effects env options filePath) as Heff.
  unfold conversion_effects, audio_target in *.
  destruct (opt_format options) as [f|].
  2:{ apply Hsome in Hrun as ->.
      destruct (complete_quiet id p filePath w) as (t & Hl & Hq). exists t. auto. }
  destruct (Js.truthy f && AudioProcessor.isAudioFormat f).
  2:{ apply Hsome in Hrun as ->.
      destruct (complete_quiet id p filePath w) as (t & Hl & Hq). exists t. auto. }
  specialize (Heff f eq_refl). cbv zeta in Hrun. fold (conversion options filePath f) in Hrun.
  rewrite Heff in Hrun.
  match type of Hrun with
  | match ?a with Some _ => _ | None => _ end = _ =>
      destruct a as [conversionResult|]; [|discriminate]
  end.
  match type of Hrun with
  | (if ?c then _ else _) = _ => destruct c
  end; apply Hsome in Hrun as ->.
  - match goal with
    | |- context [complete ?i ?q ?path ?x] =>
        destruct (complete_quiet i q path x) as (t & Hl & Hq)
    end.
    exists t. split; [rewrite Hl; cbn [log]; rewrite <- List.app_assoc; reflexivity|].
    exact Hq.
  - match goal with
    | |- context [catch ?i ?m ?x] => destruct (catch_quiet i m x) as (t & Hl & Hq)
    end.
    exists t. split; [rewrite Hl; cbn [log]; rewrite <- List.app_assoc; reflexivity|].
    exact Hq.
Qed.

(** The audio conversion in one call of [download] that returns or
    throws.  What the conversion lets the environment see comes in one
    block: before it the transcoder is not started and no conversion
    progress is reported, and after it there is no request, no wait, no
    notification of a downloading job and nothing more of the
    conversion.  The block is empty unless the engine resolved; it is
    then what [conversion_effects] says: with an audio format asked for
    and a set-up that does not throw, the start of the transcoder on
    the command of the conversion, followed by the rounded percentages
    of its progress events, in order, save those that are zero or
    missing. *)
Theorem conversion_progress_follows_download
        (env : Env) (extractors : list Extractor.t) (url : string)
        (options : DownloadOptions) (w w' : World) (r : result string) :
  download env extractors url options w = Some (r, w') ->
  exists before block after,
    log w' = (log w ++ before ++ block ++ after)%list
    /\ audio_of before = []
    /\ quiet after
    /\ audio_of (log w') = (audio_of (log w) ++ block)%list
    /\ block
       = match extract extractors url with
         | Ok er =>
             match selectBestStream (streams er) options with
             | Some sel =>
                 match engine_call env url options er sel w with
                 | Some (HttpClient.Resolved _, _) =>
                     conversion_effects env options (target_path options er sel)
                 | _ => []
                 end
             | None => []
             end
         | Throw _ => []
         end.
Proof.
  assert (forall x : result string * World,
             Some x = Some (r, w') -> w' = x.2) as Hsome
    by (intros x [= ->]; reflexivity).
  assert (forall before block after,
             log w' = (log w ++ before ++ block ++ after)%list ->
             audio_of before = [] -> quiet after -> audio_of block = block ->
             audio_of (log w') = (audio_of (log w) ++ block)%list) as Hsum.
  { intros before block after -> Hb [Ha _] Hk.
    rewrite !audio_of_app, Hb, Ha, Hk, app_nil_r. reflexivity. }
  intros Hrun.
  destruct (extract extractors url) as [er|m] eqn:Hex.
  2:{ unfold download in Hrun. rewrite Hex in Hrun. apply Hsome in Hrun.
      destruct (catch_quiet (generateId env) m w) as (t & Hl & Hq).
      rewrite <- Hrun in Hl.
      exists [], [], t. split; [exact Hl|]. split; [reflexivity|].
      split; [exact Hq|]. split; [|reflexivity].
      apply (Hsum [] [] t); auto. }
  destruct (selectBestStream (streams er) options) as [sel|] eqn:Hsel.
  2:{ unfold download in Hrun. rewrite Hex in Hrun. cbv zeta in Hrun.
      rewrite Hsel in Hrun. apply Hsome in Hrun.
      match type of Hrun with
      | _ = (catch ?i ?m ?x).2 => destruct (catch_quiet i m x) as (t & Hl & Hq)
      end.
      rewrite <- Hrun in Hl. simpl in Hl.
      assert (log w' = (log w ++ [Notify (registered env url er)] ++ [] ++ t)%list)
        as Hlog by (rewrite Hl, <- List.app_assoc; reflexivity).
      eexists [_], [], t. split; [exact Hlog|]. split; [reflexivity|].
      split; [exact Hq|]. split; [|reflexivity].
      apply (Hsum _ [] t Hlog); auto. }
  rewrite (DownloadSpec.download_unfold _ _ _ _ _ _ _ Hex Hsel) in Hrun.
  unfold engine_call in *.
  match type of Hrun with
  | context [HttpClient.downloadFile ?n ?f ?j ?st] =>
      destruct (HttpClient.downloadFile n f j st) as [[s st']|] eqn:Heng;
      [apply loop_audio in Heng as (t & Hlog & Ht) | discriminate]
  end.
  simpl in Hlog.
  destruct s as [path|e|]; cbv zeta in Hrun; [| |discriminate].
  - destruct (finish_block _ _ _ _ _ _ _ _ Hrun) as (after & Hl & Hq).
    simpl in Hl.
    destruct (conversion_effects_audio env options (target_path options er sel))
      as (Hk & _ & _).
    assert (log w'
            = (log w ++ (Notify (registered env url er)
                         :: Notify (set_status downloading (registered env url er))
                         :: t)
               ++ conversion_effects env options (target_path options er sel)
               ++ after)%list) as Hlog'
      by (rewrite Hl, Hlog, <- !List.app_assoc; reflexivity).
    eexists _, _, after. split; [exact Hlog'|]. split; [exact Ht|].
    split; [exact Hq|]. split; [|reflexivity].
    apply (Hsum _ _ _ Hlog'); auto.
  - apply Hsome in Hrun.
    match type of Hrun with
    | _ = (catch ?i ?m ?x).2 => destruct (catch_quiet i m x) as (t' & Hl & Hq)
    end.
    rewrite <- Hrun in Hl. simpl in Hl.
    assert (log w'
            = (log w ++ (Notify (registered env url er)
                         :: Notify (set_status downloading (registered env url er))
                         :: t)
               ++ [] ++ t')%list) as Hlog'
      by (rewrite Hl, Hlog, <- !List.app_assoc; reflexivity).
    eexists _, [], t'. split; [exact Hlog'|]. split; [exact Ht|].
    split; [exact Hq|]. split; [|reflexivity].
    apply (Hsum _ [] t' Hlog'); auto.
Qed.

Lemma conversion_progress_follows_download_witness :
  exists r w',
    download (Scenario.env_of Scenario.smooth) Scenario.registry
             Scenario.video_url Scenario.options_mp3 Scenario.w0
    = Some (r, w')
    /\ r = Ok "downloads/video.mp3"
    /\ audio_of (log w')
       = [Transcode
            {| AudioProcessor.cmd_input := "./downloads/video.mp4";
               AudioProcessor.cmd_noVideo := true;
               AudioProcessor.cmd_audioCodec := Some "libmp3lame";
               AudioProcessor.cmd_format := Some "mp3";
               AudioProcessor.cmd_audioBitrate := Some "320k";
               AudioProcessor.cmd_output := Some "downloads/video.mp3" |};
          AudioProgress 50; AudioProgress 100].
Proof.
  destruct (DownloadSpec.download_total
              (Scenario.env_of Scenario.smooth) Scenario.registry
              Scenario.video_url Scenario.options_mp3 Scenario.w0)
    as (r & w' & Hrun).
  { apply DownloadSpec.scenario_answers. intros i mk. discriminate. }
  destruct (conversion_progress_follows_download _ _ _ _ _ _ _ Hrun)
    as (before & block & after & _ & _ & _ & Haudio & Hblock).
  exists r, w'. split; [exact Hrun|]. split.
  - assert (Some r = Some (Ok "downloads/video.mp3")) as E; [|congruence].
    change (Some r) with (fst <$> Some (r, w')). rewrite <- Hrun. reflexivity.
  - rewrite Haudio, Hblock. reflexivity.
Defined.

End ConversionSpec.
